(** * Pond client core

    A shallow embedding of the message engine of the Pond client (the
    network code of the client, client/tpm/tpm.go in the sources): sealing
    ([send]), revocation ([revoke]), unsealing with the Diffie-Hellman ratchet
    ([decryptMessageInner], [decryptMessage], [unsealMessage]), the fetch
    path ([processFetch]), the handling of send results
    ([processMessageSent]), one network transaction ([transact]) and the
    resumable detachment transfer ([transferDetachment]).

    Go values are modelled as follows: [[]byte] is [list byte], [len] is
    [length], unsigned and signed machine integers are [Z] with their
    wrap-around written out, pointers that may be nil are [option], a
    function that may panic returns an [outcome], a Go [error] is an
    [option string] ([None] is nil).  External packages (nacl/box, ed25519,
    bbssig, sha256, goprotobuf) are the fields of the class [Primitives]. *)

From Stdlib Require Import List ZArith Lia Bool.
From Stdlib Require String DecimalString.
From Stdlib Require Import Strings.Byte.
Import ListNotations.

Import String.StringSyntax.

Abbreviation string := String.string.
Open Scope string_scope.
Open Scope list_scope.

Set Implicit Arguments.

(** ** Bytes, slices and machine integers *)

Definition bytes := list byte.

Definition wrap32 (z : Z) : Z := z mod 2 ^ 32.
Definition wrap64 (z : Z) : Z := z mod 2 ^ 64.

Definition byte_of_Z (z : Z) : byte :=
  match Byte.of_N (Z.to_N (z mod 256)) with
  | Some b => b
  | None => x00
  end.

Definition Z_of_byte (b : byte) : Z := Z.of_N (Byte.to_N b).

(** [binary.LittleEndian.PutUint32] and [binary.LittleEndian.Uint32]. *)
Definition PutUint32 (v : Z) : bytes :=
  map (fun k => byte_of_Z (Z.shiftr (wrap32 v) (8 * k))) [0; 1; 2; 3]%Z.

Definition Uint32 (b : bytes) : Z :=
  Z_of_byte (nth 0 b x00)
  + Z.shiftl (Z_of_byte (nth 1 b x00)) 8
  + Z.shiftl (Z_of_byte (nth 2 b x00)) 16
  + Z.shiftl (Z_of_byte (nth 3 b x00)) 24.

(** [make([]byte, n)]. *)
Definition make (n : nat) : bytes := repeat x00 n.

(** [copy(dst[off:], src)] seen through [dst]: the bytes of [src] that fit
    overwrite [dst] from [off] on; the length of [dst] never changes. *)
Definition copy_at (dst : bytes) (off : nat) (src : bytes) : bytes :=
  firstn off dst ++ firstn (length dst - off) src ++ skipn (off + length src) dst.

(** [append(buf[off:off], data...)] seen through [buf], as [box.Seal] does
    with its [out] argument: the capacity of [buf[off:off]] reaches to the
    end of [buf], so the data lands in place when it fits; otherwise append
    allocates a fresh array and [buf] is not touched. *)
Definition append_at (buf : bytes) (off : nat) (data : bytes) : bytes :=
  if off + length data <=? length buf then copy_at buf off data else buf.

(** The number of bytes [copy] reports: the shorter of the two lengths. *)
Definition copy_count (dstLen : nat) (src : bytes) : nat :=
  Nat.min dstLen (length src).

Definition bytes_eqb (a b : bytes) : bool :=
  if list_eq_dec Byte.byte_eq_dec a b then true else false.

(** ** Panics and errors *)

Inductive outcome (A : Type) : Type :=
| Ok (a : A)
| Panic (msg : string).

Arguments Ok {A} a.
Arguments Panic {A} msg.

Definition bind {A B} (m : outcome A) (k : A -> outcome B) : outcome B :=
  match m with
  | Ok a => k a
  | Panic msg => Panic msg
  end.

Notation "x <- m ;; k" := (bind m (fun x => k))
  (at level 61, m at next level, right associativity).
Notation "' pat <- m ;; k" := (bind m (fun x => match x with pat => k end))
  (at level 61, pat pattern, m at next level, right associativity).

Definition error := option string.

(** Dereference of a pointer that may be nil. *)
Definition deref {A} (p : option A) : outcome A :=
  match p with
  | Some a => Ok a
  | None => Panic "invalid memory address or nil pointer dereference"
  end.

(** ** Constants of the source *)

Definition nonceLen : nat := 24.
(** [box.Overhead] of nacl/box: the Poly1305 tag. *)
Definition box_Overhead : nat := 16.
Definition ephemeralBlockLen : nat := nonceLen + 32 + box_Overhead.

(** [revocationSignaturePrefix = []byte("revocation\x00")]. *)
Definition revocationSignaturePrefix : bytes :=
  String.list_byte_of_string "revocation" ++ [x00].

(** [ed25519.SignatureSize]. *)
Definition ed25519_SignatureSize : nat := 64.

(** ** Wire messages (package protos): the fields the client reads or writes *)

Record Message := mkMessage {
  Id : option Z;                 (* *uint64 *)
  Time : option Z;               (* *int64 *)
  Body : bytes;
  MyNextDh : bytes;
  InReplyTo : option Z;          (* *uint64 *)
  SupportedVersion : option Z    (* *int32 *)
}.

Record Delivery := mkDelivery {
  To : bytes;
  Signature : bytes;
  Generation : option Z;         (* *uint32 *)
  DeliveryMessage : bytes        (* Delivery.Message *)
}.

Record SignedRevocation_Revocation := mkRevocationBody {
  RevRevocation : bytes;         (* SignedRevocation_Revocation.Revocation *)
  RevGeneration : option Z       (* *uint32 *)
}.

Record SignedRevocation := mkSignedRevocation {
  SRRevocation : option SignedRevocation_Revocation;
  SRSignature : bytes
}.

Record Upload := mkUpload { UploadId : option Z; UploadSize : option Z }.
Record Download := mkDownload {
  DownloadFrom : bytes; DownloadId : option Z; DownloadResume : option Z }.

Record Request := mkRequest {
  Deliver : option Delivery;
  Fetch : bool;                  (* *Fetch, an empty message *)
  Revocation : option SignedRevocation;
  ReqUpload : option Upload;
  ReqDownload : option Download
}.

Definition emptyRequest : Request := mkRequest None false None None None.

Inductive Reply_Status :=
| Reply_OK
| Reply_GENERATION_REVOKED
| Reply_RESUME_PAST_END_OF_FILE
| Reply_other (code : Z) (name : option string).

Record Fetched := mkFetched { FetchedSignature : bytes; FetchedMessage : bytes }.
Record ServerAnnounce := mkAnnounce { AnnounceMessage : option Message }.
Record UploadReply := mkUploadReply { Resume : option Z }.
Record DownloadReply := mkDownloadReply { Size : option Z }.

Record Reply := mkReply {
  Status : option Reply_Status;
  ReplyFetched : option Fetched;
  ReplyAnnounce : option ServerAnnounce;
  ReplyUpload : option UploadReply;
  ReplyDownload : option DownloadReply;
  ReplyRevocation : option SignedRevocation
}.

(** ** The cryptographic and encoding collaborators *)

Class Primitives := {
  (* io.Reader over a random source, and io.ReadFull on it: [None] is the
     error return, [Some (data, r')] the bytes read and the reader after *)
  Reader : Type;
  io_ReadFull : Reader -> nat -> option (bytes * Reader);
  (* bbssig *)
  Group : Type;
  PrivateKey : Type;
  MemberKey : Type;
  RevocationToken : Type;
  PrivateKey_Group : PrivateKey -> Group;
  Group_Marshal : Group -> bytes;
  Group_Unmarshal : bytes -> option Group;
  PrivateKey_Marshal : PrivateKey -> bytes;
  PrivateKey_Unmarshal : option Group -> bytes -> option PrivateKey;
  PrivateKey_GenerateRevocation : PrivateKey -> MemberKey -> RevocationToken;
  (* priv.Group.Update(rev): the private key after the group it points to
     has been updated *)
  PrivateKey_GroupUpdate : PrivateKey -> RevocationToken -> PrivateKey;
  (* priv.Verify(digest, sha, sig) and priv.Open(sig) *)
  PrivateKey_Verify : PrivateKey -> bytes -> bytes -> bool;
  PrivateKey_Open : PrivateKey -> bytes -> bytes * bool;
  MemberKey_Tag : MemberKey -> bytes;
  MemberKey_Update : MemberKey -> RevocationToken -> MemberKey * bool;
  (* key.Group.Update(rev) *)
  MemberKey_GroupUpdate : MemberKey -> RevocationToken -> MemberKey;
  MemberKey_Group : MemberKey -> Group;
  MemberKey_Marshal : MemberKey -> bytes;
  MemberKey_Unmarshal : Group -> bytes -> option MemberKey;
  MemberKey_Sign : Reader -> MemberKey -> bytes -> (string + bytes) * Reader;
  Revocation_Marshal : RevocationToken -> bytes;
  Revocation_Unmarshal : bytes -> option RevocationToken;
  (* nacl/box: the ciphertext Seal appends to its out argument *)
  box_Seal : bytes -> bytes -> bytes -> bytes -> bytes;
  box_Open : bytes -> bytes -> bytes -> bytes -> option bytes;
  box_GenerateKey : Reader -> (string + bytes * bytes) * Reader;
  (* ed25519 *)
  ed25519_Sign : bytes -> bytes -> bytes;
  ed25519_Verify : bytes -> bytes -> bytes -> bool;
  sha256 : bytes -> bytes;
  (* goprotobuf *)
  proto_Marshal_Message : Message -> string + bytes;
  proto_Unmarshal_Message : bytes -> string + Message;
  proto_Marshal_Revocation : SignedRevocation_Revocation -> string + bytes;
  (* pond.MaxSerializedMessage *)
  MaxSerializedMessage : nat
}.

(** ** Client state

    The declarations of [Contact], [InboxMessage], [queuedMessage] and
    [client] are not among the sources; the records below carry the fields
    that the functions modelled here read and write, with the optionality
    that disk/client.proto gives them.  [c.queue] and [c.outbox] hold
    pointers to the same [queuedMessage]s in the source; here each list has
    its own copy of an entry, and a write through a pointer found in one
    list is made in that list. *)

Section Client.

Context `{P : Primitives}.

Record previousTag := mkPreviousTag { tag : bytes; tagExpired : Z }.

Record previousGroupPrivateKey := mkPreviousGroupPrivateKey {
  prevPriv : option PrivateKey;
  expired : Z
}.

(** [id] and [name] of the source are [contactId] and [contactName];
    [generation] is [contactGeneration]. *)
Record Contact := mkContact {
  contactId : Z;
  contactName : string;
  isPending : bool;
  kxsBytes : option bytes;
  groupKey : MemberKey;
  myGroupKey : option MemberKey;
  previousTags : list previousTag;
  contactGeneration : Z;
  theirServer : string;
  theirPub : bytes;
  theirIdentityPublic : bytes;
  supportedVersion : Z;
  revoked : bool;
  revokedUs : bool;
  lastDHPrivate : bytes;
  currentDHPrivate : bytes;
  theirLastDHPublic : bytes;
  theirCurrentDHPublic : bytes
}.

Definition set_kxsBytes (v : option bytes) (k : Contact) : Contact :=
  mkContact (contactId k) (contactName k) (isPending k) v (groupKey k) (myGroupKey k) (previousTags k) (contactGeneration k) (theirServer k) (theirPub k) (theirIdentityPublic k) (supportedVersion k) (revoked k) (revokedUs k) (lastDHPrivate k) (currentDHPrivate k) (theirLastDHPublic k) (theirCurrentDHPublic k).

Definition set_groupKey (v : MemberKey) (k : Contact) : Contact :=
  mkContact (contactId k) (contactName k) (isPending k) (kxsBytes k) v (myGroupKey k) (previousTags k) (contactGeneration k) (theirServer k) (theirPub k) (theirIdentityPublic k) (supportedVersion k) (revoked k) (revokedUs k) (lastDHPrivate k) (currentDHPrivate k) (theirLastDHPublic k) (theirCurrentDHPublic k).

Definition set_myGroupKey (v : option MemberKey) (k : Contact) : Contact :=
  mkContact (contactId k) (contactName k) (isPending k) (kxsBytes k) (groupKey k) v (previousTags k) (contactGeneration k) (theirServer k) (theirPub k) (theirIdentityPublic k) (supportedVersion k) (revoked k) (revokedUs k) (lastDHPrivate k) (currentDHPrivate k) (theirLastDHPublic k) (theirCurrentDHPublic k).

Definition set_previousTags (v : list previousTag) (k : Contact) : Contact :=
  mkContact (contactId k) (contactName k) (isPending k) (kxsBytes k) (groupKey k) (myGroupKey k) v (contactGeneration k) (theirServer k) (theirPub k) (theirIdentityPublic k) (supportedVersion k) (revoked k) (revokedUs k) (lastDHPrivate k) (currentDHPrivate k) (theirLastDHPublic k) (theirCurrentDHPublic k).

Definition set_contactGeneration (v : Z) (k : Contact) : Contact :=
  mkContact (contactId k) (contactName k) (isPending k) (kxsBytes k) (groupKey k) (myGroupKey k) (previousTags k) v (theirServer k) (theirPub k) (theirIdentityPublic k) (supportedVersion k) (revoked k) (revokedUs k) (lastDHPrivate k) (currentDHPrivate k) (theirLastDHPublic k) (theirCurrentDHPublic k).

Definition set_supportedVersion (v : Z) (k : Contact) : Contact :=
  mkContact (contactId k) (contactName k) (isPending k) (kxsBytes k) (groupKey k) (myGroupKey k) (previousTags k) (contactGeneration k) (theirServer k) (theirPub k) (theirIdentityPublic k) v (revoked k) (revokedUs k) (lastDHPrivate k) (currentDHPrivate k) (theirLastDHPublic k) (theirCurrentDHPublic k).

Definition set_revoked (v : bool) (k : Contact) : Contact :=
  mkContact (contactId k) (contactName k) (isPending k) (kxsBytes k) (groupKey k) (myGroupKey k) (previousTags k) (contactGeneration k) (theirServer k) (theirPub k) (theirIdentityPublic k) (supportedVersion k) v (revokedUs k) (lastDHPrivate k) (currentDHPrivate k) (theirLastDHPublic k) (theirCurrentDHPublic k).

Definition set_revokedUs (v : bool) (k : Contact) : Contact :=
  mkContact (contactId k) (contactName k) (isPending k) (kxsBytes k) (groupKey k) (myGroupKey k) (previousTags k) (contactGeneration k) (theirServer k) (theirPub k) (theirIdentityPublic k) (supportedVersion k) (revoked k) v (lastDHPrivate k) (currentDHPrivate k) (theirLastDHPublic k) (theirCurrentDHPublic k).

Definition set_lastDHPrivate (v : bytes) (k : Contact) : Contact :=
  mkContact (contactId k) (contactName k) (isPending k) (kxsBytes k) (groupKey k) (myGroupKey k) (previousTags k) (contactGeneration k) (theirServer k) (theirPub k) (theirIdentityPublic k) (supportedVersion k) (revoked k) (revokedUs k) v (currentDHPrivate k) (theirLastDHPublic k) (theirCurrentDHPublic k).

Definition set_currentDHPrivate (v : bytes) (k : Contact) : Contact :=
  mkContact (contactId k) (contactName k) (isPending k) (kxsBytes k) (groupKey k) (myGroupKey k) (previousTags k) (contactGeneration k) (theirServer k) (theirPub k) (theirIdentityPublic k) (supportedVersion k) (revoked k) (revokedUs k) (lastDHPrivate k) v (theirLastDHPublic k) (theirCurrentDHPublic k).

Definition set_theirLastDHPublic (v : bytes) (k : Contact) : Contact :=
  mkContact (contactId k) (contactName k) (isPending k) (kxsBytes k) (groupKey k) (myGroupKey k) (previousTags k) (contactGeneration k) (theirServer k) (theirPub k) (theirIdentityPublic k) (supportedVersion k) (revoked k) (revokedUs k) (lastDHPrivate k) (currentDHPrivate k) v (theirCurrentDHPublic k).

Definition set_theirCurrentDHPublic (v : bytes) (k : Contact) : Contact :=
  mkContact (contactId k) (contactName k) (isPending k) (kxsBytes k) (groupKey k) (myGroupKey k) (previousTags k) (contactGeneration k) (theirServer k) (theirPub k) (theirIdentityPublic k) (supportedVersion k) (revoked k) (revokedUs k) (lastDHPrivate k) (currentDHPrivate k) (theirLastDHPublic k) v.

(** [from = 0] is the home server; [sealed] and [message] may be nil. *)
Record InboxMessage := mkInboxMessage {
  inboxId : Z;
  receivedTime : Z;
  from : Z;
  sealed : option bytes;
  inboxMessage : option Message;
  read : bool
}.

Definition set_sealed (v : option bytes) (im : InboxMessage) : InboxMessage :=
  mkInboxMessage (inboxId im) (receivedTime im) (from im) v (inboxMessage im) (read im).

Definition set_inboxMessage (v : option Message) (im : InboxMessage) : InboxMessage :=
  mkInboxMessage (inboxId im) (receivedTime im) (from im) (sealed im) v (read im).

Definition set_read (v : bool) (im : InboxMessage) : InboxMessage :=
  mkInboxMessage (inboxId im) (receivedTime im) (from im) (sealed im) (inboxMessage im) v.

Record queuedMessage := mkQueuedMessage {
  request : Request;
  qmId : Z;
  qmTo : Z;
  qmServer : string;
  qmMessage : option Message;
  created : Z;
  sent : Z;
  acked : Z;
  qmRevocation : bool
}.

Definition set_request (v : Request) (m : queuedMessage) : queuedMessage :=
  mkQueuedMessage v (qmId m) (qmTo m) (qmServer m) (qmMessage m) (created m) (sent m) (acked m) (qmRevocation m).

Definition set_sent (v : Z) (m : queuedMessage) : queuedMessage :=
  mkQueuedMessage (request m) (qmId m) (qmTo m) (qmServer m) (qmMessage m) (created m) v (acked m) (qmRevocation m).

Definition set_acked (v : Z) (m : queuedMessage) : queuedMessage :=
  mkQueuedMessage (request m) (qmId m) (qmTo m) (qmServer m) (qmMessage m) (created m) (sent m) v (qmRevocation m).

Inductive indicator :=
| indicatorNone | indicatorRed | indicatorYellow | indicatorGreen
| indicatorBlue | indicatorBlack.

(** The second line of a list entry: a formatted time or a fixed text. *)
Inductive subline :=
| SublineTime (t : Z)
| SublineText (s : string).

Record revocationUpdate := mkRevocationUpdate {
  ruId : Z;
  ruKey : option MemberKey;
  ruGeneration : Z
}.

Record messageSendResult := mkMessageSendResult {
  msrId : Z;
  msrRevocation : option SignedRevocation
}.

(** What the client does to the outside, in program order: log lines (by
    their format string), calls into the UI lists, channel sends, the
    scheduling of a save, and each [box.Open] call with the key pair it was
    tried with. *)
Inductive event :=
| LogErrorf (format : string)
| LogPrintf (format : string)
| InboxUIAdd (i : Z) (n : string) (s : subline) (ind : indicator)
| OutboxUIAdd (i : Z) (n : string) (s : subline) (ind : indicator)
| OutboxUISetIndicator (i : Z) (ind : indicator)
| OutboxUISetInsensitive (i : Z)
| ContactsUISetIndicator (i : Z) (ind : indicator)
| ContactsUISetSubline (i : Z) (s : string)
| UpdateWindowTitle
| Save
| UIAction (s : string)
| UISignal
| RevocationUpdateChan (u : revocationUpdate)
| MessageSentChan (r : messageSendResult)
| NewMessageChan (f : option Fetched) (a : option ServerAnnounce)
| BoxOpen (theirPublic ourPrivate : bytes) (ok : bool).

(** [rand] is the field [c.rand]; [randReader] is [rand.Reader] of
    crypto/rand, which belongs to the process and is threaded through the
    client state. *)
Record client := mkClient {
  rand : Reader;
  randReader : Reader;
  generation : Z;
  groupPriv : PrivateKey;
  prevGroupPrivs : list previousGroupPrivateKey;
  contacts : list Contact;
  inbox : list InboxMessage;
  outbox : list queuedMessage;
  queue : list queuedMessage;
  priv : bytes;
  server : string;
  events : list event
}.

Definition set_rand (v : Reader) (c : client) : client :=
  mkClient v (randReader c) (generation c) (groupPriv c) (prevGroupPrivs c) (contacts c) (inbox c) (outbox c) (queue c) (priv c) (server c) (events c).

Definition set_randReader (v : Reader) (c : client) : client :=
  mkClient (rand c) v (generation c) (groupPriv c) (prevGroupPrivs c) (contacts c) (inbox c) (outbox c) (queue c) (priv c) (server c) (events c).

Definition set_generation (v : Z) (c : client) : client :=
  mkClient (rand c) (randReader c) v (groupPriv c) (prevGroupPrivs c) (contacts c) (inbox c) (outbox c) (queue c) (priv c) (server c) (events c).

Definition set_groupPriv (v : PrivateKey) (c : client) : client :=
  mkClient (rand c) (randReader c) (generation c) v (prevGroupPrivs c) (contacts c) (inbox c) (outbox c) (queue c) (priv c) (server c) (events c).

Definition set_prevGroupPrivs (v : list previousGroupPrivateKey) (c : client) : client :=
  mkClient (rand c) (randReader c) (generation c) (groupPriv c) v (contacts c) (inbox c) (outbox c) (queue c) (priv c) (server c) (events c).

Definition set_contacts (v : list Contact) (c : client) : client :=
  mkClient (rand c) (randReader c) (generation c) (groupPriv c) (prevGroupPrivs c) v (inbox c) (outbox c) (queue c) (priv c) (server c) (events c).

Definition set_inbox (v : list InboxMessage) (c : client) : client :=
  mkClient (rand c) (randReader c) (generation c) (groupPriv c) (prevGroupPrivs c) (contacts c) v (outbox c) (queue c) (priv c) (server c) (events c).

Definition set_outbox (v : list queuedMessage) (c : client) : client :=
  mkClient (rand c) (randReader c) (generation c) (groupPriv c) (prevGroupPrivs c) (contacts c) (inbox c) v (queue c) (priv c) (server c) (events c).

Definition set_queue (v : list queuedMessage) (c : client) : client :=
  mkClient (rand c) (randReader c) (generation c) (groupPriv c) (prevGroupPrivs c) (contacts c) (inbox c) (outbox c) v (priv c) (server c) (events c).

Definition set_events (v : list event) (c : client) : client :=
  mkClient (rand c) (randReader c) (generation c) (groupPriv c) (prevGroupPrivs c) (contacts c) (inbox c) (outbox c) (queue c) (priv c) (server c) v.

Definition emit (e : event) (c : client) : client :=
  set_events (events c ++ [e]) c.

(** Modelled from the spec: [c.randBytes] is not among the sources.  §4.1
    lists it as [csprng_fill(buf)], which fills the buffer from the single
    CSPRNG of §5; the model reads [n] bytes from [c.rand] and stops the
    process when the reader fails, as the read of [rand.Reader] in
    [decryptMessageInner] does. *)
Definition randBytes (c : client) (n : nat) : outcome (bytes * client) :=
  match io_ReadFull (rand c) n with
  | Some (b, r) => Ok (b, set_rand r c)
  | None => Panic "randBytes: read from random source failed"
  end.

(** [binary.LittleEndian.Uint64]. *)
Definition Uint64 (b : bytes) : Z :=
  fold_right (fun x acc => Z_of_byte x + 256 * acc)%Z 0%Z (firstn 8 b).

(** Modelled from the spec: [c.randId] is not among the sources.  §3 keys
    contacts and messages by 64-bit ids and §5 draws ids from the CSPRNG:
    eight bytes of [c.rand], little endian. *)
Definition randId (c : client) : outcome (Z * client) :=
  '(b, c) <- randBytes c 8 ;;
  Ok (Uint64 b, c).

(** Modelled from the spec: [c.enqueue] is not among the sources.  §4.4
    describes the queue as a FIFO whose new entries go to the tail. *)
Definition enqueue (c : client) (m : queuedMessage) : client :=
  set_queue (queue c ++ [m]) c.

(** ** [send] *)

Definition send (c : client) (to : Contact) (message : Message)
  : outcome (client * error) :=
  match proto_Marshal_Message message with
  | inl err => Ok (c, Some err)
  | inr messageBytes =>
    if MaxSerializedMessage <? length messageBytes then
      Ok (c, Some "message too large")
    else
      let plaintext := make (MaxSerializedMessage + 4) in
      let plaintext :=
        copy_at plaintext 0 (PutUint32 (Z.of_nat (length messageBytes))) in
      let plaintext := copy_at plaintext 4 messageBytes in
      '(pad, c) <- randBytes c (length plaintext - (4 + length messageBytes)) ;;
      let plaintext := copy_at plaintext (4 + length messageBytes) pad in
      '(innerNonce, c) <- randBytes c 24 ;;
      let sealedLen := nonceLen + length plaintext + box_Overhead in
      (* the two arms of [if to.supportedVersion >= 1]: either an early
         [return err], or the buffer [sealed], the offset at which
         [innerSealed] starts in it, and [dhPrivate] *)
      arm <-
        (if (1 <=? supportedVersion to)%Z then
           match box_GenerateKey (rand c) with
           | (inl err, r) => Ok (set_rand r c, inl err)
           | (inr (public, private), r) =>
             let c := set_rand r c in
             '(outerNonce, c) <- randBytes c 24 ;;
             let sealedLen := sealedLen + ephemeralBlockLen in
             let sealed := make sealedLen in
             let sealed := copy_at sealed 0 outerNonce in
             let sealed :=
               append_at sealed nonceLen
                 (box_Seal public outerNonce (theirCurrentDHPublic to)
                    (lastDHPrivate to)) in
             Ok (c, inr (sealed, ephemeralBlockLen, private))
           end
         else
           Ok (c, inr (make sealedLen, 0, lastDHPrivate to))) ;;
      match arm with
      | (c, inl err) => Ok (c, Some err)
      | (c, inr (sealed, innerOff, dhPrivate)) =>
        let sealed := copy_at sealed innerOff innerNonce in
        let sealed :=
          append_at sealed (innerOff + nonceLen)
            (box_Seal plaintext innerNonce (theirCurrentDHPublic to)
               dhPrivate) in
        let digest := sha256 sealed in
        key <- deref (myGroupKey to) ;;
        match MemberKey_Sign (rand c) key digest with
        | (inl err, r) => Ok (set_rand r c, Some err)
        | (inr groupSig, r) =>
          let c := set_rand r c in
          let request :=
            mkRequest
              (Some (mkDelivery (theirIdentityPublic to) groupSig
                       (Some (contactGeneration to)) sealed))
              false None None None in
          mid <- deref (Id message) ;;
          mtime <- deref (Time message) ;;
          let out :=
            mkQueuedMessage request mid (contactId to) (theirServer to)
              (Some message) mtime 0 0 false in
          let c := enqueue c out in
          let c :=
            if 0 <? length (Body message) then
              emit (OutboxUIAdd mid (contactName to) (SublineTime mtime)
                      indicatorRed) c
            else c in
          let c := set_outbox (outbox c ++ [out]) c in
          Ok (c, None)
        end
      end
  end.

(** ** The contact table

    [c.contacts] is a Go map from id to [*Contact]; the list gives its
    entries in the order a [range] over the map visits them.  A [*Contact]
    argument is the id of an entry of the table; writes through the pointer
    are written back with [updateContact]. *)

Definition lookupContact (cs : list Contact) (i : Z) : option Contact :=
  find (fun k => (contactId k =? i)%Z) cs.

Definition updateContact (cs : list Contact) (k' : Contact) : list Contact :=
  map (fun k => if (contactId k =? contactId k')%Z then k' else k) cs.

(** ** [revoke]

    [now] and [created] are the two readings of [time.Now()]. *)

Definition revoke (c : client) (toId : Z) (now created : Z) : outcome client :=
  to <- deref (lookupContact (contacts c) toId) ;;
  let to := set_revoked true to in
  let c := set_contacts (updateContact (contacts c) to) c in
  let revocation := PrivateKey_GenerateRevocation (groupPriv c) (groupKey to) in
  let groupCopy :=
    Group_Unmarshal (Group_Marshal (PrivateKey_Group (groupPriv c))) in
  let groupPrivCopy :=
    PrivateKey_Unmarshal groupCopy (PrivateKey_Marshal (groupPriv c)) in
  let c :=
    set_prevGroupPrivs
      (prevGroupPrivs c ++ [mkPreviousGroupPrivateKey groupPrivCopy now]) c in
  let c :=
    set_contacts
      (map (fun contact =>
              if (contactId contact =? toId)%Z then contact
              else
                let contact :=
                  set_previousTags
                    (previousTags contact
                       ++ [mkPreviousTag (MemberKey_Tag (groupKey contact)) now])
                    contact in
                set_groupKey
                  (fst (MemberKey_Update (groupKey contact) revocation))
                  contact)
         (contacts c)) c in
  let rev :=
    mkRevocationBody (Revocation_Marshal revocation) (Some (generation c)) in
  let c := set_groupPriv (PrivateKey_GroupUpdate (groupPriv c) revocation) c in
  let c := set_generation (wrap32 (generation c + 1)) c in
  match proto_Marshal_Revocation rev with
  | inl err => Panic err
  | inr revBytes =>
    let signed := ([] ++ revocationSignaturePrefix) ++ revBytes in
    let sig := ed25519_Sign (priv c) signed in
    let signedRev := mkSignedRevocation (Some rev) sig in
    let request := mkRequest None false (Some signedRev) None None in
    '(rid, c) <- randId c ;;
    let out :=
      mkQueuedMessage request rid (contactId to) (theirServer to) None
        created 0 0 true in
    let c := enqueue c out in
    let c :=
      emit (OutboxUIAdd rid "Revocation" (SublineTime created) indicatorRed) c in
    let c := emit (OutboxUISetInsensitive rid) c in
    Ok (set_outbox (outbox c ++ [out]) c)
  end.

(** The generation carried by the signed revocation at the tail of the
    queue, if the tail is a revocation request. *)
Definition enqueuedRevocationGeneration (c : client) : option Z :=
  match rev (queue c) with
  | out :: _ =>
    match Revocation (request out) with
    | Some sr =>
      match SRRevocation sr with
      | Some body => RevGeneration body
      | None => None
      end
    | None => None
    end
  | [] => None
  end.

(** ** Decryption and the ratchet *)

Definition isSome {A} (o : option A) : bool :=
  match o with Some _ => true | None => false end.

(** One call of [box.Open(nil, sealed, nonce, pub, priv)], recorded. *)
Definition tryOpen (c : client) (sealed nonce pub private : bytes)
  : option bytes * client :=
  let r := box_Open sealed nonce pub private in
  (r, emit (BoxOpen pub private (isSome r)) c).

(** "They have clearly received our current DH value. Time to rotate."
    [copy(from.lastDHPrivate[:], from.currentDHPrivate[:])], then
    [io.ReadFull(rand.Reader, from.currentDHPrivate[:])], panicking when the
    read fails. *)
Definition rotate (from : Contact) (c : client) : outcome (Contact * client) :=
  let from := set_lastDHPrivate (currentDHPrivate from) from in
  match io_ReadFull (randReader c) 32 with
  | Some (fresh, r) => Ok (set_currentDHPrivate fresh from, set_randReader r c)
  | None => Panic "ReadFull(rand.Reader) failed"
  end.

Definition decryptMessageInner (c : client) (sealed nonce : bytes)
  (from : Contact) : outcome (option bytes * Contact * client) :=
  let '(r, c) :=
    tryOpen c sealed nonce (theirLastDHPublic from) (lastDHPrivate from) in
  match r with
  | Some plaintext => Ok (Some plaintext, from, c)
  | None =>
    let '(r, c) :=
      tryOpen c sealed nonce (theirCurrentDHPublic from) (lastDHPrivate from) in
    match r with
    | Some plaintext => Ok (Some plaintext, from, c)
    | None =>
      let '(r, c) :=
        tryOpen c sealed nonce (theirLastDHPublic from) (currentDHPrivate from) in
      let '(r, c) :=
        match r with
        | Some plaintext => (Some plaintext, c)
        | None =>
          tryOpen c sealed nonce (theirCurrentDHPublic from)
            (currentDHPrivate from)
        end in
      match r with
      | None => Ok (None, from, c)
      | Some plaintext =>
        '(from, c) <- rotate from c ;;
        Ok (Some plaintext, from, c)
      end
    end
  end.

(** [nonce] is a [*[24]byte], so [len(nonce)] is 24. *)
Definition decryptMessage (c : client) (sealed nonce : bytes) (from : Contact)
  : outcome (option bytes * Contact * client) :=
  '(r, from, c) <- decryptMessageInner c sealed nonce from ;;
  match r with
  | Some plaintext => Ok (Some plaintext, from, c)
  | None =>
    let headerLen := ephemeralBlockLen - 24 in
    if headerLen <? length sealed then
      '(r, from, c) <-
        decryptMessageInner c (firstn headerLen sealed) nonce from ;;
      match r with
      | None => Ok (None, from, c)
      | Some publicBytes =>
        if negb (length publicBytes =? 32) then Ok (None, from, c)
        else
          let sealed := skipn headerLen sealed in
          let innerNonce := copy_at (make nonceLen) 0 sealed in
          if length sealed <? nonceLen then
            Panic "slice bounds out of range"
          else
            let sealed := skipn nonceLen sealed in
            let ephemeralPublicKey := copy_at (make 32) 0 publicBytes in
            let '(r, c) :=
              tryOpen c sealed innerNonce ephemeralPublicKey
                (lastDHPrivate from) in
            match r with
            | Some plaintext => Ok (Some plaintext, from, c)
            | None =>
              let '(r, c) :=
                tryOpen c sealed innerNonce ephemeralPublicKey
                  (currentDHPrivate from) in
              match r with
              | None => Ok (None, from, c)
              | Some plaintext =>
                '(from, c) <- rotate from c ;;
                Ok (Some plaintext, from, c)
              end
            end
      end
    else Ok (None, from, c)
  end.

(** ** [unsealMessage]

    [inboxMsg] and [from] are pointers in the source: the function returns
    what they point to after the call, whatever its verdict.  [now] is the
    reading of [time.Now()]. *)

(** The loop "Check for duplicate message." *)
Fixpoint isDuplicate (candidates : list InboxMessage) (fromId inboxMsgId : Z)
  (msg : Message) : outcome bool :=
  match candidates with
  | [] => Ok false
  | candidate :: rest =>
    if (from candidate =? fromId)%Z && negb (inboxId candidate =? inboxMsgId)%Z
    then
      match inboxMessage candidate with
      | Some cm =>
        a <- deref (Id cm) ;;
        b <- deref (Id msg) ;;
        if (a =? b)%Z then Ok true
        else isDuplicate rest fromId inboxMsgId msg
      | None => isDuplicate rest fromId inboxMsgId msg
      end
    else isDuplicate rest fromId inboxMsgId msg
  end.

(** The loop over [c.outbox] under [if msg.InReplyTo != nil]. *)
Fixpoint ackOutbox (candidates : list queuedMessage) (i now : Z)
  : list queuedMessage * list event :=
  match candidates with
  | [] => ([], [])
  | candidate :: rest =>
    let '(rest', evs) := ackOutbox rest i now in
    if (qmId candidate =? i)%Z then
      (set_acked now candidate :: rest',
       OutboxUISetIndicator i indicatorGreen :: evs)
    else (candidate :: rest', evs)
  end.

(** The message of the panic that guards [unsealMessage]. *)
Definition pendingPanic : string :=
  "was asked to unseal message from pending contact".

Definition sealedBytes (im : InboxMessage) : bytes :=
  match sealed im with Some s => s | None => [] end.

Definition unsealMessage (c : client) (inboxMsg : InboxMessage)
  (from : Contact) (now : Z)
  : outcome (bool * InboxMessage * Contact * client) :=
  if isPending from then Panic pendingPanic
  else
    let sealed := sealedBytes inboxMsg in
    let nonce := copy_at (make 24) 0 sealed in
    if length sealed <? 24 then Panic "slice bounds out of range"
    else
      let sealed := skipn 24 sealed in
      '(r, from, c) <- decryptMessage c sealed nonce from ;;
      match r with
      | None =>
        Ok (false, inboxMsg, from,
            emit (LogErrorf "Failed to decrypt message from %s") c)
      | Some plaintext =>
        if length plaintext <? 4 then
          Ok (false, inboxMsg, from,
              emit (LogErrorf "Plaintext too small to process from %s") c)
        else
          let mLen := Uint32 (firstn 4 plaintext) in
          let plaintext := skipn 4 plaintext in
          if (mLen <? 0)%Z || (Z.of_nat (length plaintext) <? mLen)%Z then
            Ok (false, inboxMsg, from,
                emit (LogErrorf "Plaintext length incorrect from %s: %d") c)
          else
            let plaintext := firstn (Z.to_nat mLen) plaintext in
            match proto_Unmarshal_Message plaintext with
            | inl err =>
              Ok (false, inboxMsg, from,
                  emit (LogErrorf "Failed to parse mesage from %s: %s") c)
            | inr msg =>
              (* len(from.theirCurrentDHPublic) is 32, the array length *)
              if negb (length (MyNextDh msg) =? 32) then
                Ok (false, inboxMsg, from,
                    emit (LogErrorf "Message from %s with bad DH length %d") c)
              else
                dup <- isDuplicate (inbox c) (contactId from)
                         (inboxId inboxMsg) msg ;;
                if dup then
                  Ok (false, inboxMsg, from,
                      emit (LogPrintf "Dropping duplicate message from %s") c)
                else
                  let from :=
                    if negb (bytes_eqb (theirCurrentDHPublic from)
                               (MyNextDh msg))
                    then
                      set_theirCurrentDHPublic (MyNextDh msg)
                        (set_theirLastDHPublic (theirCurrentDHPublic from)
                           from)
                    else from in
                  let c :=
                    match InReplyTo msg with
                    | Some i =>
                      let '(outbox', evs) := ackOutbox (outbox c) i now in
                      set_events (events c ++ evs) (set_outbox outbox' c)
                    | None => c
                    end in
                  let from :=
                    match SupportedVersion msg with
                    | Some v => set_supportedVersion v from
                    | None => from
                    end in
                  let from := set_kxsBytes None from in
                  let inboxMsg :=
                    set_read false
                      (set_sealed None
                         (set_inboxMessage (Some msg) inboxMsg)) in
                  Ok (true, inboxMsg, from, c)
            end
      end.

(** ** [processFetch] *)

(** The scan of [c.prevGroupPrivs]: whether some retained key verifies. *)
Fixpoint verifiedByPrevious (prevs : list previousGroupPrivateKey)
  (digest sig : bytes) : outcome bool :=
  match prevs with
  | [] => Ok false
  | prev :: rest =>
    k <- deref (prevPriv prev) ;;
    if PrivateKey_Verify k digest sig then Ok true
    else verifiedByPrevious rest digest sig
  end.

(** The first part of [processFetch]: [None] when no key verifies (the
    message is dropped), otherwise the pair [tag, ok] that [Open] gave. *)
Definition openTag (c : client) (digest sig : bytes)
  : outcome (option (bytes * bool)) :=
  if PrivateKey_Verify (groupPriv c) digest sig then
    Ok (Some (PrivateKey_Open (groupPriv c) sig))
  else
    found <- verifiedByPrevious (prevGroupPrivs c) digest sig ;;
    if found then Ok (Some (PrivateKey_Open (groupPriv c) sig))
    else Ok None.

(** The loop labelled [NextCandidate]: the first contact, in the order of
    the range, whose current tag or one of whose previous tags is [t]. *)
Definition matchesTag (t : bytes) (candidate : Contact) : bool :=
  bytes_eqb t (MemberKey_Tag (groupKey candidate))
  || existsb (fun prevTag => bytes_eqb t (tag prevTag)) (previousTags candidate).

Definition findSender (cs : list Contact) (t : bytes) : option Contact :=
  find (matchesTag t) cs.

(** The part of [processFetch] that follows the opening of the group
    signature, for the tag [t] that [Open] returned. *)
Definition deliverFetched (c : client) (f : Fetched) (now : Z) (t : bytes)
  : outcome client :=
  match findSender (contacts c) t with
  | None =>
    Ok (emit (LogErrorf "Message from unknown contact. Dropping. Tag: %x") c)
  | Some from =>
    if revoked from then
      Ok (emit (LogErrorf "Message from revoked contact %s. Dropping") c)
    else if length (FetchedMessage f) <? box_Overhead + 24 then
      Ok (emit (LogErrorf "Message too small to process from %s") c)
    else
      '(i, c) <- randId c ;;
      let inboxMsg :=
        mkInboxMessage i now (contactId from) (Some (FetchedMessage f))
          None false in
      if negb (isPending from) then
        '(ok, inboxMsg, from, c) <- unsealMessage c inboxMsg from now ;;
        let c := set_contacts (updateContact (contacts c) from) c in
        if negb ok then Ok c
        else
          msg <- deref (inboxMessage inboxMsg) ;;
          c <- (if 0 <? length (Body msg) then
                  t <- deref (Time msg) ;;
                  Ok (emit (InboxUIAdd (inboxId inboxMsg)
                              (contactName from) (SublineTime t)
                              indicatorBlue) c)
                else Ok c) ;;
          let c := set_inbox (inbox c ++ [inboxMsg]) c in
          Ok (emit Save (emit UpdateWindowTitle c))
      else
        let c :=
          emit (InboxUIAdd (inboxId inboxMsg) (contactName from)
                  (SublineText "pending") indicatorRed) c in
        let c := set_inbox (inbox c ++ [inboxMsg]) c in
        Ok (emit Save (emit UpdateWindowTitle c))
  end.

Definition processFetch (c : client) (f : Fetched) (now : Z) : outcome client :=
  let digest := sha256 (FetchedMessage f) in
  opened <- openTag c digest (FetchedSignature f) ;;
  match opened with
  | None =>
    Ok (emit (LogErrorf "Received message with bad group signature!") c)
  | Some (t, ok) =>
    if negb ok then Ok (emit (LogErrorf "Failed to open group signature") c)
    else deliverFetched c f now t
  end.

(** ** [processMessageSent] *)

(** The loop that marks the queued messages to a contact that has revoked
    us as undeliverable, building [newQueue]. *)
Fixpoint dropQueued (q : list queuedMessage) (toId : Z)
  : list queuedMessage * list event :=
  match q with
  | [] => ([], [])
  | m :: rest =>
    let '(newQueue, evs) := dropQueued rest toId in
    if (qmTo m =? toId)%Z then
      (newQueue, OutboxUISetIndicator (qmId m) indicatorBlack :: evs)
    else (m :: newQueue, evs)
  end.

(** [msg.sent = time.Now()] through the pointer found in [c.outbox]. *)
Fixpoint markSent (ob : list queuedMessage) (i now : Z) : list queuedMessage :=
  match ob with
  | [] => []
  | m :: rest =>
    if (qmId m =? i)%Z then set_sent now m :: rest
    else m :: markSent rest i now
  end.

Definition processMessageSent (c : client) (msr : messageSendResult) (now : Z)
  : outcome client :=
  let msg := find (fun m => (qmId m =? msrId msr)%Z) (outbox c) in
  match msrRevocation msr with
  | Some revocation =>
    (* We tried to deliver a message to a user but the server told us that
       there's a pending revocation. *)
    msg <- deref msg ;;
    let to := lookupContact (contacts c) (qmTo msg) in
    body <- deref (SRRevocation revocation) ;;
    gen <- deref (RevGeneration body) ;;
    to <- deref to ;;
    if negb (gen =? contactGeneration to)%Z then
      Ok (emit (LogPrintf "Message to '%s' resulted in revocation for generation %d, but current generation is %d") c)
    else
      (* Check the signature on the revocation. *)
      match proto_Marshal_Revocation body with
      | inl err =>
        Ok (emit (LogPrintf "Failed to marshal revocation message: %s") c)
      | inr revBytes =>
        let revSig := SRSignature revocation in
        let sig := copy_at (make ed25519_SignatureSize) 0 revSig in
        if negb (copy_count ed25519_SignatureSize revSig
                 =? ed25519_SignatureSize) then
          Ok (emit (LogPrintf "Bad signature length on revocation (%d bytes) from %s") c)
        else
          let signed := ([] ++ revocationSignaturePrefix) ++ revBytes in
          if negb (ed25519_Verify (theirPub to) signed sig) then
            Ok (emit (LogPrintf "Bad signature on revocation from %s") c)
          else
            match Revocation_Unmarshal (RevRevocation body) with
            | None =>
              Ok (emit (LogPrintf "Failed to parse revocation from %s") c)
            | Some rev =>
              let to :=
                set_contactGeneration (wrap32 (contactGeneration to + 1)) to in
              key <- deref (myGroupKey to) ;;
              let '(key, ok) := MemberKey_Update key rev in
              let to := set_myGroupKey (Some key) to in
              let '(to, c) :=
                if negb ok then
                  (* We were revoked. *)
                  let to := set_revokedUs true to in
                  let c := emit (LogPrintf "Revoked by %s") c in
                  let c :=
                    emit (ContactsUISetIndicator (contactId to) indicatorBlack)
                      c in
                  let c :=
                    emit (ContactsUISetSubline (contactId to) "has revoked") c in
                  let '(newQueue, evs) := dropQueued (queue c) (qmTo msg) in
                  (to, set_queue newQueue (set_events (events c ++ evs) c))
                else
                  let key := MemberKey_GroupUpdate key rev in
                  let to := set_myGroupKey (Some key) to in
                  let dupKey :=
                    MemberKey_Unmarshal (MemberKey_Group key)
                      (MemberKey_Marshal key) in
                  (to,
                   emit (RevocationUpdateChan
                           (mkRevocationUpdate (qmTo msg) dupKey
                              (contactGeneration to))) c) in
              let c := set_contacts (updateContact (contacts c) to) c in
              let c := emit (UIAction "uiStateRevocationProcessed") c in
              Ok (emit UISignal c)
            end
      end
  | None =>
    msg <- deref msg ;;
    let c := set_outbox (markSent (outbox c) (qmId msg) now) c in
    let c :=
      if qmRevocation msg then
        emit (OutboxUISetIndicator (qmId msg) indicatorGreen) c
      else emit (OutboxUISetIndicator (qmId msg) indicatorYellow) c in
    Ok (emit Save c)
  end.

(** ** [replyToError]

    [pond.Reply_Status_name] is the generated table of the enum's names; a
    status outside the three the client names carries its number and what
    the table holds for it. *)

Definition itoa (z : Z) : string :=
  DecimalString.NilZero.string_of_int (Z.to_int z).

Definition replyToError (reply : Reply) : error :=
  match Status reply with
  | None => None
  | Some Reply_OK => None
  | Some Reply_GENERATION_REVOKED =>
    Some (String.append "error from server: " "GENERATION_REVOKED")
  | Some Reply_RESUME_PAST_END_OF_FILE =>
    Some (String.append "error from server: " "RESUME_PAST_END_OF_FILE")
  | Some (Reply_other _ (Some msg)) =>
    Some (String.append "error from server: " msg)
  | Some (Reply_other code None) =>
    Some (String.append "unknown error from server: " (itoa code))
  end.

(** ** One network transaction of [transact]

    The body of the worker's loop from the choice of the request to the
    dispatch of the reply, as one step on the client state.  What the
    network did is the argument [net].  The queue mutex is released while
    the worker is on the network; [meanwhile] holds the entries that the
    orchestrator enqueued ([send], [revoke]) in that time. *)

Inductive netResult :=
| DialFailed
| WriteFailed
| ReadFailed
| Replied (reply : Reply).

Definition isGenerationRevoked (st : Reply_Status) : bool :=
  match st with Reply_GENERATION_REVOKED => true | _ => false end.

(** [c.queue = c.queue[:len(c.queue)-1]]. *)
Definition dropTail (q : list queuedMessage) : outcome (list queuedMessage) :=
  match q with
  | [] => Panic "slice bounds out of range"
  | _ => Ok (removelast q)
  end.

Definition transaction (c : client) (net : netResult)
  (meanwhile : list queuedMessage) : outcome client :=
  let '(head, req, srv, useAnonymousIdentity, isFetch, c) :=
    match queue c with
    | [] =>
      (None, mkRequest None true None None None, server c, false, true,
       emit (LogPrintf "Starting fetch from home server") c)
    | head :: rest =>
      (* We move the head to the back of the queue so that we don't get
         stuck trying to send the same message over and over. *)
      (Some head, request head, qmServer head, negb (qmRevocation head), false,
       emit (LogPrintf "Starting message transmission to %s")
         (set_queue (rest ++ [head]) c))
    end in
  let c := set_queue (queue c ++ meanwhile) c in
  match net with
  | DialFailed => Ok (emit (LogPrintf "Failed to connect to %s: %s") c)
  | WriteFailed => Ok (emit (LogPrintf "Failed to send to %s: %s") c)
  | ReadFailed => Ok (emit (LogPrintf "Failed to read from %s: %s") c)
  | Replied reply =>
    c <-
      match Status reply with
      | None =>
        if isFetch
           && (isSome (ReplyFetched reply) || isSome (ReplyAnnounce reply))
        then
          Ok (emit (NewMessageChan (ReplyFetched reply) (ReplyAnnounce reply)) c)
        else if negb isFetch then
          q <- dropTail (queue c) ;;
          let c := set_queue q c in
          h <- deref head ;;
          Ok (emit (MessageSentChan (mkMessageSendResult (qmId h) None)) c)
        else Ok c
      | Some st =>
        if negb isFetch && isGenerationRevoked st
           && isSome (ReplyRevocation reply)
        then
          h <- deref head ;;
          Ok (emit (MessageSentChan
                      (mkMessageSendResult (qmId h) (ReplyRevocation reply))) c)
        else Ok c
      end ;;
    match replyToError reply with
    | Some err => Ok (emit (LogErrorf "Error from server %s: %s") c)
    | None => Ok c
    end
  end.

End Client.

(** ** Detachment transfer

    [transferDetachment] talks to the network, the local file and the
    clock.  What they do is given as a script: one [attempt] per pass of
    the outer loop, holding one [chunkEvent] per pass of the copy loop.  A
    script that ends while the function is still looping leaves the
    transfer [Running]. *)

Module Transfer.

(** [int64] arithmetic. *)
Definition wrapInt64 (z : Z) : Z := ((z + 2 ^ 63) mod 2 ^ 64 - 2 ^ 63)%Z.

(** The error a transfer returns: the sentinel [backgroundCanceledError] or
    an error with a message (format strings stand for formatted text). *)
Inductive transferError :=
| backgroundCanceledError
| TransferErr (msg : string).

Record DetachmentProgress := mkProgress {
  dpId : Z;
  done : Z;
  dpTotal : Z;
  status : string
}.

(** The variables of [transferDetachment] that live across attempts, the
    status updates offered on [out] and the log. *)
Record state := mkState {
  transferred : Z;
  total : Z;
  backoff : Z;                         (* seconds *)
  offered : list DetachmentProgress;
  logged : list string
}.

Definition set_transferred (v : Z) (st : state) : state :=
  mkState v (total st) (backoff st) (offered st) (logged st).
Definition set_total (v : Z) (st : state) : state :=
  mkState (transferred st) v (backoff st) (offered st) (logged st).
Definition set_backoff (v : Z) (st : state) : state :=
  mkState (transferred st) (total st) v (offered st) (logged st).
Definition log (s : string) (st : state) : state :=
  mkState (transferred st) (total st) (backoff st) (offered st)
    (logged st ++ [s]).

(** The closure [sendStatus]: [done] and [total] are converted to uint64. *)
Definition sendStatus (id : Z) (s : string) (st : state) : state :=
  mkState (transferred st) (total st) (backoff st)
    (offered st
       ++ [mkProgress id (wrap64 (transferred st)) (wrap64 (total st)) s])
    (logged st).

Definition initialBackoff : Z := 10.
Definition maxBackoff : Z := 5 * 60.

Definition initialState : state := mkState 0 0 initialBackoff [] [].

(** What [ProcessReply] returns, without the file handle. *)
Record processed := mkProcessed {
  isUpload : bool;
  newTotal : Z;
  isComplete : bool;
  err : option string
}.

(** The interface [detachmentTransfer].  [ProcessReply] gets the result
    [(pos, failed)] that a [Seek] on the local file would give, [Complete]
    the byte that [io.ReadFull(conn, buf)] read, if it read one. *)
Class detachmentTransfer (T : Type) := {
  TransferRequest : T -> Request;
  ProcessReply : T -> Reply -> Z * bool -> outcome processed;
  Complete : T -> option byte -> bool
}.

Record uploadTransfer := mkUploadTransfer { utId : Z; utTotal : Z }.

Definition resumeOffset (reply : Reply) : Z :=
  match ReplyUpload reply with
  | Some u => match Resume u with Some r => r | None => 0%Z end
  | None => 0%Z
  end.

Definition uploadProcessReply (ut : uploadTransfer) (reply : Reply)
  (seek : Z * bool) : outcome processed :=
  let offset := resumeOffset reply in
  if (offset =? utTotal ut)%Z then Ok (mkProcessed false 0 true None)
  else
    let '(pos, failed) := seek in
    if failed || negb (pos =? offset)%Z then
      Ok (mkProcessed false 0 false
            (Some "failed to seek in temp file: %d %d %s"))
    else Ok (mkProcessed true (wrapInt64 (utTotal ut - offset)) false None).

#[export] Instance upload_is_transfer : detachmentTransfer uploadTransfer := {
  TransferRequest ut :=
    mkRequest None false None
      (Some (mkUpload (Some (utId ut)) (Some (utTotal ut)))) None;
  ProcessReply := uploadProcessReply;
  (* The server will send us a zero byte if it got everything. *)
  Complete _ trailer :=
    match trailer with
    | Some b => if Byte.byte_eq_dec b x00 then true else false
    | None => false
    end
}.

Record downloadTransfer := mkDownloadTransfer {
  fileID : Z;
  resume : Z;
  dtFrom : bytes
}.

Definition downloadProcessReply (dt : downloadTransfer) (reply : Reply)
  (seek : Z * bool) : outcome processed :=
  match ReplyDownload reply with
  | None =>
    Ok (mkProcessed false 0 false
          (Some "Reply from server didn't include a download section"))
  | Some d =>
    size <- deref (Size d) ;;
    if (size <? resume dt)%Z then
      Ok (mkProcessed false 0 false
            (Some "Reply from server suggested that the file was truncated"))
    else Ok (mkProcessed false (wrapInt64 (size - resume dt)) false None)
  end.

#[export] Instance download_is_transfer : detachmentTransfer downloadTransfer := {
  TransferRequest dt :=
    mkRequest None false None None
      (Some (mkDownload (dtFrom dt) (Some (fileID dt))
               (if (0 <? resume dt)%Z then Some (resume dt) else None)));
  ProcessReply := downloadProcessReply;
  Complete _ _ := true
}.

(** One pass of the copy loop: the kill channel is ready; or [in.Read]
    reports EOF, an error, or [n] bytes, which [out.Write] then fails to
    write or writes ([written] is the count it returns, [now] the reading
    of the clock in milliseconds after it). *)
Inductive writeResult :=
| WriteError
| Written (written : Z) (now : Z).

Inductive chunkEvent :=
| Kill
| ReadEOF
| ReadError
| ReadOK (n : Z) (w : writeResult).

Inductive streamResult :=
| StreamReturn (st : state) (e : transferError)
| StreamBreak (st : state)
| StreamPending (st : state).

Definition tooMuch : string := "transferred more than the expected amount".

Fixpoint stream (upload : bool) (id : Z) (evs : list chunkEvent)
  (lastUpdate : option Z) (st : state) : streamResult :=
  match evs with
  | [] => StreamPending st
  | Kill :: _ => StreamReturn st backgroundCanceledError
  | ReadEOF :: _ => StreamBreak st
  | ReadError :: rest =>
    if upload then
      StreamReturn (log "failed to read during transfer: %s" st)
        (TransferErr "failed to read during transfer: %s")
    else
      (* Read errors from the network are transient. *)
      stream upload id rest lastUpdate st
  | ReadOK n WriteError :: rest =>
    if negb upload then
      StreamReturn (log "failed to write during download: %s" st)
        (TransferErr "failed to write during download: %s")
    else
      (* Write errors to the network are transient. *)
      stream upload id rest lastUpdate st
  | ReadOK n (Written written now) :: rest =>
    let st := set_transferred (wrapInt64 (transferred st + written)) st in
    if (total st <? transferred st)%Z then
      StreamReturn (log tooMuch st) (TransferErr tooMuch)
    else
      let due :=
        match lastUpdate with
        | None => true
        | Some l => (500 <? now - l)%Z
        end in
      if due then stream upload id rest (Some now) (sendStatus id "" st)
      else stream upload id rest lastUpdate st
  end.

(** One pass of the outer loop.  [DialFails killed]: the dial failed and
    the wait ended by the timer ([killed = false]) or the kill channel. *)
Inductive attempt :=
| DialFails (killed : bool)
| WriteFails
| ReadFails
| Exchange (reply : Reply) (seek : Z * bool) (chunks : list chunkEvent)
    (trailer : option byte).

(** What one pass of the outer loop ends in: [continue] ([Again]), a
    [return], or the script running out inside the copy loop. *)
Inductive attemptResult :=
| Again (st : state)
| Done (st : state) (e : option transferError)
| Pending (st : state)
| Crash (msg : string).

Definition isResumePastEnd (reply : Reply) : bool :=
  match Status reply with
  | Some Reply_RESUME_PAST_END_OF_FILE => true
  | _ => false
  end.

Definition attemptOnce {T} `{detachmentTransfer T} (transfer : T) (id : Z)
  (a : attempt) (st : state) : attemptResult :=
  let st := sendStatus id "Connecting" st in
  match a with
  | DialFails killed =>
    let st := log "Failed to connect to %s: %s" st in
    let st := sendStatus id "Waiting to reconnect" st in
    if killed then Done st (Some backgroundCanceledError)
    else
      let b := (backoff st * 2)%Z in
      let b := if (maxBackoff <? b)%Z then maxBackoff else b in
      Again (set_backoff b st)
  | WriteFails =>
    let st := set_backoff initialBackoff st in
    let st := sendStatus id "Requesting transfer" st in
    Again (log "Failed to write request to %s: %s" st)
  | ReadFails =>
    let st := set_backoff initialBackoff st in
    let st := sendStatus id "Requesting transfer" st in
    Again (log "Failed to read reply from %s: %s" st)
  | Exchange reply seek chunks trailer =>
    let st := set_backoff initialBackoff st in
    let st := sendStatus id "Requesting transfer" st in
    if isResumePastEnd reply then Done st None
    else
      match replyToError reply with
      | Some e => Done (log "Request failed: %s" st) (Some (TransferErr e))
      | None =>
        match ProcessReply transfer reply seek with
        | Panic msg => Crash msg
        | Ok p =>
          let st := set_total (newTotal p) st in
          match err p with
          | Some e => Done (log "Request failed: %s" st) (Some (TransferErr e))
          | None =>
            if isComplete p then Done st None
            else
              match stream (isUpload p) id chunks None st with
              | StreamReturn st e => Done st (Some e)
              | StreamPending st => Pending st
              | StreamBreak st =>
                if (transferred st <? total st)%Z then Again st
                else if Complete transfer trailer then Done st None
                else Again st
              end
          end
        end
      end
  end.

Inductive result :=
| Returned (st : state) (e : option transferError)
| Running (st : state)
| Crashed (msg : string).

(** The outer [for] loop over the script. *)
Fixpoint transferLoop {T} `{detachmentTransfer T} (transfer : T) (id : Z)
  (attempts : list attempt) (st : state) : result :=
  match attempts with
  | [] => Running st
  | a :: rest =>
    match attemptOnce transfer id a st with
    | Again st => transferLoop transfer id rest st
    | Done st e => Returned st e
    | Pending st => Running st
    | Crash msg => Crashed msg
    end
  end.

Definition transferDetachment {T} `{detachmentTransfer T} (transfer : T)
  (id : Z) (attempts : list attempt) : result :=
  transferLoop transfer id attempts initialState.

(** *** Vocabulary for scripts *)

(** A pass of the copy loop in which the chunk that was read is written in
    full: [n] bytes, at most the 16 KiB of the buffer. *)
Definition wholeChunk (e : chunkEvent) : Prop :=
  match e with
  | ReadOK n (Written w _) => w = n /\ (0 <= n <= 16 * 1024)%Z
  | _ => False
  end.

(** The number of bytes written in the passes of a script. *)
Fixpoint moved (evs : list chunkEvent) : Z :=
  match evs with
  | [] => 0
  | ReadOK _ (Written w _) :: rest => w + moved rest
  | _ :: rest => moved rest
  end.

(** A reply without status that tells an upload to resume at [r]. *)
Definition resumeAt (r : Z) : Reply :=
  mkReply None None None (Some (mkUploadReply (Some r))) None None.

(** An upload of 100 bytes.  In its first attempt all 100 bytes are
    written, the file is at its end, and the connection is lost before the
    trailer byte arrives. *)
Definition hundred : uploadTransfer := mkUploadTransfer 1 100.

Definition allBytesThenLost : attempt :=
  Exchange (mkReply None None None None None None) (0%Z, false)
    [ReadOK 100 (Written 100 0); ReadEOF] None.

Definition afterAllBytes : state :=
  match attemptOnce hundred 1 allBytesThenLost initialState with
  | Again st => st
  | _ => initialState
  end.

(** The same upload losing its connection after 50 bytes; the server then
    asks to resume at 50, and the remaining 50 bytes are read and written
    in one chunk. *)
Definition halfThenLost : attempt :=
  Exchange (mkReply None None None None None None) (0%Z, false)
    [ReadOK 50 (Written 50 0); ReadOK 50 WriteError; ReadEOF] None.

Definition afterHalf : state :=
  match attemptOnce hundred 1 halfThenLost initialState with
  | Again st => st
  | _ => initialState
  end.

Definition resumeAtHalf : attempt :=
  Exchange (resumeAt 50) (50%Z, false)
    ([ReadOK 50 (Written 50 1000)] ++ [ReadEOF]) (Some x00).

(** The wait between two dials is within its bounds. *)
Definition backoffInRange (st : state) : Prop :=
  (initialBackoff <= backoff st <= maxBackoff)%Z.

(** Whether the kill channel fires in the script of an attempt. *)
Definition isKill (e : chunkEvent) : bool :=
  match e with Kill => true | _ => false end.

Definition killed (a : attempt) : bool :=
  match a with
  | DialFails k => k
  | Exchange _ _ chunks _ => existsb isKill chunks
  | _ => false
  end.

(** A download of a file of 100 bytes into an empty local file.  The
    first connection ends after 40 bytes; on the second the server sends
    the 100 bytes again, in one chunk. *)
Definition wanted : downloadTransfer := mkDownloadTransfer 2 0 (repeat x01 32).

Definition sizeIs (n : Z) : Reply :=
  mkReply None None None None (Some (mkDownloadReply (Some n))) None.

Definition fortyThenLost : attempt :=
  Exchange (sizeIs 100) (0%Z, false) [ReadOK 40 (Written 40 0); ReadEOF] None.

Definition afterForty : state :=
  match attemptOnce wanted 2 fortyThenLost initialState with
  | Again st => st
  | _ => initialState
  end.

(** An upload that goes through in one attempt: two chunks, the end of
    the file, and the zero byte of the server. *)
Definition inOneGo : attempt :=
  Exchange (mkReply None None None None None None) (0%Z, false)
    ([ReadOK 60 (Written 60 0); ReadOK 40 (Written 40 700)] ++ [ReadEOF])
    (Some x00).

End Transfer.

(** ** Vocabulary of the send path *)

Section SendVocabulary.

Context `{P : Primitives}.

(** The external operations [send] relies on report no error: the random
    source can always be read, key generation and group signing succeed. *)
Definition collaborators_succeed : Prop :=
  (forall r n, io_ReadFull r n <> None)
  /\ (forall r, exists keys r', box_GenerateKey r = (inr keys, r'))
  /\ (forall r k d, exists s r', MemberKey_Sign r k d = (inr s, r')).

(** The length of the sealed buffer that [send] builds for a peer. *)
Definition sealedLength (to : Contact) : nat :=
  if (1 <=? supportedVersion to)%Z then
    24 + 32 + 16 + 24 + 4 + MaxSerializedMessage + 16
  else 24 + 4 + MaxSerializedMessage + 16.

End SendVocabulary.

(** ** The ladder of §4.2 in the words of the specification *)

Section Ladder.

Context `{P : Primitives}.

(** The four pairings of their public and our private values, in the order
    in which unsealing is to try them: last x last, current x last,
    last x current, current x current.  The flag tells whether the private
    half is [currentDHPrivate]. *)
Definition combinations (from : Contact) : list (bytes * bytes * bool) :=
  [ (theirLastDHPublic from, lastDHPrivate from, false);
    (theirCurrentDHPublic from, lastDHPrivate from, false);
    (theirLastDHPublic from, currentDHPrivate from, true);
    (theirCurrentDHPublic from, currentDHPrivate from, true) ].

(** Trying pairings in order until one opens the box: the attempts made,
    and the plaintext with the flag of the pairing that opened it. *)
Fixpoint ladder (sealed nonce : bytes) (pairs : list (bytes * bytes * bool))
  : list event * option (bytes * bool) :=
  match pairs with
  | [] => ([], None)
  | (pub, private, cur) :: rest =>
    match box_Open sealed nonce pub private with
    | Some plaintext => ([BoxOpen pub private true], Some (plaintext, cur))
    | None =>
      let '(attempts, r) := ladder sealed nonce rest in
      (BoxOpen pub private false :: attempts, r)
    end
  end.

(** The ratchet step: [last_dh_private <- current_dh_private], then
    [current_dh_private <- fresh]. *)
Definition ratchet (fresh : bytes) (from : Contact) : Contact :=
  set_currentDHPrivate fresh (set_lastDHPrivate (currentDHPrivate from) from).

(** What unsealing has to do with the result of the ladder. *)
Definition afterLadder (c : client) (from : Contact)
  (l : list event * option (bytes * bool))
  : outcome (option bytes * Contact * client) :=
  let c1 := set_events (events c ++ fst l) c in
  match snd l with
  | None => Ok (None, from, c1)
  | Some (plaintext, false) => Ok (Some plaintext, from, c1)
  | Some (plaintext, true) =>
    match io_ReadFull (randReader c) 32 with
    | Some (fresh, rd) =>
      Ok (Some plaintext, ratchet fresh from, set_randReader rd c1)
    | None => Panic "ReadFull(rand.Reader) failed"
    end
  end.

End Ladder.

(** ** Frames: what decryption may change *)

Section Frames.

Context `{P : Primitives}.

(** [from'] is [from] except, possibly, for the two private DH values. *)
Definition privatesOnly (from from' : Contact) : Prop :=
  from'
  = set_currentDHPrivate (currentDHPrivate from')
      (set_lastDHPrivate (lastDHPrivate from') from).

(** [c'] is [c] with more events and, possibly, less of [rand.Reader]. *)
Definition grownBy (evs : list event) (c c' : client) : Prop :=
  c' = set_randReader (randReader c') (set_events (events c ++ evs) c).

(** The message body inside a decrypted plaintext: the bytes after the
    four-byte little-endian length, cut to that length. *)
Definition payload (plaintext : bytes) : bytes :=
  firstn (Z.to_nat (Uint32 (firstn 4 plaintext))) (skipn 4 plaintext).

(** The length prefix of a decrypted plaintext is in range. *)
Definition wellFramed (plaintext : bytes) : Prop :=
  4 <= length plaintext
  /\ (Uint32 (firstn 4 plaintext) <= Z.of_nat (length plaintext - 4))%Z.

End Frames.

(** ** Vocabulary of the fetch path *)

Section FetchVocabulary.

Context `{P : Primitives}.

(** Every entry of [prevGroupPrivs] holds a key (its pointer is not nil). *)
Definition retainedKeysPresent (c : client) : Prop :=
  Forall (fun prev => prevPriv prev <> None) (prevGroupPrivs c).

(** The signature verifies under some retained previous group key. *)
Definition verifiesUnderPrevious (c : client) (digest sig : bytes) : Prop :=
  exists prev k,
    In prev (prevGroupPrivs c)
    /\ prevPriv prev = Some k
    /\ PrivateKey_Verify k digest sig = true.

(** The signature verifies under no retained previous group key. *)
Definition verifiesUnderNoPrevious (c : client) (digest sig : bytes) : Prop :=
  forall prev k,
    In prev (prevGroupPrivs c) ->
    prevPriv prev = Some k ->
    PrivateKey_Verify k digest sig = false.

(** The state in which the fetch path leaves a message from a contact that
    is still pending: stored sealed, shown as pending, nothing else
    touched. *)
Definition storedPending (c : client) (f : Fetched) (now i : Z)
  (from : Contact) : client :=
  emit Save
    (emit UpdateWindowTitle
       (set_inbox
          (inbox c
             ++ [mkInboxMessage i now (contactId from)
                   (Some (FetchedMessage f)) None false])
          (emit (InboxUIAdd i (contactName from) (SublineText "pending")
                   indicatorRed) c))).

(** An outcome that is not the panic of the guard of [unsealMessage]. *)
Definition benign {A} (o : outcome A) : Prop := o <> Panic pendingPanic.

End FetchVocabulary.

(** ** [resignQueuedMessages], [processServerAnnounce] *)

Section ClientMore.

Context `{P : Primitives}.

(** The loop of [resignQueuedMessages] over [c.queue], with the reader
    [c.rand] it draws from and the lines it logs.  [Sign] returns no
    signature with an error, so the entry then gets a nil signature. *)
Fixpoint resignLoop (q : list queuedMessage) (revUpdate : revocationUpdate)
  (r : Reader) : outcome (list queuedMessage * Reader * list event) :=
  match q with
  | [] => Ok ([], r, [])
  | m :: rest =>
    if negb (qmTo m =? ruId revUpdate)%Z then
      '(rest', r, evs) <- resignLoop rest revUpdate r ;;
      Ok (m :: rest', r, evs)
    else
      d <- deref (Deliver (request m)) ;;
      let digest := sha256 (DeliveryMessage d) in
      key <- deref (ruKey revUpdate) ;;
      let '(res, r) := MemberKey_Sign r key digest in
      let '(groupSig, logged) :=
        match res with
        | inr sig => (sig, [])
        | inl _ =>
          ([], [LogPrintf "Error while resigning after revocation: %s"])
        end in
      let m :=
        set_request
          (mkRequest
             (Some (mkDelivery (To d) groupSig (Some (ruGeneration revUpdate))
                      (DeliveryMessage d)))
             (Fetch (request m)) (Revocation (request m))
             (ReqUpload (request m)) (ReqDownload (request m)))
          m in
      '(rest', r, evs) <- resignLoop rest revUpdate r ;;
      Ok (m :: rest', r, logged ++ evs)
  end.

Definition resignQueuedMessages (c : client) (revUpdate : revocationUpdate)
  : outcome client :=
  '(q, r, evs) <- resignLoop (queue c) revUpdate (rand c) ;;
  Ok (set_events (events c ++ evs) (set_rand r (set_queue q c))).

(** [m.announce] of the [NewMessage] is the argument [announce]. *)
Definition processServerAnnounce (c : client)
  (announce : option ServerAnnounce) (now : Z) : outcome client :=
  '(i, c) <- randId c ;;
  a <- deref announce ;;
  let inboxMsg := mkInboxMessage i now 0 None (AnnounceMessage a) false in
  msg <- deref (inboxMessage inboxMsg) ;;
  t <- deref (Time msg) ;;
  let c :=
    emit (InboxUIAdd (inboxId inboxMsg) "Home Server" (SublineTime t)
            indicatorBlue) c in
  let c := set_inbox (inbox c ++ [inboxMsg]) c in
  Ok (emit Save (emit UpdateWindowTitle c)).

End ClientMore.

(** ** [decodeBase32], [parseServer]

    [url.Parse] and [base32.StdEncoding.DecodeString] are the variables of
    the section; of a parsed URL the code reads the scheme, the user name
    if there is user information, and the host. *)

Record URL := mkURL {
  Scheme : string;
  User : option string;
  Host : string
}.

Definition chars (s : string) : list Ascii.ascii := String.list_ascii_of_string s.

(** [strings.ContainsRune(s, r)] for a rune below 128. *)
Definition ContainsRune (s : string) (r : Ascii.ascii) : bool :=
  existsb (Ascii.eqb r) (chars s).

Definition colon : Ascii.ascii := Ascii.ascii_of_nat 58.

Fixpoint isPrefix (p l : list Ascii.ascii) : bool :=
  match p, l with
  | [], _ => true
  | a :: p', b :: l' => Ascii.eqb a b && isPrefix p' l'
  | _ :: _, [] => false
  end.

(** [strings.HasSuffix(s, suffix)]. *)
Definition HasSuffix (s suffix : string) : bool :=
  isPrefix (rev (chars suffix)) (rev (chars s)).

(** The loop [for len(s)%8 != 0 { s += "=" }]; every pass makes the string
    one character longer, and [fuel] bounds the number of passes. *)
Fixpoint padLoop (fuel : nat) (s : string) : option string :=
  match fuel with
  | 0 => None
  | S fuel' =>
    if negb (String.length s mod 8 =? 0) then
      padLoop fuel' (String.append s "=")
    else Some s
  end.

Section ServerURL.

Variable url_Parse : string -> string + URL.
Variable base32_DecodeString : string -> string + bytes.

(** Eight passes are enough (see [padLoop_enough]); the remaining case
    stands for a loop that does not end. *)
Definition decodeBase32 (s : string) : option (string + bytes) :=
  match padLoop 8 s with
  | Some padded => Some (base32_DecodeString padded)
  | None => None
  end.

(** The three named results of [parseServer]. *)
Record parsedServer := mkParsedServer {
  serverIdentity : option bytes;
  host : string;
  parseErr : error
}.

Definition parseServer (server : string) (testing : bool)
  : option parsedServer :=
  match url_Parse server with
  | inl e => Some (mkParsedServer None "" (Some e))
  | inr url =>
    if negb (String.eqb (Scheme url) "pondserver") then
      Some (mkParsedServer None ""
              (Some "bad URL scheme, should be pondserver"))
    else
      match User url with
      | None => Some (mkParsedServer None "" (Some "no server ID in URL"))
      | Some username =>
        if String.length username =? 0 then
          Some (mkParsedServer None "" (Some "no server ID in URL"))
        else
          match decodeBase32 username with
          | None => None
          | Some (inl e) => Some (mkParsedServer None "" (Some e))
          | Some (inr serverIdSlice) =>
            if negb (length serverIdSlice =? 32) then
              Some (mkParsedServer None "" (Some "bad server ID length"))
            else
              let host := Host url in
              if negb testing && ContainsRune host colon then
                Some (mkParsedServer None host
                        (Some "URL contains a port number"))
              else if negb testing
                      && (negb (HasSuffix host ".onion")
                          && negb (String.eqb host "localhost")) then
                Some (mkParsedServer None host
                        (Some "host is neither a .onion address nor localhost"))
              else
                let host :=
                  if negb testing then String.append host ":16333"
                  else host in
                Some (mkParsedServer
                        (Some (copy_at (make 32) 0 serverIdSlice)) host None)
          end
      end
  end.

End ServerURL.

(** ** Vocabulary of the round trip between [send] and [unsealMessage] *)

Section RoundTripVocabulary.

Context `{P : Primitives}.

(** What the collaborators promise about lengths: [io.ReadFull] fills the
    buffer, [box.Seal] adds [box.Overhead] bytes, a generated public key
    has 32 bytes. *)
Definition lengthLaws : Prop :=
  (forall r n b r', io_ReadFull r n = Some (b, r') -> length b = n)
  /\ (forall m n pk sk, length (box_Seal m n pk sk) = length m + box_Overhead)
  /\ (forall r pub private r',
         box_GenerateKey r = (inr (pub, private), r') -> length pub = 32).

(** The plaintext [send] seals: the little-endian length of the message,
    the message, padding. *)
Definition framed (messageBytes pad : bytes) : bytes :=
  PutUint32 (Z.of_nat (length messageBytes)) ++ messageBytes ++ pad.

(** A plaintext whose length fits a uint32. *)
Definition short (pt : bytes) : Prop := (Z.of_nat (length pt) < 2 ^ 32)%Z.

(** What [to.theirCurrentDHPublic] and [to.lastDHPrivate] seal at the
    sender, [from.theirLastDHPublic] and [from.lastDHPrivate] open at the
    receiver. *)
Definition opensFor (to from : Contact) : Prop :=
  forall pt n,
    short pt ->
    box_Open
      (box_Seal pt n (theirCurrentDHPublic to) (lastDHPrivate to)) n
      (theirLastDHPublic from) (lastDHPrivate from)
    = Some pt.

(** What is sealed to [to.theirCurrentDHPublic] under a generated private
    key, the matching public key and [from.lastDHPrivate] open. *)
Definition opensEphemeral (to from : Contact) : Prop :=
  forall r pub private r' pt n,
    box_GenerateKey r = (inr (pub, private), r') ->
    short pt ->
    box_Open (box_Seal pt n (theirCurrentDHPublic to) private) n pub
      (lastDHPrivate from)
    = Some pt.

(** A box followed by further bytes does not open, whatever the keys. *)
Definition rejectsTrailing : Prop :=
  forall m n pk sk extra n' pk' sk',
    extra <> [] ->
    box_Open (box_Seal m n pk sk ++ extra) n' pk' sk' = None.

End RoundTripVocabulary.

(** ** Vocabulary of the revocation update *)

Section ResignVocabulary.

Context `{P : Primitives}.

(** The signature that [resignQueuedMessages] writes into an entry: the
    one that [Sign] returned, nil when [Sign] returned an error. *)
Definition signatureOf (res : string + bytes) : bytes :=
  match res with
  | inr sig => sig
  | inl _ => []
  end.

(** The entry [m], whose delivery is [d], signed anew for the update: the
    signature is what [Sign] gives under the key of the update for the
    SHA-256 digest of the sealed message, drawing from [r]; the generation
    is that of the update; recipient and sealed message stay. *)
Definition resignedWith (revUpdate : revocationUpdate) (key : MemberKey)
  (r : Reader) (d : Delivery) (m : queuedMessage) : queuedMessage :=
  set_request
    (mkRequest
       (Some (mkDelivery (To d)
                (signatureOf
                   (fst (MemberKey_Sign r key (sha256 (DeliveryMessage d)))))
                (Some (ruGeneration revUpdate)) (DeliveryMessage d)))
       (Fetch (request m)) (Revocation (request m))
       (ReqUpload (request m)) (ReqDownload (request m)))
    m.

(** [c.rand] when the loop has gone over the entries [pre], started with
    [r]: every entry of [pre] that goes to the contact of the update has
    drawn one signature from it. *)
Fixpoint randAfter (revUpdate : revocationUpdate) (key : MemberKey)
  (r : Reader) (pre : list queuedMessage) : Reader :=
  match pre with
  | [] => r
  | m :: rest =>
    if (qmTo m =? ruId revUpdate)%Z then
      match Deliver (request m) with
      | Some d =>
        randAfter revUpdate key
          (snd (MemberKey_Sign r key (sha256 (DeliveryMessage d)))) rest
      | None => r
      end
    else randAfter revUpdate key r rest
  end.

(** What [resignQueuedMessages] changes of a queued entry: nothing when it
    goes to another contact; when it goes to the contact of the update, the
    entry is signed anew under the key of the update, drawing from the
    random source in the state [r] in which the loop reaches it. *)
Definition resigned (revUpdate : revocationUpdate) (m m' : queuedMessage)
  : Prop :=
  if (qmTo m =? ruId revUpdate)%Z then
    exists d key r,
      Deliver (request m) = Some d
      /\ ruKey revUpdate = Some key
      /\ m' = resignedWith revUpdate key r d m
  else m' = m.

End ResignVocabulary.

(** ** Vocabulary of the server URL *)

(** The padding that [decodeBase32] appends: [k] equals signs. *)
Fixpoint equals (k : nat) : string :=
  match k with
  | 0 => ""
  | S k' => String.append "=" (equals k')
  end.

(** A parser and a decoder to run [parseServer] on: the parser knows one
    address, the decoder gives 32 zero bytes for whatever is padded to a
    multiple of eight characters. *)
Definition knownAddress : string := "pondserver://AAAA@abcdef.onion".

Definition parseKnown (s : string) : string + URL :=
  if String.eqb s knownAddress then
    inr (mkURL "pondserver" (Some "AAAA") "abcdef.onion")
  else inl "parse error".

Definition decodeZeros (s : string) : string + bytes :=
  if String.length s mod 8 =? 0 then inr (repeat x00 32)
  else inl "illegal base32 data".

(** ** [processNewMessage] *)

Section NewMessage.

Context `{P : Primitives}.

(** [m.fetched] and [m.announce] are the two arguments; the deferred send
    on [m.ack] is outside the client state. *)
Definition processNewMessage (c : client) (fetched : option Fetched)
  (announce : option ServerAnnounce) (now : Z) : outcome client :=
  match fetched with
  | Some f => processFetch c f now
  | None => processServerAnnounce c announce now
  end.

End NewMessage.

(** ** The three stages of decryption, in the words of §4.2

    Step 2 is the ladder over the whole text, step 3 the ephemeral path
    (the ladder over the header, then the inner box under the ephemeral
    value with our last and with our current private value), step 4 the
    ratchet step after any box that opened under a pairing whose private
    half is [currentDHPrivate]. *)

Section Stages.

Context `{P : Primitives}.

(** Whether the pairing that opened a box has [currentDHPrivate] as its
    private half. *)
Definition usedCurrent (opened : option (bytes * bool)) : bool :=
  match opened with
  | Some (_, true) => true
  | _ => false
  end.

(** What follows the opening of a box: the ratchet step, with 32 fresh
    bytes of [rand.Reader], exactly when the box opened under a pairing
    whose private half is [currentDHPrivate]; nothing at all otherwise.
    [rd] and [rd'] are [rand.Reader] before and after. *)
Definition stepped (opened : option (bytes * bool)) (rd : Reader)
  (from from' : Contact) (rd' : Reader) : Prop :=
  if usedCurrent opened then
    exists fresh,
      io_ReadFull rd 32 = Some (fresh, rd') /\ from' = ratchet fresh from
  else from' = from /\ rd' = rd.

(** The second stage, over the ephemeral header: it is run when no pairing
    opened the whole text and the text is longer than the header. *)
Definition headerLadder (sealed nonce : bytes) (from : Contact)
  : list event * option (bytes * bool) :=
  match snd (ladder sealed nonce (combinations from)) with
  | Some _ => ([], None)
  | None =>
    if ephemeralBlockLen - 24 <? length sealed then
      ladder (firstn (ephemeralBlockLen - 24) sealed) nonce (combinations from)
    else ([], None)
  end.

(** The pairings of the third stage: the ephemeral public value with our
    last, then with our current private value. *)
Definition ephemeralPairs (publicBytes : bytes) (from : Contact)
  : list (bytes * bytes * bool) :=
  [ (copy_at (make 32) 0 publicBytes, lastDHPrivate from, false);
    (copy_at (make 32) 0 publicBytes, currentDHPrivate from, true) ].

(** The third stage, over what follows the header; it is run when the
    header opened to 32 bytes.  [from2] is the contact as the second stage
    left it. *)
Definition innerLadder (sealed nonce : bytes) (from from2 : Contact)
  : list event * option (bytes * bool) :=
  match snd (headerLadder sealed nonce from) with
  | Some (publicBytes, _) =>
    if length publicBytes =? 32 then
      let rest := skipn (ephemeralBlockLen - 24) sealed in
      ladder (skipn nonceLen rest) (copy_at (make nonceLen) 0 rest)
        (ephemeralPairs publicBytes from2)
    else ([], None)
  | None => ([], None)
  end.

(** Unsealing as steps 2 to 4 describe it: each stage is a ladder followed
    by what [afterLadder] does with its result. *)
Definition unsealStages (c : client) (sealed nonce : bytes) (from : Contact)
  : outcome (option bytes * Contact * client) :=
  '(r, from1, c1) <-
    afterLadder c from (ladder sealed nonce (combinations from)) ;;
  match r with
  | Some plaintext => Ok (Some plaintext, from1, c1)
  | None =>
    if ephemeralBlockLen - 24 <? length sealed then
      '(h, from2, c2) <-
        afterLadder c1 from1
          (ladder (firstn (ephemeralBlockLen - 24) sealed) nonce
             (combinations from1)) ;;
      match h with
      | None => Ok (None, from2, c2)
      | Some publicBytes =>
        if negb (length publicBytes =? 32) then Ok (None, from2, c2)
        else
          let rest := skipn (ephemeralBlockLen - 24) sealed in
          if length rest <? nonceLen then Panic "slice bounds out of range"
          else
            afterLadder c2 from2
              (ladder (skipn nonceLen rest) (copy_at (make nonceLen) 0 rest)
                 (ephemeralPairs publicBytes from2))
      end
    else Ok (None, from1, c1)
  end.

(** The two kinds of events that matter to unsealing: a call of
    [box.Open], and a line of the log. *)
Definition isBoxOpen (e : event) : bool :=
  match e with BoxOpen _ _ _ => true | _ => false end.

Definition isLogLine (e : event) : bool :=
  match e with LogErrorf _ | LogPrintf _ => true | _ => false end.

End Stages.

(** ** A small instance of the collaborators

    Keys are byte strings whose first byte names them; [box_Seal] writes the
    names of the two keys in front of the plaintext and fills its sixteen
    bytes of overhead, [box_Open] checks them.  A group signature names the
    epoch of the group and the member.  The instance is used to run the
    client on concrete inputs. *)

Module Toy.

Definition key (b : byte) : bytes := repeat b 32.
Definition name (k : bytes) : byte := hd x00 k.
Definition byte_eqb (a b : byte) : bool :=
  if Byte.byte_eq_dec a b then true else false.

Definition seal (m nonce pub private : bytes) : bytes :=
  name pub :: name private :: repeat x00 14 ++ m.

Definition open (c nonce pub private : bytes) : option bytes :=
  match c with
  | a :: b :: rest =>
    if byte_eqb a (name pub) && byte_eqb b (name private) && (14 <=? length rest)
    then Some (skipn 14 rest) else None
  | _ => None
  end.

(** A message on the wire: the length of [my_next_dh], that field, the body. *)
Definition marshalMessage (m : Message) : string + bytes :=
  inr (byte_of_Z (Z.of_nat (length (MyNextDh m))) :: MyNextDh m ++ Body m).

Definition unmarshalMessage (b : bytes) : string + Message :=
  match b with
  | [] => inl "unexpected EOF"
  | l :: rest =>
    let n := Z.to_nat (Z_of_byte l) in
    inr (mkMessage (Some 1%Z) (Some 0%Z) (skipn n rest) (firstn n rest)
           None None)
  end.

#[export] Instance primitives : Primitives := {
  Reader := nat;
  io_ReadFull r n := Some (repeat (byte_of_Z (Z.of_nat r)) n, S r);
  Group := unit;
  PrivateKey := Z;
  MemberKey := Z * Z;
  RevocationToken := Z;
  PrivateKey_Group _ := tt;
  Group_Marshal _ := [];
  Group_Unmarshal _ := Some tt;
  PrivateKey_Marshal k := [byte_of_Z k];
  PrivateKey_Unmarshal _ b := Some (Z_of_byte (hd x00 b));
  PrivateKey_GenerateRevocation _ m := fst m;
  PrivateKey_GroupUpdate k _ := (k + 1)%Z;
  PrivateKey_Verify k _ sig := (Z_of_byte (nth 0 sig x00) =? k)%Z;
  PrivateKey_Open _ sig := ([nth 1 sig x00], true);
  MemberKey_Tag m := [byte_of_Z (fst m)];
  MemberKey_Update m rev :=
    if (fst m =? rev)%Z then (m, false) else ((fst m, snd m + 1)%Z, true);
  MemberKey_GroupUpdate m _ := m;
  MemberKey_Group _ := tt;
  MemberKey_Marshal m := [byte_of_Z (fst m); byte_of_Z (snd m)];
  MemberKey_Unmarshal _ b :=
    Some (Z_of_byte (nth 0 b x00), Z_of_byte (nth 1 b x00));
  MemberKey_Sign r m _ := (inr [byte_of_Z (snd m); byte_of_Z (fst m)], S r);
  Revocation_Marshal rev := [byte_of_Z rev];
  Revocation_Unmarshal b :=
    match b with [x] => Some (Z_of_byte x) | _ => None end;
  box_Seal := seal;
  box_Open := open;
  box_GenerateKey r :=
    (inr (key (byte_of_Z (Z.of_nat r)), key (byte_of_Z (Z.of_nat r))), S r);
  ed25519_Sign private _ := repeat (name private) 64;
  ed25519_Verify pub _ sig := bytes_eqb sig (repeat (name pub) 64);
  sha256 b := firstn 32 b;
  proto_Marshal_Message := marshalMessage;
  proto_Unmarshal_Message := unmarshalMessage;
  proto_Marshal_Revocation body :=
    inr (RevRevocation body
           ++ PutUint32 (match RevGeneration body with
                         | Some g => g
                         | None => 0%Z
                         end));
  MaxSerializedMessage := 40
}.

(** Alice, an active contact of ours, and Bob, still pending. *)
Definition alice : Contact :=
  mkContact 7 "alice" false None (1, 0)%Z (Some (9, 0)%Z) [] 3 "pondserver://a"
    (key x0a) (key x0b) 1 false false
    (key x01) (key x02) (key x03) (key x04).

Definition bob : Contact :=
  mkContact 8 "bob" true (Some [x01]) (2, 0)%Z None [] 0 "" [] [] 0 false false
    (key x05) (key x05) [] [].

Definition us : client :=
  mkClient 0 100 5%Z 0%Z [] [alice; bob] [] [] [] (key x0c) "pondserver://home" [].

(** A message whose serialized form is exactly [MaxSerializedMessage] bytes
    long, and one that is a byte longer. *)
Definition hello : Message :=
  mkMessage (Some 11%Z) (Some 1000%Z) (repeat x68 7) (key x02) None None.

Definition longer : Message :=
  mkMessage (Some 12%Z) (Some 1001%Z) (repeat x68 8) (key x02) None None.

(** A message whose body alone has [MaxSerializedMessage] bytes. *)
Definition fullBody : Message :=
  mkMessage (Some 13%Z) (Some 1002%Z) (repeat x68 40) (key x02) None None.

(** Two inbound messages from Alice, both sealed to our current private
    value under her last public value (the third pairing).  The first
    carries a [my_next_dh] of 32 bytes, the second one of 31 bytes. *)
Definition inbound (payload : bytes) : InboxMessage :=
  mkInboxMessage 21 0 7
    (Some (repeat x07 24
             ++ seal (PutUint32 (Z.of_nat (length payload)) ++ payload) []
                  (key x03) (key x02)))
    None false.

Definition fromAlice : InboxMessage :=
  inbound (x20 :: key x0d ++ [x68; x69]).

Definition badDh : InboxMessage :=
  inbound (x1f :: repeat x09 31 ++ [x68]).

(** What decrypting and what unsealing an inbound message from Alice give,
    starting from [us]. *)
Definition decrypted (im : InboxMessage) : bytes * Contact * client :=
  match
    decryptMessage us (skipn 24 (sealedBytes im)) (firstn 24 (sealedBytes im))
      alice
  with
  | Ok (Some plaintext, from1, c1) => (plaintext, from1, c1)
  | _ => ([], alice, us)
  end.

Definition plaintextOf (im : InboxMessage) : bytes := fst (fst (decrypted im)).
Definition contactDecrypted (im : InboxMessage) : Contact :=
  snd (fst (decrypted im)).
Definition clientDecrypted (im : InboxMessage) : client := snd (decrypted im).

Definition parsed (im : InboxMessage) : Message :=
  match unmarshalMessage (payload (plaintextOf im)) with
  | inr m => m
  | inl _ => mkMessage None None [] [] None None
  end.

Definition unsealed (im : InboxMessage)
  : bool * InboxMessage * Contact * client :=
  match unsealMessage us im alice 0 with
  | Ok r => r
  | Panic _ => (false, im, alice, us)
  end.

Definition contactUnsealed (im : InboxMessage) : Contact :=
  snd (fst (unsealed im)).

Definition afterRevoke : client :=
  match revoke us 7 50 51 with
  | Ok c' => c'
  | Panic _ => us
  end.

Definition afterSend : client :=
  match send us alice hello with
  | Ok (c', _) => c'
  | Panic _ => us
  end.

(** A fetched message signed under the group as it was before Alice was
    revoked, by the member to whom Bob's key was issued. *)
Definition fetchedFromBob : Fetched := mkFetched [x00; x02] (repeat x07 40).

Definition bobRevised : Contact :=
  match lookupContact (contacts afterRevoke) 8 with
  | Some k => k
  | None => bob
  end.

Definition drawn : Z * client :=
  match randId afterRevoke with
  | Ok r => r
  | Panic _ => (0%Z, afterRevoke)
  end.

(** The server's answer to the delivery of [hello]: Alice's group has a
    pending revocation for generation 3.  The signature is the 64 bytes
    that verify under Alice's key, followed by one more byte. *)
Definition revokedResult (sig : bytes) : messageSendResult :=
  mkMessageSendResult 11
    (Some (mkSignedRevocation (Some (mkRevocationBody [x05] (Some 3%Z))) sig)).

Definition longSignature : bytes := repeat x0a 64 ++ [xff].

Definition afterLongSignature : client :=
  match processMessageSent afterSend (revokedResult longSignature) 70 with
  | Ok c' => c'
  | Panic _ => afterSend
  end.

(** The entry that [send] queued for [hello], and a reply whose status
    field is present and is OK. *)
Definition queuedHello : queuedMessage :=
  hd (mkQueuedMessage emptyRequest 0 0 "" None 0 0 0 false) (queue afterSend).

Definition replyOK : Reply := mkReply (Some Reply_OK) None None None None None.


(** The 64 bytes that verify under Alice's key, and the same revocation
    carrying them; then one whose token is the one of our own member key,
    so that it revokes us. *)
Definition validSignature : bytes := repeat x0a 64.

Definition revokedUsResult : messageSendResult :=
  mkMessageSendResult 11
    (Some (mkSignedRevocation (Some (mkRevocationBody [x09] (Some 3%Z)))
             validSignature)).

Definition afterUpdate : client :=
  match processMessageSent afterSend (revokedResult validSignature) 70 with
  | Ok c' => c'
  | Panic _ => afterSend
  end.

Definition postedUpdate : revocationUpdate :=
  match rev (events afterUpdate) with
  | _ :: _ :: RevocationUpdateChan u :: _ => u
  | _ => mkRevocationUpdate 0 None 0
  end.

Definition afterResign : client :=
  match resignQueuedMessages afterUpdate postedUpdate with
  | Ok c' => c'
  | Panic _ => afterUpdate
  end.

Definition afterRevokedUs : client :=
  match processMessageSent afterSend revokedUsResult 70 with
  | Ok c' => c'
  | Panic _ => afterSend
  end.

Definition afterSent : client :=
  match processMessageSent afterSend (mkMessageSendResult 11 None) 70 with
  | Ok c' => c'
  | Panic _ => afterSend
  end.

(** An announcement from the home server. *)
Definition announcement : ServerAnnounce := mkAnnounce (Some hello).

Definition afterAnnounce : client :=
  match processServerAnnounce us (Some announcement) 80 with
  | Ok c' => c'
  | Panic _ => us
  end.

(** The id that [us] draws next. *)
Definition drawnId : Z * client :=
  match randId us with
  | Ok r => r
  | Panic _ => (0%Z, us)
  end.

(** A revocation update for Alice that arrives after she has been
    revoked. *)
Definition lateUpdate : revocationUpdate :=
  mkRevocationUpdate 7 (Some (9, 1)%Z) 4.

(** The server's reply to the delivery of [hello] when Alice's group has
    moved on: the status GENERATION_REVOKED and the signed revocation. *)
Definition replyRevoked : Reply :=
  mkReply (Some Reply_GENERATION_REVOKED) None None None None
    (Some (mkSignedRevocation (Some (mkRevocationBody [x05] (Some 3%Z)))
             validSignature)).

Definition afterRevokedReply : client :=
  match transaction afterSend (Replied replyRevoked) [] with
  | Ok c' => c'
  | Panic _ => afterSend
  end.

(** A reply to a fetch that carries a message. *)
Definition replyFetched : Reply :=
  mkReply None (Some fetchedFromBob) None None None None.

Definition afterFetch : client :=
  match processFetch afterRevoke fetchedFromBob 60 with
  | Ok c' => c'
  | Panic _ => afterRevoke
  end.

Definition afterFetchReply : client :=
  match transaction us (Replied replyFetched) [] with
  | Ok c' => c'
  | Panic _ => us
  end.

End Toy.

(** ** A second instance: boxes that carry their length, keys that agree

    A public value is the private value itself, the secret two parties
    share is the xor of the first bytes of the two values, and a box names
    the secret, the nonce and the length of what it holds. *)

Module Paired.

Definition shared (pub private : bytes) : byte :=
  byte_of_Z (Z.lxor (Z_of_byte (Toy.name pub)) (Z_of_byte (Toy.name private))).

Definition seal (m nonce pub private : bytes) : bytes :=
  shared pub private :: Toy.name nonce
    :: PutUint32 (Z.of_nat (length m)) ++ repeat x00 10 ++ m.

Definition open (c nonce pub private : bytes) : option bytes :=
  match c with
  | s :: n :: rest =>
    if Toy.byte_eqb s (shared pub private)
       && Toy.byte_eqb n (Toy.name nonce)
       && (14 <=? length rest)
       && (Z.of_nat (length rest - 14) =? Uint32 (firstn 4 rest))%Z
    then Some (skipn 14 rest) else None
  | _ => None
  end.

#[export] Instance primitives : Primitives := {
  Reader := nat;
  io_ReadFull r n := Some (repeat (byte_of_Z (Z.of_nat r)) n, S r);
  Group := unit;
  PrivateKey := Z;
  MemberKey := Z * Z;
  RevocationToken := Z;
  PrivateKey_Group _ := tt;
  Group_Marshal _ := [];
  Group_Unmarshal _ := Some tt;
  PrivateKey_Marshal k := [byte_of_Z k];
  PrivateKey_Unmarshal _ b := Some (Z_of_byte (hd x00 b));
  PrivateKey_GenerateRevocation _ m := fst m;
  PrivateKey_GroupUpdate k _ := (k + 1)%Z;
  PrivateKey_Verify k _ sig := (Z_of_byte (nth 0 sig x00) =? k)%Z;
  PrivateKey_Open _ sig := ([nth 1 sig x00], true);
  MemberKey_Tag m := [byte_of_Z (fst m)];
  MemberKey_Update m rev :=
    if (fst m =? rev)%Z then (m, false) else ((fst m, snd m + 1)%Z, true);
  MemberKey_GroupUpdate m _ := m;
  MemberKey_Group _ := tt;
  MemberKey_Marshal m := [byte_of_Z (fst m); byte_of_Z (snd m)];
  MemberKey_Unmarshal _ b :=
    Some (Z_of_byte (nth 0 b x00), Z_of_byte (nth 1 b x00));
  MemberKey_Sign r m _ := (inr [byte_of_Z (snd m); byte_of_Z (fst m)], S r);
  Revocation_Marshal rev := [byte_of_Z rev];
  Revocation_Unmarshal b :=
    match b with [x] => Some (Z_of_byte x) | _ => None end;
  box_Seal := seal;
  box_Open := open;
  box_GenerateKey r :=
    (inr (Toy.key (byte_of_Z (Z.of_nat r)), Toy.key (byte_of_Z (Z.of_nat r))),
     S r);
  ed25519_Sign private _ := repeat (Toy.name private) 64;
  ed25519_Verify pub _ sig := bytes_eqb sig (repeat (Toy.name pub) 64);
  sha256 b := firstn 32 b;
  proto_Marshal_Message := Toy.marshalMessage;
  proto_Unmarshal_Message := Toy.unmarshalMessage;
  proto_Marshal_Revocation body :=
    inr (RevRevocation body
           ++ PutUint32 (match RevGeneration body with
                         | Some g => g
                         | None => 0%Z
                         end));
  MaxSerializedMessage := 40
}.

(** Ann writes to Bea.  [bea] is Bea as Ann's client knows her, [ann] is
    Ann as Bea's client knows her: Ann seals to Bea's value x21 under her
    own x11, and these are the values of Bea's first pairing.  The member
    key (4, 0) of Bea's group is the one Ann signs with. *)
Definition bea : Contact :=
  mkContact 3 "bea" false None (1, 0)%Z (Some (4, 0)%Z) [] 0 "pondserver://b"
    (Toy.key x0a) (Toy.key x0b) 1 false false
    (Toy.key x11) (Toy.key x12) (Toy.key x20) (Toy.key x21).

Definition ann : Contact :=
  mkContact 9 "ann" false (Some [x01]) (4, 0)%Z (Some (5, 0)%Z) [] 0
    "pondserver://a" (Toy.key x0c) (Toy.key x0d) 0 false false
    (Toy.key x21) (Toy.key x22) (Toy.key x11) (Toy.key x10).

Definition annClient : client :=
  mkClient 0 100 0%Z 0%Z [] [bea] [] [] [] (Toy.key x0e) "pondserver://a" [].

Definition beaClient : client :=
  mkClient 50 150 0%Z 0%Z [] [ann] [] [] [] (Toy.key x0f) "pondserver://b" [].

(** A message that fills [MaxSerializedMessage] and announces the DH value
    x13. *)
Definition note : Message :=
  mkMessage (Some 1%Z) (Some 0%Z) (repeat x68 7) (Toy.key x13) None None.

Definition sentNote : client :=
  match send annClient bea note with
  | Ok (c', _) => c'
  | Panic _ => annClient
  end.

Definition queuedNote : queuedMessage :=
  hd (mkQueuedMessage emptyRequest 0 0 "" None 0 0 0 false) (queue sentNote).

Definition deliveryOfNote : Delivery :=
  match Deliver (request queuedNote) with
  | Some d => d
  | None => mkDelivery [] [] None []
  end.

(** The id that Bea's client draws for the next inbox entry. *)
Definition drawnId : Z * client :=
  match randId beaClient with
  | Ok r => r
  | Panic _ => (0%Z, beaClient)
  end.

(** The note as it reaches Bea's client. *)
Definition arrived : InboxMessage :=
  mkInboxMessage 5 0 9 (Some (DeliveryMessage deliveryOfNote)) None false.

(** Ann writes again after Bea announced the value x22.  [beaLater] is Bea
    as Ann's client then knows her: Ann seals the ephemeral header to x22
    under her own x11, the values of Bea's third pairing, and the inner box
    to x22 under the ephemeral value. *)
Definition beaLater : Contact := set_theirCurrentDHPublic (Toy.key x22) bea.

(** A message of Ann's as it reaches Bea's client. *)
Definition delivered (to : Contact) (m : Message) : InboxMessage :=
  mkInboxMessage 5 0 9
    (match send annClient to m with
     | Ok (c', _) =>
       match queue c' with
       | q :: _ =>
         match Deliver (request q) with
         | Some d => Some (DeliveryMessage d)
         | None => None
         end
       | [] => None
       end
     | Panic _ => None
     end)
    None false.

(** A message whose [my_next_dh] has 31 bytes. *)
Definition shortDh : Message :=
  mkMessage (Some 2%Z) (Some 0%Z) (repeat x68 8) (repeat x13 31) None None.

Definition decrypted (im : InboxMessage) : bytes * Contact * client :=
  match decryptMessage beaClient (skipn 24 (sealedBytes im))
          (firstn 24 (sealedBytes im)) ann with
  | Ok (Some plaintext, from1, c1) => (plaintext, from1, c1)
  | _ => ([], ann, beaClient)
  end.

Definition parsed (im : InboxMessage) : Message :=
  match Toy.unmarshalMessage (payload (fst (fst (decrypted im)))) with
  | inr msg => msg
  | inl _ => note
  end.

Definition unsealed (im : InboxMessage)
  : bool * InboxMessage * Contact * client :=
  match unsealMessage beaClient im ann 0 with
  | Ok r => r
  | Panic _ => (false, im, ann, beaClient)
  end.

(** The values that the runs below start from or arrive at. *)
Definition unsealedNote : bool * InboxMessage * Contact * client :=
  Eval vm_compute in unsealed (delivered beaLater note).

Definition decryptedShortDh : bytes * Contact * client :=
  Eval vm_compute in decrypted (delivered beaLater shortDh).

Definition parsedShortDh : Message :=
  Eval vm_compute in parsed (delivered beaLater shortDh).

End Paired.

(** * Properties *)

(** ** Slices *)

Lemma copy_at_length (dst : bytes) (off : nat) (src : bytes) :
  length (copy_at dst off src) = length dst.
Proof.
  unfold copy_at.
  rewrite !length_app, !length_firstn, length_skipn. lia.
Qed.

Lemma append_at_length (buf : bytes) (off : nat) (data : bytes) :
  length (append_at buf off data) = length buf.
Proof.
  unfold append_at.
  destruct (off + length data <=? length buf); auto using copy_at_length.
Qed.

Lemma make_length (n : nat) : length (make n) = n.
Proof. apply repeat_length. Qed.

Create Rewrite HintDb slices.
#[export] Hint Rewrite copy_at_length append_at_length make_length : slices.

Section SendFacts.

Context `{P : Primitives}.

Lemma randBytes_events (c c' : client) (n : nat) (b : bytes) :
  randBytes c n = Ok (b, c') ->
  queue c' = queue c /\ outbox c' = outbox c /\ events c' = events c.
Proof.
  unfold randBytes. destruct (io_ReadFull (rand c) n) as [[b0 r]|]; [|discriminate].
  intros E. inversion E; subst. auto.
Qed.

(** What an accepted message leaves behind: one new entry, the same at the
    tail of the queue and of the outbox, whose request is a delivery of a
    sealed buffer of the length fixed by the peer's version. *)
Lemma send_accepted (c c' : client) (to : Contact) (message : Message) :
  send c to message = Ok (c', None) ->
  exists out d,
    queue c' = queue c ++ [out]
    /\ outbox c' = outbox c ++ [out]
    /\ Deliver (request out) = Some d
    /\ length (DeliveryMessage d) = sealedLength to.
Proof.
  unfold send, sealedLength. intros H.
  destruct (proto_Marshal_Message message) as [e|messageBytes]; [discriminate|].
  destruct (MaxSerializedMessage <? length messageBytes); [discriminate|].
  destruct (randBytes c _) as [[pad c1]|] eqn:E1; [|discriminate].
  apply randBytes_events in E1. destruct E1 as (Q1 & O1 & _). simpl in H.
  destruct (randBytes c1 24) as [[innerNonce c2]|] eqn:E2; [|discriminate].
  apply randBytes_events in E2. destruct E2 as (Q2 & O2 & _). simpl in H.
  destruct (1 <=? supportedVersion to)%Z.
  - destruct (box_GenerateKey (rand c2)) as [[e|[public private]] r].
    + simpl in H. discriminate.
    + destruct (randBytes (set_rand r c2) 24) as [[outerNonce c3]|] eqn:E3;
        [|discriminate].
      apply randBytes_events in E3. destruct E3 as (Q3 & O3 & _).
      simpl in Q3, O3, H.
      destruct (myGroupKey to); [|discriminate]. simpl in H.
      destruct (MemberKey_Sign _ _ _) as [[e|groupSig] r'] in H; [discriminate|].
      destruct (Id message); [|discriminate]. simpl in H.
      destruct (Time message); [|discriminate]. simpl in H.
      inversion H; subst; clear H.
      eexists _, _. repeat split.
      * destruct (0 <? length (Body message)); simpl; rewrite Q3, Q2, Q1;
          reflexivity.
      * destruct (0 <? length (Body message)); simpl; rewrite O3, O2, O1;
          reflexivity.
      * reflexivity.
      * simpl. autorewrite with slices.
        unfold nonceLen, box_Overhead, ephemeralBlockLen, nonceLen, box_Overhead.
        lia.
  - simpl in H.
    destruct (myGroupKey to); [|discriminate]. simpl in H.
    destruct (MemberKey_Sign _ _ _) as [[e|groupSig] r'] in H; [discriminate|].
    destruct (Id message); [|discriminate]. simpl in H.
    destruct (Time message); [|discriminate]. simpl in H.
    inversion H; subst; clear H.
    eexists _, _. repeat split.
    * destruct (0 <? length (Body message)); simpl; rewrite Q2, Q1;
        reflexivity.
    * destruct (0 <? length (Body message)); simpl; rewrite O2, O1;
        reflexivity.
    * reflexivity.
    * simpl. autorewrite with slices. unfold nonceLen, box_Overhead. lia.
Qed.

Lemma randBytes_ok (c : client) (n : nat) :
  (forall r m, io_ReadFull r m <> None) ->
  exists b c', randBytes c n = Ok (b, c').
Proof.
  intros Hr. unfold randBytes.
  destruct (io_ReadFull (rand c) n) as [[b r]|] eqn:E.
  - eauto.
  - exfalso. exact (Hr _ _ E).
Qed.

(** The size gate of [send]: a serialized message longer than
    [MaxSerializedMessage] is refused and nothing changes. *)
Lemma send_too_large (c : client) (to : Contact) (message : Message)
  (messageBytes : bytes) :
  proto_Marshal_Message message = inr messageBytes ->
  MaxSerializedMessage < length messageBytes ->
  send c to message = Ok (c, Some "message too large").
Proof.
  intros Hm Hl. unfold send. rewrite Hm.
  destruct (Nat.ltb_spec MaxSerializedMessage (length messageBytes)); [reflexivity|lia].
Qed.

Lemma send_fits (c : client) (to : Contact) (message : Message)
  (messageBytes : bytes) (k : MemberKey) (mid mtime : Z) :
  proto_Marshal_Message message = inr messageBytes ->
  collaborators_succeed ->
  myGroupKey to = Some k -> Id message = Some mid -> Time message = Some mtime ->
  length messageBytes <= MaxSerializedMessage ->
  exists c', send c to message = Ok (c', None).
Proof.
  intros Hm (Hr & Hg & Hs) Hk Hi Ht Hl. unfold send. rewrite Hm.
  destruct (Nat.ltb_spec MaxSerializedMessage (length messageBytes)); [lia|].
  destruct (randBytes_ok c
              (length (copy_at (copy_at (make (MaxSerializedMessage + 4)) 0
                                  (PutUint32 (Z.of_nat (length messageBytes))))
                         4 messageBytes) - (4 + length messageBytes)) Hr)
    as (pad & c1 & E1).
  rewrite E1. simpl.
  destruct (randBytes_ok c1 24 Hr) as (innerNonce & c2 & E2).
  rewrite E2. simpl.
  destruct (1 <=? supportedVersion to)%Z.
  - destruct (Hg (rand c2)) as ([public private] & r & Eg). rewrite Eg.
    destruct (randBytes_ok (set_rand r c2) 24 Hr) as (outerNonce & c3 & E3).
    rewrite E3. simpl. rewrite Hk. simpl.
    match goal with
    | |- context [MemberKey_Sign ?a ?b ?d] =>
      destruct (Hs a b d) as (sg & r' & Es); rewrite Es
    end.
    rewrite Hi, Ht. simpl. eauto.
  - simpl. rewrite Hk. simpl.
    match goal with
    | |- context [MemberKey_Sign ?a ?b ?d] =>
      destruct (Hs a b d) as (sg & r' & Es); rewrite Es
    end.
    rewrite Hi, Ht. simpl. eauto.
Qed.

(** C3. For every message accepted by [send], the sealed ciphertext put in
    the delivery request has length 24 + 32 + 16 + 24 + 4 +
    MaxSerializedMessage + 16 when the peer's supported version is at least
    1 and 24 + 4 + MaxSerializedMessage + 16 when it is 0; the length does
    not depend on the message. *)
Theorem send_sealed_length (c c' : client) (to : Contact) (message : Message) :
  send c to message = Ok (c', None) ->
  exists out d,
    queue c' = queue c ++ [out]
    /\ Deliver (request out) = Some d
    /\ ((1 <= supportedVersion to)%Z ->
        length (DeliveryMessage d)
        = 24 + 32 + 16 + 24 + 4 + MaxSerializedMessage + 16)
    /\ (supportedVersion to = 0%Z ->
        length (DeliveryMessage d) = 24 + 4 + MaxSerializedMessage + 16).
Proof.
  intros H. apply send_accepted in H.
  destruct H as (out & d & Hq & _ & Hd & Hl).
  exists out, d. unfold sealedLength in Hl. repeat split; auto.
  - intros Hv. destruct (Z.leb_spec 1 (supportedVersion to)); [exact Hl|lia].
  - intros Hv. rewrite Hv in Hl. exact Hl.
Qed.

(** C8, as amended. The size check of [send] measures the serialized
    message, the bytes that [proto.Marshal] returns, not the body: [send]
    succeeds for every message whose serialized form is at most
    MaxSerializedMessage long, the collaborators reporting no error, and
    fails with "message too large" when it is one byte longer.  A message
    whose body alone has MaxSerializedMessage bytes is refused as soon as
    serializing adds a byte to the body. *)
Theorem send_size_boundary (c : client) (to : Contact) (message : Message)
  (messageBytes : bytes) (k : MemberKey) (mid mtime : Z) :
  proto_Marshal_Message message = inr messageBytes ->
  collaborators_succeed ->
  myGroupKey to = Some k -> Id message = Some mid -> Time message = Some mtime ->
  (length messageBytes <= MaxSerializedMessage ->
   exists c', send c to message = Ok (c', None))
  /\ (length messageBytes = MaxSerializedMessage + 1 ->
      send c to message = Ok (c, Some "message too large"))
  /\ (length (Body message) = MaxSerializedMessage ->
      length (Body message) < length messageBytes ->
      send c to message = Ok (c, Some "message too large")).
Proof.
  intros Hm Hc Hk Hi Ht. split; [|split].
  - intros Hl. eapply send_fits; eauto.
  - intros Hl. eapply send_too_large; eauto. lia.
  - intros Hb Hl. eapply send_too_large; eauto. lia.
Qed.

End SendFacts.

Section RevokeFacts.

Context `{P : Primitives}.

Lemma randId_queue (c c' : client) (i : Z) :
  randId c = Ok (i, c') ->
  queue c' = queue c /\ outbox c' = outbox c /\ events c' = events c
  /\ generation c' = generation c /\ priv c' = priv c
  /\ contacts c' = contacts c /\ inbox c' = inbox c.
Proof.
  unfold randId, randBytes.
  destruct (io_ReadFull (rand c) 8) as [[b r]|]; [|discriminate].
  simpl. intros E. inversion E; subst. repeat split.
Qed.

(** C1, as amended. The signed revocation that [revoke] enqueues carries
    the generation our group had when [revoke] was entered, that is the
    value before the local increment; our generation afterwards is that
    value plus one (as a uint32).  The bytes signed with the identity
    Edwards key are the constant prefix "revocation\0" followed by the
    serialized revocation record. *)
Theorem revoke_signed_revocation (c c' : client) (toId now created : Z) :
  revoke c toId now created = Ok c' ->
  exists out sr body revBytes,
    queue c' = queue c ++ [out]
    /\ outbox c' = outbox c ++ [out]
    /\ qmRevocation out = true
    /\ Revocation (request out) = Some sr
    /\ SRRevocation sr = Some body
    /\ RevGeneration body = Some (generation c)
    /\ generation c' = wrap32 (generation c + 1)
    /\ proto_Marshal_Revocation body = inr revBytes
    /\ SRSignature sr
       = ed25519_Sign (priv c)
           ((String.list_byte_of_string "revocation" ++ [x00]) ++ revBytes).
Proof.
  unfold revoke. intros H.
  destruct (lookupContact (contacts c) toId) as [to|]; [|discriminate].
  simpl in H.
  match type of H with
  | context [proto_Marshal_Revocation ?b] =>
    destruct (proto_Marshal_Revocation b) as [e|revBytes] eqn:Em;
      [discriminate|]
  end.
  match type of H with
  | context [randId ?x] => destruct (randId x) as [[rid c1]|] eqn:Er;
                             [|discriminate]
  end.
  apply randId_queue in Er. simpl in Er.
  destruct Er as (Q & O & _ & G & Pv & _).
  simpl in H. inversion H; subst; clear H. simpl.
  eexists _, _, _, revBytes.
  split; [rewrite Q; reflexivity|].
  split; [rewrite O; reflexivity|].
  split; [reflexivity|].
  split; [reflexivity|].
  split; [reflexivity|].
  split; [reflexivity|].
  split; [exact G|].
  split; [exact Em|].
  reflexivity.
Qed.

End RevokeFacts.

Section UnsealFacts.

Context `{P : Primitives}.

(** [decryptMessageInner] is the ladder over the four pairings, followed by
    the ratchet step exactly when the pairing that opened the box has
    [currentDHPrivate] as its private half. *)
Lemma decryptMessageInner_spec (c : client) (sealed nonce : bytes)
  (from : Contact) :
  decryptMessageInner c sealed nonce from
  = afterLadder c from (ladder sealed nonce (combinations from)).
Proof.
  unfold decryptMessageInner, afterLadder, tryOpen, combinations, rotate,
    ratchet, emit.
  simpl.
  destruct (box_Open sealed nonce (theirLastDHPublic from) (lastDHPrivate from));
    [reflexivity|].
  destruct (box_Open sealed nonce (theirCurrentDHPublic from)
              (lastDHPrivate from)); simpl.
  { rewrite <- app_assoc. reflexivity. }
  destruct (box_Open sealed nonce (theirLastDHPublic from)
              (currentDHPrivate from)); simpl.
  { destruct (io_ReadFull (randReader c) 32) as [[fresh rd]|]; simpl;
      [|reflexivity].
    rewrite <- !app_assoc. reflexivity. }
  destruct (box_Open sealed nonce (theirCurrentDHPublic from)
              (currentDHPrivate from)); simpl.
  { destruct (io_ReadFull (randReader c) 32) as [[fresh rd]|]; simpl;
      [|reflexivity].
    rewrite <- !app_assoc. reflexivity. }
  rewrite <- !app_assoc. reflexivity.
Qed.

End UnsealFacts.

Section DecryptFrames.

Context `{P : Primitives}.

Lemma privatesOnly_refl (from : Contact) : privatesOnly from from.
Proof. destruct from; reflexivity. Qed.

Lemma privatesOnly_trans (a b d : Contact) :
  privatesOnly a b -> privatesOnly b d -> privatesOnly a d.
Proof.
  unfold privatesOnly. destruct a, b, d.
  unfold set_currentDHPrivate, set_lastDHPrivate. simpl.
  intros H1 H2. inversion H1; subst. inversion H2; subst. reflexivity.
Qed.

Lemma privatesOnly_ratchet (fresh : bytes) (from : Contact) :
  privatesOnly from (ratchet fresh from).
Proof. destruct from; reflexivity. Qed.

Lemma grownBy_trans (e1 e2 : list event) (a b d : client) :
  grownBy e1 a b -> grownBy e2 b d -> grownBy (e1 ++ e2) a d.
Proof.
  unfold grownBy. destruct a, b, d. unfold set_randReader, set_events.
  simpl. intros H1 H2. inversion H1; subst. inversion H2; subst.
  rewrite app_assoc. reflexivity.
Qed.

Lemma grownBy_app (l e1 e2 : list event) (a b d : client) :
  grownBy (l ++ e1) a b -> grownBy e2 b d -> grownBy (l ++ e1 ++ e2) a d.
Proof. intros H1 H2. rewrite app_assoc. eapply grownBy_trans; eauto. Qed.

Lemma grownBy_emit2 (e1 e2 : event) (c : client) :
  grownBy [e1; e2] c (emit e2 (emit e1 c)).
Proof.
  unfold grownBy, emit. destruct c. simpl. rewrite <- app_assoc. reflexivity.
Qed.

Lemma grownBy_emit2_read (e1 e2 : event) (rd : Reader) (c : client) :
  grownBy [e1; e2] c (set_randReader rd (emit e2 (emit e1 c))).
Proof.
  unfold grownBy, emit. destruct c. simpl. rewrite <- app_assoc. reflexivity.
Qed.

Lemma grownBy_emit (e : event) (c : client) : grownBy [e] c (emit e c).
Proof. unfold grownBy, emit. destruct c; reflexivity. Qed.

Lemma grownBy_set_events (evs : list event) (c : client) :
  grownBy evs c (set_events (events c ++ evs) c).
Proof. unfold grownBy. destruct c; reflexivity. Qed.

Lemma grownBy_set_randReader (evs : list event) (rd : Reader) (c : client) :
  grownBy evs c (set_randReader rd (set_events (events c ++ evs) c)).
Proof. unfold grownBy. destruct c; reflexivity. Qed.

(** The outcome of a ladder, when it is not a panic. *)
Lemma afterLadder_ok (c c1 : client) (from from1 : Contact)
  (l : list event * option (bytes * bool)) (r : option bytes) :
  afterLadder c from l = Ok (r, from1, c1) ->
  grownBy (fst l) c c1
  /\ match snd l with
     | None => r = None /\ from1 = from
     | Some (plaintext, false) => r = Some plaintext /\ from1 = from
     | Some (plaintext, true) =>
       r = Some plaintext
       /\ exists fresh rd,
           io_ReadFull (randReader c) 32 = Some (fresh, rd)
           /\ from1 = ratchet fresh from
     end.
Proof.
  unfold afterLadder. destruct l as [attempts [[plaintext [|]]|]]; simpl.
  - destruct (io_ReadFull (randReader c) 32) as [[fresh rd]|]; [|discriminate].
    intros E. inversion E; subst.
    split; [apply grownBy_set_randReader|]. eauto.
  - intros E. inversion E; subst. split; [apply grownBy_set_events|]. auto.
  - intros E. inversion E; subst. split; [apply grownBy_set_events|]. auto.
Qed.

Lemma afterLadder_privatesOnly (c c1 : client) (from from1 : Contact)
  (l : list event * option (bytes * bool)) (r : option bytes) :
  afterLadder c from l = Ok (r, from1, c1) -> privatesOnly from from1.
Proof.
  intros H. apply afterLadder_ok in H. destruct H as [_ H].
  destruct (snd l) as [[plaintext [|]]|].
  - destruct H as (_ & fresh & rd & _ & ->). apply privatesOnly_ratchet.
  - destruct H as [_ ->]. apply privatesOnly_refl.
  - destruct H as [_ ->]. apply privatesOnly_refl.
Qed.

(** When the ladder over the whole sealed text opens the box,
    [decryptMessage] is that ladder and nothing more. *)
Lemma decryptMessage_direct (c : client) (sealed nonce : bytes)
  (from : Contact) (plaintext : bytes) (cur : bool) :
  snd (ladder sealed nonce (combinations from)) = Some (plaintext, cur) ->
  decryptMessage c sealed nonce from
  = afterLadder c from (ladder sealed nonce (combinations from)).
Proof.
  intros Hl. unfold decryptMessage. rewrite decryptMessageInner_spec.
  unfold afterLadder. rewrite Hl. destruct cur.
  - destruct (io_ReadFull (randReader c) 32) as [[fresh rd]|]; reflexivity.
  - reflexivity.
Qed.

(** Whatever path [decryptMessage] takes, it leaves the contact as it was
    up to the two private DH values, and the client as it was up to the
    events, which begin with the attempts of the first ladder, and the
    random reader. *)
Lemma decryptMessage_frame (c c1 : client) (sealed nonce : bytes)
  (from from1 : Contact) (r : option bytes) :
  decryptMessage c sealed nonce from = Ok (r, from1, c1) ->
  privatesOnly from from1
  /\ exists rest,
      grownBy (fst (ladder sealed nonce (combinations from)) ++ rest) c c1.
Proof.
  unfold decryptMessage. rewrite decryptMessageInner_spec.
  destruct (afterLadder c from _) as [[[r0 from0] c0]|] eqn:E0; [|discriminate].
  cbv beta iota delta [bind]. pose proof (afterLadder_privatesOnly _ _ _ E0) as P0.
  apply afterLadder_ok in E0. destruct E0 as [G0 _].
  destruct r0 as [plaintext|].
  { intros E. inversion E; subst. split; [exact P0|].
    exists []. rewrite app_nil_r. exact G0. }
  destruct (ephemeralBlockLen - 24 <? length sealed).
  2:{ intros E. inversion E; subst. split; [exact P0|].
      exists []. rewrite app_nil_r. exact G0. }
  rewrite decryptMessageInner_spec.
  destruct (afterLadder c0 from0 _) as [[[r1 from2] c2]|] eqn:E1;
    [|discriminate].
  cbv beta iota delta [bind]. pose proof (afterLadder_privatesOnly _ _ _ E1) as P1.
  apply afterLadder_ok in E1. destruct E1 as [G1 _].
  pose proof (privatesOnly_trans P0 P1) as P01.
  pose proof (grownBy_trans G0 G1) as G01.
  destruct r1 as [publicBytes|].
  2:{ intros E. inversion E; subst. split; [exact P01|]. eauto. }
  destruct (negb (length publicBytes =? 32)).
  { intros E. inversion E; subst. split; [exact P01|]. eauto. }
  destruct (length (skipn (ephemeralBlockLen - 24) sealed) <? nonceLen);
    [discriminate|].
  unfold tryOpen.
  destruct (box_Open _ _ _ (lastDHPrivate from2)) as [plaintext|].
  { intros E. inversion E; subst. split; [exact P01|].
    eexists. eapply grownBy_app; [exact G01|apply grownBy_emit]. }
  cbv beta iota.
  destruct (box_Open _ _ _ (currentDHPrivate from2)) as [plaintext|].
  - unfold rotate.
    destruct (io_ReadFull _ 32) as [[fresh rd]|]; [|discriminate].
    cbv beta iota delta [bind]. intros E. inversion E; subst. split.
    + eapply privatesOnly_trans; [exact P01|].
      apply (privatesOnly_ratchet fresh from2).
    + eexists. eapply grownBy_app; [exact G01|apply grownBy_emit2_read].
  - intros E. inversion E; subst. split; [exact P01|].
    eexists. eapply grownBy_app; [exact G01|apply grownBy_emit2].
Qed.

End DecryptFrames.

Section DecryptStages.

Context `{P : Primitives}.

Lemma ladder_events (sealed nonce : bytes) (pairs : list (bytes * bytes * bool)) :
  Forall (fun e => isBoxOpen e = true) (fst (ladder sealed nonce pairs)).
Proof.
  induction pairs as [|[[pub private] cur] rest IH]; [constructor|].
  cbn [ladder]. destruct (box_Open sealed nonce pub private).
  - repeat constructor.
  - destruct (ladder sealed nonce rest) as [attempts r]. cbn [fst] in *.
    constructor; [reflexivity|exact IH].
Qed.

(** The outcome of a stage: the ratchet step exactly when the box opened
    under [currentDHPrivate], the attempts recorded, the plaintext of the
    pairing that opened. *)
Lemma afterLadder_stepped (c c1 : client) (from from1 : Contact)
  (l : list event * option (bytes * bool)) (r : option bytes) :
  afterLadder c from l = Ok (r, from1, c1) ->
  stepped (snd l) (randReader c) from from1 (randReader c1)
  /\ c1 = set_randReader (randReader c1) (set_events (events c ++ fst l) c)
  /\ r = option_map fst (snd l).
Proof.
  unfold afterLadder, stepped.
  destruct l as [attempts [[plaintext [|]]|]]; cbn [fst snd usedCurrent].
  - destruct (io_ReadFull (randReader c) 32) as [[fresh rd]|] eqn:E;
      [|discriminate].
    intros H. injection H as <- <- <-.
    split; [exists fresh; split; reflexivity|].
    split; [destruct c; reflexivity|reflexivity].
  - intros H. injection H as <- <- <-.
    split; [split; [|destruct c]; reflexivity|].
    split; [destruct c; reflexivity|reflexivity].
  - intros H. injection H as <- <- <-.
    split; [split; [|destruct c]; reflexivity|].
    split; [destruct c; reflexivity|reflexivity].
Qed.

Lemma stage_compose (c c1 c2 : client) (evs1 evs2 : list event) :
  c1 = set_randReader (randReader c1) (set_events (events c ++ evs1) c) ->
  c2 = set_randReader (randReader c2) (set_events (events c1 ++ evs2) c1) ->
  c2 = set_randReader (randReader c2)
         (set_events (events c ++ evs1 ++ evs2) c).
Proof.
  intros H1 H2. rewrite H2. rewrite H1.
  destruct c. cbn [set_randReader set_events events randReader rand generation
                   groupPriv prevGroupPrivs contacts inbox outbox queue priv
                   server].
  rewrite <- app_assoc. reflexivity.
Qed.

(** The third stage of the code, the two calls of [box.Open] under the
    ephemeral value, is the ladder over [ephemeralPairs]. *)
Lemma ephemeral_stage (c : client) (sealed innerNonce publicBytes : bytes)
  (from : Contact) :
  (let ephemeralPublicKey := copy_at (make 32) 0 publicBytes in
   let '(r, c) :=
     tryOpen c sealed innerNonce ephemeralPublicKey (lastDHPrivate from) in
   match r with
   | Some plaintext => Ok (Some plaintext, from, c)
   | None =>
     let '(r, c) :=
       tryOpen c sealed innerNonce ephemeralPublicKey (currentDHPrivate from) in
     match r with
     | None => Ok (None, from, c)
     | Some plaintext =>
       '(from, c) <- rotate from c ;;
       Ok (Some plaintext, from, c)
     end
   end)
  = afterLadder c from (ladder sealed innerNonce (ephemeralPairs publicBytes from)).
Proof.
  unfold afterLadder, tryOpen, ephemeralPairs, rotate, ratchet, emit.
  cbn [ladder]. cbv zeta.
  destruct (box_Open sealed innerNonce (copy_at (make 32) 0 publicBytes)
              (lastDHPrivate from)); [reflexivity|].
  destruct (box_Open sealed innerNonce (copy_at (make 32) 0 publicBytes)
              (currentDHPrivate from)); cbn [fst snd isSome].
  - cbn [randReader set_events].
    destruct (io_ReadFull (randReader c) 32) as [[fresh rd]|];
      cbv beta iota delta [bind]; [|reflexivity].
    cbn [events set_events]. rewrite <- !app_assoc. reflexivity.
  - cbn [events set_events]. rewrite <- !app_assoc. reflexivity.
Qed.

(** [decryptMessage] is unsealing as steps 2 to 4 of §4.2 describe it. *)
Lemma decryptMessage_unsealStages (c : client) (sealed nonce : bytes)
  (from : Contact) :
  decryptMessage c sealed nonce from = unsealStages c sealed nonce from.
Proof.
  unfold decryptMessage, unsealStages. rewrite decryptMessageInner_spec.
  destruct (afterLadder c from _) as [[[r from1] c1]|]; [|reflexivity].
  cbv beta iota delta [bind].
  destruct r as [plaintext|]; [reflexivity|].
  destruct (ephemeralBlockLen - 24 <? length sealed); [|reflexivity].
  rewrite decryptMessageInner_spec.
  destruct (afterLadder c1 from1 _) as [[[h from2] c2]|]; [|reflexivity].
  cbv beta iota delta [bind].
  destruct h as [publicBytes|]; [|reflexivity].
  destruct (negb (length publicBytes =? 32)); [reflexivity|].
  cbv zeta.
  destruct (length (skipn (ephemeralBlockLen - 24) sealed) <? nonceLen);
    [reflexivity|].
  apply ephemeral_stage.
Qed.

(** What a call of [decryptMessage] that returns has done: three stages in
    turn, each followed by the ratchet step exactly when its box opened
    under [currentDHPrivate]; the attempts of the stages are the events it
    adds, and the plaintext is that of the first stage, or else of the
    third. *)
Lemma decryptMessage_stages (c c3 : client) (sealed nonce : bytes)
  (from from3 : Contact) (r : option bytes) :
  decryptMessage c sealed nonce from = Ok (r, from3, c3) ->
  exists from1 from2 rd1 rd2,
    stepped (snd (ladder sealed nonce (combinations from))) (randReader c)
      from from1 rd1
    /\ stepped (snd (headerLadder sealed nonce from)) rd1 from1 from2 rd2
    /\ stepped (snd (innerLadder sealed nonce from from2)) rd2 from2 from3
         (randReader c3)
    /\ c3
       = set_randReader (randReader c3)
           (set_events
              (events c
                 ++ fst (ladder sealed nonce (combinations from))
                 ++ fst (headerLadder sealed nonce from)
                 ++ fst (innerLadder sealed nonce from from2))
              c)
    /\ r
       = match snd (ladder sealed nonce (combinations from)) with
         | Some (plaintext, _) => Some plaintext
         | None => option_map fst (snd (innerLadder sealed nonce from from2))
         end.
Proof.
  rewrite decryptMessage_unsealStages. unfold unsealStages.
  intros H.
  destruct (afterLadder c from _) as [[[r1 from1] c1]|] eqn:E1;
    [|discriminate].
  cbv beta iota delta [bind] in H.
  apply afterLadder_stepped in E1. destruct E1 as (S1 & C1 & R1).
  unfold headerLadder, innerLadder, headerLadder.
  destruct (snd (ladder sealed nonce (combinations from)))
    as [[plaintext cur]|] eqn:Eo.
  - cbn [option_map fst] in R1. subst r1. injection H as <- <- <-.
    cbn [snd fst].
    exists from1, from1, (randReader c1), (randReader c1).
    split; [exact S1|]. split; [split; reflexivity|].
    split; [split; reflexivity|].
    split; [rewrite !app_nil_r; exact C1|reflexivity].
  - cbn [option_map] in R1. subst r1.
    unfold stepped in S1. cbn [usedCurrent] in S1. destruct S1 as [-> S1].
    destruct (ephemeralBlockLen - 24 <? length sealed).
    2:{ injection H as <- <- <-. cbn [snd fst].
        exists from, from, (randReader c1), (randReader c1).
        split; [split; [reflexivity|exact S1]|].
        split; [split; reflexivity|]. split; [split; reflexivity|].
        split; [rewrite !app_nil_r; exact C1|reflexivity]. }
    destruct (afterLadder c1 from _) as [[[h from2] c2]|] eqn:E2;
      [|discriminate].
    cbv beta iota delta [bind] in H.
    apply afterLadder_stepped in E2. destruct E2 as (S2 & C2 & R2).
    assert (Ev2 : c2
                  = set_randReader (randReader c2)
                      (set_events
                         (events c
                            ++ fst (ladder sealed nonce (combinations from))
                            ++ fst (ladder (firstn (ephemeralBlockLen - 24) sealed)
                                      nonce (combinations from)))
                         c)).
    { exact (@stage_compose _ _ _ _ _ C1 C2). }
    destruct (snd (ladder (firstn (ephemeralBlockLen - 24) sealed) nonce
                     (combinations from))) as [[publicBytes cur2]|] eqn:Eh.
    + cbn [option_map fst] in R2. subst h.
      destruct (Nat.eqb_spec (length publicBytes) 32) as [Hl|Hl];
        cbn [negb] in H.
      * cbv zeta in H.
        destruct (length (skipn (ephemeralBlockLen - 24) sealed) <? nonceLen);
          [discriminate|].
        apply afterLadder_stepped in H. destruct H as (S3 & C3 & R3).
        exists from, from2, (randReader c1), (randReader c2).
        split; [split; [reflexivity|exact S1]|].
        split; [exact S2|].
        split; [exact S3|].
        split; [|exact R3].
        pose proof (@stage_compose _ _ _ _ _ Ev2 C3) as Ev3.
        rewrite <- app_assoc in Ev3. exact Ev3.
      * injection H as <- <- <-.
        exists from, from2, (randReader c1), (randReader c2).
        split; [split; [reflexivity|exact S1]|].
        split; [exact S2|].
        split; [split; reflexivity|].
        split; [rewrite app_nil_r; exact Ev2|reflexivity].
    + cbn [option_map] in R2. subst h. injection H as <- <- <-.
      exists from, from2, (randReader c1), (randReader c2).
      split; [split; [reflexivity|exact S1]|].
      split; [exact S2|].
      split; [split; reflexivity|].
      split; [rewrite app_nil_r; exact Ev2|reflexivity].
Qed.

Lemma headerLadder_events (sealed nonce : bytes) (from : Contact) :
  Forall (fun e => isBoxOpen e = true) (fst (headerLadder sealed nonce from)).
Proof.
  unfold headerLadder.
  destruct (snd (ladder sealed nonce (combinations from))); [constructor|].
  destruct (_ <? _); [apply ladder_events|constructor].
Qed.

Lemma innerLadder_events (sealed nonce : bytes) (from from2 : Contact) :
  Forall (fun e => isBoxOpen e = true)
    (fst (innerLadder sealed nonce from from2)).
Proof.
  unfold innerLadder.
  destruct (snd (headerLadder sealed nonce from)) as [[publicBytes cur]|];
    [|constructor].
  destruct (_ =? _); [apply ladder_events|constructor].
Qed.

(** Decryption adds to the events its calls of [box.Open] and nothing
    else. *)
Lemma decryptMessage_opens (c c3 : client) (sealed nonce : bytes)
  (from from3 : Contact) (r : option bytes) :
  decryptMessage c sealed nonce from = Ok (r, from3, c3) ->
  exists opens,
    events c3 = events c ++ opens
    /\ Forall (fun e => isBoxOpen e = true) opens.
Proof.
  intros H. apply decryptMessage_stages in H.
  destruct H as (from1 & from2 & rd1 & rd2 & _ & _ & _ & C3 & _).
  exists (fst (ladder sealed nonce (combinations from))
            ++ fst (headerLadder sealed nonce from)
            ++ fst (innerLadder sealed nonce from from2)).
  split.
  - rewrite C3. reflexivity.
  - apply Forall_app. split; [apply ladder_events|].
    apply Forall_app.
    split; [apply headerLadder_events|apply innerLadder_events].
Qed.

End DecryptStages.

Section UnsealMessageFacts.

Context `{P : Primitives}.

Lemma copy_at_make_firstn (n : nat) (s : bytes) :
  n <= length s -> copy_at (make n) 0 s = firstn n s.
Proof.
  intros H. unfold copy_at. rewrite make_length. simpl.
  rewrite Nat.sub_0_r, skipn_all2 by (rewrite make_length; lia).
  apply app_nil_r.
Qed.

Lemma Z_of_byte_nonneg (b : byte) : (0 <= Z_of_byte b)%Z.
Proof. unfold Z_of_byte. apply N2Z.is_nonneg. Qed.

Lemma Uint32_nonneg (b : bytes) : (0 <= Uint32 b)%Z.
Proof.
  unfold Uint32.
  pose proof (Z_of_byte_nonneg (nth 0 b x00)).
  pose proof (proj2 (Z.shiftl_nonneg (Z_of_byte (nth 1 b x00)) 8)
                (Z_of_byte_nonneg _)).
  pose proof (proj2 (Z.shiftl_nonneg (Z_of_byte (nth 2 b x00)) 16)
                (Z_of_byte_nonneg _)).
  pose proof (proj2 (Z.shiftl_nonneg (Z_of_byte (nth 3 b x00)) 24)
                (Z_of_byte_nonneg _)).
  lia.
Qed.

Lemma ackOutbox_events (candidates : list queuedMessage) (i now : Z) :
  Forall (fun e => isBoxOpen e = false) (snd (ackOutbox candidates i now)).
Proof.
  induction candidates as [|q rest IH]; cbn [ackOutbox]; [constructor|].
  destruct (ackOutbox rest i now) as [rest' evs]. cbn [snd] in IH.
  destruct (qmId q =? i)%Z; cbn [snd]; [|exact IH].
  constructor; [reflexivity|exact IH].
Qed.

(** What [unsealMessage] does after decryption: it calls [box.Open] no
    more, keeps the private DH values, and when it refuses the message it
    logs one line and changes nothing else. *)
Lemma unsealMessage_tail (c c' : client) (im im' : InboxMessage)
  (from from' : Contact) (now : Z) (b : bool) :
  unsealMessage c im from now = Ok (b, im', from', c') ->
  exists r from1 c1 rest,
    decryptMessage c (skipn 24 (sealedBytes im))
      (firstn 24 (sealedBytes im)) from = Ok (r, from1, c1)
    /\ events c' = events c1 ++ rest
    /\ Forall (fun e => isBoxOpen e = false) rest
    /\ lastDHPrivate from' = lastDHPrivate from1
    /\ currentDHPrivate from' = currentDHPrivate from1
    /\ (b = false ->
        exists line,
          isLogLine line = true /\ c' = emit line c1
          /\ from' = from1 /\ im' = im).
Proof.
  unfold unsealMessage. intros H.
  destruct (isPending from); [discriminate|].
  destruct (Nat.ltb_spec (length (sealedBytes im)) 24); [discriminate|].
  rewrite copy_at_make_firstn in H by assumption.
  destruct (decryptMessage c _ _ from) as [[[r from1] c1]|]; [|discriminate].
  exists r, from1, c1.
  cbv beta iota delta [bind] in H.
  assert (D : forall e,
             isLogLine e = true ->
             Ok (false, im, from1, emit e c1) = Ok (b, im', from', c') ->
             exists rest,
               Ok (r, from1, c1) = Ok (r, from1, c1)
               /\ events c' = events c1 ++ rest
               /\ Forall (fun e => isBoxOpen e = false) rest
               /\ lastDHPrivate from' = lastDHPrivate from1
               /\ currentDHPrivate from' = currentDHPrivate from1
               /\ (b = false ->
                   exists line,
                     isLogLine line = true /\ c' = emit line c1
                     /\ from' = from1 /\ im' = im)).
  { intros e He E. injection E as <- <- <- <-. exists [e].
    split; [reflexivity|]. split; [reflexivity|].
    split; [constructor; [destruct e; try reflexivity; discriminate|constructor]|].
    split; [reflexivity|]. split; [reflexivity|].
    intros _. exists e. repeat split. exact He. }
  destruct r as [plaintext|]; [|refine (D _ _ H); reflexivity].
  destruct (length plaintext <? 4); [refine (D _ _ H); reflexivity|].
  destruct (_ || _); [refine (D _ _ H); reflexivity|].
  destruct (proto_Unmarshal_Message _) as [e|msg]; [refine (D _ _ H); reflexivity|].
  destruct (negb (length (MyNextDh msg) =? 32)); [refine (D _ _ H); reflexivity|].
  destruct (isDuplicate _ _ _ _) as [[|]|];
    [refine (D _ _ H); reflexivity| |discriminate].
  injection H as <- <- <- <-. clear D.
  exists (match InReplyTo msg with
          | Some i => snd (ackOutbox (outbox c1) i now)
          | None => []
          end).
  split; [reflexivity|].
  split; [|split; [|split; [|split; [|discriminate]]]].
  - destruct (InReplyTo msg) as [i|].
    + destruct (ackOutbox (outbox c1) i now) as [outbox' evs]. reflexivity.
    + symmetry. apply app_nil_r.
  - destruct (InReplyTo msg) as [i|]; [apply ackOutbox_events|constructor].
  - destruct (SupportedVersion msg), (negb (bytes_eqb _ _)); reflexivity.
  - destruct (SupportedVersion msg), (negb (bytes_eqb _ _)); reflexivity.
Qed.

(** C2. For every sender contact that is not pending and every sealed
    input, unsealing tries [box.Open] with the four pairings in the order
    last x last, current x last, last x current, current x current,
    stopping at the first that opens the box, and performs the ratchet step
    ([lastDHPrivate <- currentDHPrivate], [currentDHPrivate <-] 32 fresh
    random bytes) exactly when that pairing has [currentDHPrivate] as its
    private half.  This holds of each stage of unsealing: of the four
    pairings over the whole text, of the same four over the ephemeral
    header when none opened the whole text, and of the two pairings of the
    inner box when the header opened.  The calls of [box.Open] of a call of
    [unsealMessage] that returns are those of the three stages in turn and
    no other, and the private DH values it leaves are those of the three
    steps. *)
Theorem unseal_ladder_and_ratchet (c : client) (im : InboxMessage)
  (from : Contact) (now : Z) :
  isPending from = false ->
  24 <= length (sealedBytes im) ->
  let sealed := skipn 24 (sealedBytes im) in
  let nonce := firstn 24 (sealedBytes im) in
  let attempts := fst (ladder sealed nonce (combinations from)) in
  let opened := snd (ladder sealed nonce (combinations from)) in
  decryptMessageInner c sealed nonce from
  = afterLadder c from (ladder sealed nonce (combinations from))
  /\ decryptMessage c sealed nonce from = unsealStages c sealed nonce from
  /\ forall b im' from' c',
      unsealMessage c im from now = Ok (b, im', from', c') ->
      (exists rest, events c' = events c ++ attempts ++ rest)
      /\ match opened with
         | Some (_, false) =>
           lastDHPrivate from' = lastDHPrivate from
           /\ currentDHPrivate from' = currentDHPrivate from
         | Some (_, true) =>
           exists fresh rd,
             io_ReadFull (randReader c) 32 = Some (fresh, rd)
             /\ lastDHPrivate from' = currentDHPrivate from
             /\ currentDHPrivate from' = fresh
         | None =>
           (usedCurrent (snd (headerLadder sealed nonce from)) = false ->
            usedCurrent (snd (innerLadder sealed nonce from from)) = false ->
            lastDHPrivate from' = lastDHPrivate from
            /\ currentDHPrivate from' = currentDHPrivate from)
         end
      /\ exists from1 from2 from3 rd1 rd2 rd3 rest,
          stepped opened (randReader c) from from1 rd1
          /\ stepped (snd (headerLadder sealed nonce from)) rd1 from1 from2 rd2
          /\ stepped (snd (innerLadder sealed nonce from from2)) rd2
               from2 from3 rd3
          /\ lastDHPrivate from' = lastDHPrivate from3
          /\ currentDHPrivate from' = currentDHPrivate from3
          /\ events c'
             = events c ++ attempts
                 ++ fst (headerLadder sealed nonce from)
                 ++ fst (innerLadder sealed nonce from from2) ++ rest
          /\ Forall (fun e => isBoxOpen e = false) rest.
Proof.
  intros Hp Hl sealed nonce attempts opened.
  split; [apply decryptMessageInner_spec|].
  split; [apply decryptMessage_unsealStages|].
  intros b im' from' c' H.
  apply unsealMessage_tail in H.
  destruct H as (r & from3 & c3 & rest & Hd & Hev & Hrest & Hlast & Hcur & _).
  fold sealed nonce in Hd.
  pose proof (decryptMessage_stages _ _ _ _ Hd) as St.
  destruct St as (from1 & from2 & rd1 & rd2 & S1 & S2 & S3 & C3 & _).
  fold opened attempts in S1, C3.
  assert (Ev : events c'
               = events c ++ attempts
                   ++ fst (headerLadder sealed nonce from)
                   ++ fst (innerLadder sealed nonce from from2) ++ rest).
  { rewrite Hev, C3. cbn [events set_randReader set_events].
    rewrite <- !app_assoc. reflexivity. }
  split; [|split].
  - exists (fst (headerLadder sealed nonce from)
              ++ fst (innerLadder sealed nonce from from2) ++ rest).
    exact Ev.
  - destruct opened as [[plaintext cur]|] eqn:Eo.
    + unfold opened in Eo. rewrite (decryptMessage_direct _ _ _ _ Eo) in Hd.
      apply afterLadder_ok in Hd. destruct Hd as [_ Hd]. rewrite Eo in Hd.
      destruct cur.
      * destruct Hd as (_ & fresh & rd & Hr & ->).
        exists fresh, rd. rewrite Hlast, Hcur.
        destruct from; repeat split; assumption.
      * destruct Hd as [_ ->]. split; assumption.
    + intros U2 U3. unfold stepped in S1, S2, S3.
      cbn [usedCurrent] in S1. destruct S1 as [-> _].
      rewrite U2 in S2. destruct S2 as [-> _].
      rewrite U3 in S3. destruct S3 as [-> _].
      split; assumption.
  - exists from1, from2, from3, rd1, rd2, (randReader c3), rest.
    repeat split; assumption.
Qed.

(** C5, as amended. When the decrypted payload of an inbound message
    carries a [my_next_dh] whose length is not 32, the message is dropped:
    [unsealMessage] returns false, logs the bad length and leaves the inbox
    message untouched.  The contact is as decryption left it: nothing but
    the two private DH values can have changed, and these have gone through
    one ratchet step for each box that opened under [currentDHPrivate]: the
    whole text, the ephemeral header, the inner box.  The contact is
    unchanged when none of the three did. *)
Theorem unseal_bad_dh_length (c c1 : client) (im : InboxMessage)
  (from from1 : Contact) (now : Z) (plaintext : bytes) (msg : Message) :
  isPending from = false ->
  24 <= length (sealedBytes im) ->
  let sealed := skipn 24 (sealedBytes im) in
  let nonce := firstn 24 (sealedBytes im) in
  decryptMessage c sealed nonce from = Ok (Some plaintext, from1, c1) ->
  wellFramed plaintext ->
  proto_Unmarshal_Message (payload plaintext) = inr msg ->
  length (MyNextDh msg) <> 32 ->
  unsealMessage c im from now
  = Ok (false, im, from1,
        emit (LogErrorf "Message from %s with bad DH length %d") c1)
  /\ privatesOnly from from1
  /\ (forall p,
        snd (ladder sealed nonce (combinations from)) = Some (p, false) ->
        from1 = from)
  /\ (forall p,
        snd (ladder sealed nonce (combinations from)) = Some (p, true) ->
        exists fresh rd,
          io_ReadFull (randReader c) 32 = Some (fresh, rd)
          /\ from1 = ratchet fresh from)
  /\ (exists fromA fromB rd1 rd2,
        stepped (snd (ladder sealed nonce (combinations from)))
          (randReader c) from fromA rd1
        /\ stepped (snd (headerLadder sealed nonce from)) rd1 fromA fromB rd2
        /\ stepped (snd (innerLadder sealed nonce from fromB)) rd2
             fromB from1 (randReader c1))
  /\ (usedCurrent (snd (ladder sealed nonce (combinations from))) = false ->
      usedCurrent (snd (headerLadder sealed nonce from)) = false ->
      usedCurrent (snd (innerLadder sealed nonce from from)) = false ->
      from1 = from).
Proof.
  intros Hp Hl sealed nonce Hd [Hf1 Hf2] Hm Hdh.
  pose proof (decryptMessage_stages _ _ _ _ Hd) as St.
  destruct St as (fromA & fromB & rd1 & rd2 & S1 & S2 & S3 & _ & _).
  fold sealed nonce in S1, S2, S3.
  split; [|split; [|split; [|split; [|split]]]].
  - unfold unsealMessage. rewrite Hp.
    destruct (Nat.ltb_spec (length (sealedBytes im)) 24); [lia|].
    rewrite copy_at_make_firstn by assumption.
    fold sealed nonce. rewrite Hd. cbv beta iota delta [bind].
    destruct (Nat.ltb_spec (length plaintext) 4); [lia|].
    pose proof (Uint32_nonneg (firstn 4 plaintext)) as Hn.
    destruct (Z.ltb_spec (Uint32 (firstn 4 plaintext)) 0); [lia|].
    rewrite length_skipn.
    destruct (Z.ltb_spec (Z.of_nat (length plaintext - 4))
                (Uint32 (firstn 4 plaintext))); [lia|].
    simpl orb. cbv beta iota. unfold payload in Hm. rewrite Hm.
    destruct (Nat.eqb_spec (length (MyNextDh msg)) 32); [contradiction|].
    reflexivity.
  - apply decryptMessage_frame in Hd. apply Hd.
  - intros p Ho. rewrite (decryptMessage_direct _ _ _ _ Ho) in Hd.
    apply afterLadder_ok in Hd. destruct Hd as [_ Hd]. rewrite Ho in Hd.
    apply Hd.
  - intros p Ho. rewrite (decryptMessage_direct _ _ _ _ Ho) in Hd.
    apply afterLadder_ok in Hd. destruct Hd as [_ Hd]. rewrite Ho in Hd.
    apply Hd.
  - exists fromA, fromB, rd1, rd2. repeat split; assumption.
  - intros U1 U2 U3. unfold stepped in S1, S2, S3.
    rewrite U1 in S1. destruct S1 as [-> _].
    rewrite U2 in S2. destruct S2 as [-> _].
    rewrite U3 in S3. destruct S3 as [-> _]. reflexivity.
Qed.

End UnsealMessageFacts.

Section FetchFacts.

Context `{P : Primitives}.

Lemma verifiedByPrevious_found (prevs : list previousGroupPrivateKey)
  (digest sig : bytes) :
  Forall (fun prev => prevPriv prev <> None) prevs ->
  (exists prev k,
      In prev prevs /\ prevPriv prev = Some k
      /\ PrivateKey_Verify k digest sig = true) ->
  verifiedByPrevious prevs digest sig = Ok true.
Proof.
  induction prevs as [|prev rest IH]; intros Hall (p & k & Hin & Hk & Hv).
  - contradiction.
  - inversion Hall as [|? ? Hp Hrest]; subst. simpl.
    destruct (prevPriv prev) as [k0|] eqn:E0; [|contradiction]. simpl.
    destruct (PrivateKey_Verify k0 digest sig) eqn:V0; [reflexivity|].
    apply IH; [assumption|].
    destruct Hin as [<-|Hin].
    + rewrite E0 in Hk. inversion Hk; subst. congruence.
    + eauto.
Qed.

Lemma verifiedByPrevious_none (prevs : list previousGroupPrivateKey)
  (digest sig : bytes) :
  Forall (fun prev => prevPriv prev <> None) prevs ->
  (forall prev k,
      In prev prevs -> prevPriv prev = Some k ->
      PrivateKey_Verify k digest sig = false) ->
  verifiedByPrevious prevs digest sig = Ok false.
Proof.
  induction prevs as [|prev rest IH]; intros Hall Hno; [reflexivity|].
  inversion Hall as [|? ? Hp Hrest]; subst. simpl.
  destruct (prevPriv prev) as [k0|] eqn:E0; [|contradiction]. simpl.
  rewrite (Hno prev k0 (or_introl eq_refl) E0).
  apply IH; [assumption|]. intros p k Hin. apply Hno. right. exact Hin.
Qed.

(** C7. When the group signature of a fetched message does not verify
    under the current group private key but verifies under some entry of
    [prevGroupPrivs], the tag is the one [Open] extracts with the current
    group private key, and processing goes on with it; when it verifies
    under no key the message is dropped, leaving only a log line. *)
Theorem fetch_opens_with_current_key (c : client) (f : Fetched) (now : Z) :
  let digest := sha256 (FetchedMessage f) in
  let sig := FetchedSignature f in
  PrivateKey_Verify (groupPriv c) digest sig = false ->
  retainedKeysPresent c ->
  (verifiesUnderPrevious c digest sig ->
   openTag c digest sig = Ok (Some (PrivateKey_Open (groupPriv c) sig))
   /\ processFetch c f now
      = if negb (snd (PrivateKey_Open (groupPriv c) sig)) then
          Ok (emit (LogErrorf "Failed to open group signature") c)
        else deliverFetched c f now (fst (PrivateKey_Open (groupPriv c) sig)))
  /\ (verifiesUnderNoPrevious c digest sig ->
      processFetch c f now
      = Ok (emit (LogErrorf "Received message with bad group signature!") c)).
Proof.
  intros digest sig Hcur Hall. split.
  - intros Hprev.
    assert (E : openTag c digest sig
                = Ok (Some (PrivateKey_Open (groupPriv c) sig))).
    { unfold openTag. rewrite Hcur.
      rewrite (verifiedByPrevious_found _ _ Hall Hprev). reflexivity. }
    split; [exact E|].
    unfold processFetch. fold digest sig. rewrite E. simpl.
    destruct (PrivateKey_Open (groupPriv c) sig) as [t ok]. reflexivity.
  - intros Hno. unfold processFetch, openTag. fold digest sig.
    rewrite Hcur, (verifiedByPrevious_none _ _ Hall Hno). reflexivity.
Qed.

(** *** Panics of the fetch path *)

Lemma benign_Ok {A} (a : A) : benign (Ok a).
Proof. discriminate. Qed.

Lemma benign_bind {A B} (m : outcome A) (k : A -> outcome B) :
  benign m -> (forall a, m = Ok a -> benign (k a)) -> benign (bind m k).
Proof.
  intros Hm Hk. destruct m as [a|msg]; simpl.
  - apply Hk. reflexivity.
  - intros E. apply Hm. inversion E. reflexivity.
Qed.

Lemma benign_deref {A} (p : option A) : benign (deref p).
Proof. destruct p; discriminate. Qed.

Lemma benign_rotate (from : Contact) (c : client) : benign (rotate from c).
Proof.
  unfold rotate. destruct (io_ReadFull (randReader c) 32) as [[? ?]|];
    discriminate.
Qed.

Lemma benign_decryptMessageInner (c : client) (sealed nonce : bytes)
  (from : Contact) : benign (decryptMessageInner c sealed nonce from).
Proof.
  rewrite decryptMessageInner_spec. unfold afterLadder.
  destruct (snd _) as [[? [|]]|]; try discriminate.
  destruct (io_ReadFull (randReader c) 32) as [[? ?]|]; discriminate.
Qed.

Lemma benign_decryptMessage (c : client) (sealed nonce : bytes)
  (from : Contact) : benign (decryptMessage c sealed nonce from).
Proof.
  unfold decryptMessage.
  apply benign_bind; [apply benign_decryptMessageInner|].
  intros [[r from0] c0] _. destruct r; [apply benign_Ok|].
  destruct (_ <? length sealed); [|apply benign_Ok].
  apply benign_bind; [apply benign_decryptMessageInner|].
  intros [[r from1] c1] _. destruct r as [publicBytes|]; [|apply benign_Ok].
  destruct (negb _); [apply benign_Ok|].
  destruct (_ <? nonceLen); [discriminate|].
  unfold tryOpen. destruct (box_Open _ _ _ (lastDHPrivate from1));
    [apply benign_Ok|].
  cbv beta iota.
  destruct (box_Open _ _ _ (currentDHPrivate from1)); [|apply benign_Ok].
  apply benign_bind; [apply benign_rotate|].
  intros [? ?] _. apply benign_Ok.
Qed.

Lemma benign_isDuplicate (candidates : list InboxMessage) (fromId i : Z)
  (msg : Message) : benign (isDuplicate candidates fromId i msg).
Proof.
  induction candidates as [|candidate rest IH]; simpl; [apply benign_Ok|].
  destruct (_ && _); [|exact IH].
  destruct (inboxMessage candidate) as [cm|]; [|exact IH].
  apply benign_bind; [apply benign_deref|]. intros a _.
  apply benign_bind; [apply benign_deref|]. intros b _.
  destruct (a =? b)%Z; [apply benign_Ok|exact IH].
Qed.

(** The guard of [unsealMessage] is the only source of its panic. *)
Lemma benign_unsealMessage (c : client) (im : InboxMessage) (from : Contact)
  (now : Z) :
  isPending from = false -> benign (unsealMessage c im from now).
Proof.
  intros Hp. unfold unsealMessage. rewrite Hp.
  destruct (_ <? 24); [discriminate|].
  apply benign_bind; [apply benign_decryptMessage|].
  intros [[r from1] c1] _. destruct r as [plaintext|]; [|apply benign_Ok].
  destruct (_ <? 4); [apply benign_Ok|].
  destruct (_ || _); [apply benign_Ok|].
  destruct (proto_Unmarshal_Message _) as [e|msg]; [apply benign_Ok|].
  destruct (negb _); [apply benign_Ok|].
  apply benign_bind; [apply benign_isDuplicate|].
  intros [|] _; apply benign_Ok.
Qed.

Lemma benign_randId (c : client) : benign (randId c).
Proof.
  unfold randId, randBytes.
  destruct (io_ReadFull (rand c) 8) as [[? ?]|]; discriminate.
Qed.

Lemma benign_deliverFetched (c : client) (f : Fetched) (now : Z) (t : bytes) :
  benign (deliverFetched c f now t).
Proof.
  unfold deliverFetched.
  destruct (findSender (contacts c) t) as [from|]; [|apply benign_Ok].
  destruct (revoked from); [apply benign_Ok|].
  destruct (_ <? _); [apply benign_Ok|].
  apply benign_bind; [apply benign_randId|].
  intros [i c1] _. destruct (isPending from) eqn:Hp; simpl negb; cbv iota.
  - apply benign_Ok.
  - apply benign_bind; [apply benign_unsealMessage; exact Hp|].
    intros [[[ok im] from1] c2] _. destruct (negb ok); [apply benign_Ok|].
    apply benign_bind; [apply benign_deref|]. intros msg _.
    apply benign_bind; [|intros; apply benign_Ok].
    destruct (0 <? _); [|apply benign_Ok].
    apply benign_bind; [apply benign_deref|]. intros; apply benign_Ok.
Qed.

Lemma benign_verifiedByPrevious (prevs : list previousGroupPrivateKey)
  (digest sig : bytes) : benign (verifiedByPrevious prevs digest sig).
Proof.
  induction prevs as [|prev rest IH]; simpl; [apply benign_Ok|].
  apply benign_bind; [apply benign_deref|]. intros k _.
  destruct (PrivateKey_Verify k digest sig); [apply benign_Ok|exact IH].
Qed.

Lemma benign_processFetch (c : client) (f : Fetched) (now : Z) :
  benign (processFetch c f now).
Proof.
  unfold processFetch, openTag.
  apply benign_bind.
  - destruct (PrivateKey_Verify _ _ _); [apply benign_Ok|].
    apply benign_bind; [apply benign_verifiedByPrevious|].
    intros [|] _; apply benign_Ok.
  - intros [[t ok]|] _; [|apply benign_Ok].
    destruct (negb ok); [apply benign_Ok|apply benign_deliverFetched].
Qed.

(** C9. [unsealMessage] is never invoked on a pending contact: called on
    one, it panics, whatever the contact and the message; the fetch path
    never runs into that panic, and for a sender that is pending it stores
    the message sealed, marks it pending in the inbox list and touches
    nothing else. *)
Theorem unseal_never_on_pending :
  (forall (c : client) (im : InboxMessage) (from : Contact) (now : Z),
      isPending from = true ->
      unsealMessage c im from now
      = Panic "was asked to unseal message from pending contact")
  /\ (forall (c : client) (f : Fetched) (now : Z),
        processFetch c f now
        <> Panic "was asked to unseal message from pending contact")
  /\ (forall (c c1 : client) (f : Fetched) (now i : Z) (t : bytes)
        (from : Contact),
        findSender (contacts c) t = Some from ->
        isPending from = true ->
        revoked from = false ->
        box_Overhead + 24 <= length (FetchedMessage f) ->
        randId c = Ok (i, c1) ->
        deliverFetched c f now t = Ok (storedPending c1 f now i from)).
Proof.
  split; [|split].
  - intros c im from now Hp. unfold unsealMessage. rewrite Hp. reflexivity.
  - intros c f now. apply benign_processFetch.
  - intros c c1 f now i t from Hf Hp Hr Hl Hi. unfold deliverFetched.
    rewrite Hf, Hr.
    destruct (Nat.ltb_spec (length (FetchedMessage f)) (box_Overhead + 24));
      [lia|].
    rewrite Hi. simpl. rewrite Hp. reflexivity.
Qed.

End FetchFacts.

Section SentFacts.

Context `{P : Primitives}.

Lemma copy_count_long (n : nat) (s : bytes) :
  n <= length s -> copy_count n s = n.
Proof. unfold copy_count. lia. Qed.

Lemma copy_count_firstn (n : nat) (s : bytes) :
  n <= length s -> copy_count n (firstn n s) = n.
Proof. intros H. unfold copy_count. rewrite length_firstn. lia. Qed.

Lemma copy_at_make_firstn_firstn (n : nat) (s : bytes) :
  n <= length s -> copy_at (make n) 0 (firstn n s) = copy_at (make n) 0 s.
Proof.
  intros H. rewrite (@copy_at_make_firstn n s H).
  rewrite copy_at_make_firstn by (rewrite length_firstn; lia).
  rewrite firstn_firstn, Nat.min_id. reflexivity.
Qed.

(** A signature shorter than [ed25519.SignatureSize] is refused: once the
    generation matches and the revocation is marshalled, the handler only
    logs. *)
Lemma processMessageSent_short_signature (c : client)
  (msr : messageSendResult) (now : Z) (revocation : SignedRevocation)
  (body : SignedRevocation_Revocation) (msg : queuedMessage) (to : Contact)
  (revBytes : bytes) :
  msrRevocation msr = Some revocation ->
  find (fun m => (qmId m =? msrId msr)%Z) (outbox c) = Some msg ->
  lookupContact (contacts c) (qmTo msg) = Some to ->
  SRRevocation revocation = Some body ->
  RevGeneration body = Some (contactGeneration to) ->
  proto_Marshal_Revocation body = inr revBytes ->
  length (SRSignature revocation) < 64 ->
  processMessageSent c msr now
  = Ok (emit (LogPrintf "Bad signature length on revocation (%d bytes) from %s")
          c).
Proof.
  intros Hr Hm Ht Hb Hg Hmar Hl. unfold processMessageSent.
  rewrite Hr, Hm. simpl. rewrite Ht, Hb. simpl. rewrite Hg. simpl.
  rewrite Z.eqb_refl. simpl. rewrite Hmar.
  unfold copy_count, ed25519_SignatureSize.
  destruct (Nat.eqb_spec (Nat.min 64 (length (SRSignature revocation))) 64);
    [lia|].
  reflexivity.
Qed.

(** C4 fails on the code for signatures that are too long.  The length
    check compares the count that [copy] returns, which is 64 for every
    signature of 64 bytes or more: a revocation whose signature is longer
    than 64 bytes is handled exactly as the same revocation with the
    signature cut to its first 64 bytes. *)
Theorem processMessageSent_long_signature (c : client)
  (msr : messageSendResult) (now : Z) (revocation : SignedRevocation) :
  msrRevocation msr = Some revocation ->
  64 < length (SRSignature revocation) ->
  processMessageSent c msr now
  = processMessageSent c
      (mkMessageSendResult (msrId msr)
         (Some (mkSignedRevocation (SRRevocation revocation)
                  (firstn 64 (SRSignature revocation)))))
      now.
Proof.
  intros Hr Hl. unfold processMessageSent. rewrite Hr.
  cbn [msrRevocation msrId SRRevocation SRSignature].
  unfold ed25519_SignatureSize.
  rewrite copy_count_long, copy_count_firstn, copy_at_make_firstn_firstn
    by lia.
  reflexivity.
Qed.

End SentFacts.

Section TransactFacts.

Context `{P : Primitives}.

(** C6 fails on the code for a reply that carries the status OK on the
    wire.  After a send, a reply without a status takes the sent message
    off the tail of the queue, where the rotation put it, and posts its id
    on the message-sent channel (nothing having been enqueued in between);
    a reply whose status field is present and is OK, which [replyToError]
    also takes for success, leaves the message in the queue and posts
    nothing. *)
Theorem transaction_send_reply (c : client) (head : queuedMessage)
  (rest : list queuedMessage) (reply : Reply) :
  queue c = head :: rest ->
  let rotated :=
    emit (LogPrintf "Starting message transmission to %s")
      (set_queue (rest ++ [head]) c) in
  (Status reply = None ->
   replyToError reply = None
   /\ transaction c (Replied reply) []
      = Ok (emit (MessageSentChan (mkMessageSendResult (qmId head) None))
              (set_queue rest rotated)))
  /\ (Status reply = Some Reply_OK ->
      replyToError reply = None
      /\ transaction c (Replied reply) [] = Ok rotated).
Proof.
  intros Hq rotated. split; intros Hs.
  - assert (E : replyToError reply = None)
      by (unfold replyToError; rewrite Hs; reflexivity).
    split; [exact E|].
    unfold transaction. rewrite Hq, Hs, E. simpl.
    unfold dropTail. rewrite app_nil_r.
    destruct (rest ++ [head]) as [|x l] eqn:El.
    { destruct rest; discriminate El. }
    rewrite <- El, removelast_last. reflexivity.
  - assert (E : replyToError reply = None)
      by (unfold replyToError; rewrite Hs; reflexivity).
    split; [exact E|].
    unfold transaction. rewrite Hq, Hs, E. simpl.
    rewrite app_nil_r. reflexivity.
Qed.

(** The removal takes whatever is at the tail: when the orchestrator has
    enqueued an entry while the worker was on the network, a reply without
    a status removes that entry and leaves the sent message queued. *)
Lemma transaction_removes_newest (c : client) (head newest : queuedMessage)
  (rest earlier : list queuedMessage) (reply : Reply) :
  queue c = head :: rest ->
  Status reply = None ->
  exists c',
    transaction c (Replied reply) (earlier ++ [newest]) = Ok c'
    /\ queue c' = (rest ++ [head]) ++ earlier.
Proof.
  intros Hq Hs.
  assert (E : replyToError reply = None)
    by (unfold replyToError; rewrite Hs; reflexivity).
  unfold transaction. rewrite Hq, Hs, E. simpl.
  unfold dropTail. rewrite app_assoc.
  destruct (((rest ++ [head]) ++ earlier) ++ [newest]) as [|x l] eqn:El.
  { destruct ((rest ++ [head]) ++ earlier); discriminate El. }
  rewrite <- El, removelast_last. simpl. eauto.
Qed.

End TransactFacts.

Module TransferFacts.

Import Transfer.

Lemma wrapInt64_small (z : Z) :
  (- 2 ^ 63 <= z < 2 ^ 63)%Z -> wrapInt64 z = z.
Proof.
  intros H. unfold wrapInt64.
  rewrite Z.mod_small by lia. lia.
Qed.

Lemma moved_nonneg (chunks : list chunkEvent) :
  Forall wholeChunk chunks -> (0 <= moved chunks)%Z.
Proof.
  induction 1 as [|e rest He _ IH]; simpl; [lia|].
  destruct e as [| | |n [|w now]]; try contradiction.
  destruct He as [-> ?]. lia.
Qed.

(** The copy loop, fed whole chunks that together exceed what the guard
    allows, returns the error of the guard at the first chunk that takes
    the count above [total]: [pre] are the chunks before it, [n] is its
    size.  After each chunk of [pre] the loop went on, with a count within
    [total]. *)
Lemma stream_overshoot_at (upload : bool) (id : Z) (chunks : list chunkEvent) :
  forall (more : list chunkEvent) (lastUpdate : option Z) (st : state),
    Forall wholeChunk chunks ->
    chunks <> [] ->
    (0 <= transferred st)%Z ->
    (total st < transferred st + moved chunks)%Z ->
    (transferred st + moved chunks < 2 ^ 63)%Z ->
    exists pre n now post st',
      chunks = pre ++ ReadOK n (Written n now) :: post
      /\ stream upload id (chunks ++ more) lastUpdate st
         = StreamReturn st' (TransferErr tooMuch)
      /\ total st' = total st
      /\ transferred st' = (transferred st + moved pre + n)%Z
      /\ (total st < transferred st')%Z
      /\ (forall k,
            0 < k <= length pre ->
            (transferred st + moved (firstn k pre) <= total st)%Z)
      /\ (transferred st + moved pre
          <= Z.max (transferred st) (total st))%Z.
Proof.
  induction chunks as [|e rest IH];
    intros more lastUpdate st Hall Hne H0 Hover Hmax; [contradiction|].
  assert (He : wholeChunk e) by (inversion Hall; assumption).
  assert (Hrest : Forall wholeChunk rest) by (inversion Hall; assumption).
  destruct e as [| | |sz [|w now]]; try contradiction.
  destruct He as [-> Hn]. simpl in Hover, Hmax.
  pose proof (moved_nonneg Hrest) as Hm.
  cbn [app stream]. rewrite wrapInt64_small by (cbn [transferred]; lia).
  cbn [total transferred set_transferred].
  destruct (Z.ltb_spec (total st) (transferred st + sz)) as [Hfire|Hpass].
  - exists [], sz, now, rest,
      (log tooMuch (set_transferred (transferred st + sz) st)).
    cbn [app moved length log set_transferred total transferred].
    split; [reflexivity|]. split; [reflexivity|]. split; [reflexivity|].
    split; [lia|]. split; [lia|]. split; [intros k Hk; lia|lia].
  - assert (Hne' : rest <> []).
    { intros ->. simpl in Hover. lia. }
    assert (Step : forall st2 lu,
               transferred st2 = (transferred st + sz)%Z ->
               total st2 = total st ->
               exists pre n now0 post st',
                 ReadOK sz (Written sz now) :: rest
                 = pre ++ ReadOK n (Written n now0) :: post
                 /\ stream upload id (rest ++ more) lu st2
                    = StreamReturn st' (TransferErr tooMuch)
                 /\ total st' = total st
                 /\ transferred st' = (transferred st + moved pre + n)%Z
                 /\ (total st < transferred st')%Z
                 /\ (forall k,
                       0 < k <= length pre ->
                       (transferred st + moved (firstn k pre) <= total st)%Z)
                 /\ (transferred st + moved pre
                     <= Z.max (transferred st) (total st))%Z).
    { intros st2 lu Htr Htot.
      destruct (IH more lu st2 Hrest Hne')
        as (pre & n & now0 & post & st' & Ec & E & Ht & Hs & Hf & Hk & Hx);
        try (rewrite ?Htr, ?Htot; lia).
      exists (ReadOK sz (Written sz now) :: pre), n, now0, post, st'.
      rewrite Htr, Htot in *.
      split; [rewrite Ec; reflexivity|]. split; [exact E|].
      split; [exact Ht|].
      cbn [moved]. split; [lia|]. split; [lia|]. split.
      - intros k Hk'. destruct k as [|k]; [lia|].
        cbn [firstn moved]. cbn [length] in Hk'.
        destruct k as [|k].
        + cbn [firstn moved]. lia.
        + specialize (Hk (S k)). lia.
      - destruct pre as [|p pre'].
        + cbn [moved]. lia.
        + specialize (Hk (length (p :: pre'))).
          rewrite firstn_all in Hk. cbn [length] in Hk. lia. }
    match goal with
    | |- context [if ?d then _ else _] => destruct d
    end; apply Step; reflexivity.
Qed.

(** The state in which the copy loop of an attempt is entered: the
    counter is the one the attempts before left, the total is the remainder
    from the resume offset of this attempt's reply. *)
Lemma upload_attempt_entry (ut : uploadTransfer) (id : Z) (reply : Reply)
  (st : state) (trailer : option byte) :
  Status reply = None ->
  resumeOffset reply <> utTotal ut ->
  exists st',
    attemptOnce ut id (Exchange reply (resumeOffset reply, false) [] trailer) st
    = Pending st'
    /\ transferred st' = transferred st
    /\ total st' = wrapInt64 (utTotal ut - resumeOffset reply).
Proof.
  intros Hs Hr. unfold attemptOnce, isResumePastEnd, replyToError.
  rewrite Hs. simpl. unfold uploadProcessReply.
  destruct (Z.eqb_spec (resumeOffset reply) (utTotal ut)); [contradiction|].
  rewrite Z.eqb_refl. simpl. eexists. repeat split.
Qed.

(** C10, as amended. Across the attempts of one upload the counter
    [transferred] is carried over and never reset, while [total] is set on
    each attempt to the bytes that remain from the resume offset of the
    server's reply.  So when the first attempt has moved at least one byte
    and ended in a restart, and the server then asks to resume at an offset
    [r] with 0 < r < size, an attempt that goes on to copy the remaining
    size - r bytes in whole chunks is stopped by the guard at the first
    chunk that takes the count above size - r: the transfer returns
    "transferred more than the expected amount"; after each chunk before
    that one the loop went on with a count of at most size - r, which is
    below the size of the file.  When the server asks to resume at the size
    of the file itself, the attempt is complete at once and the transfer
    returns without an error. *)
Theorem resumed_upload_aborts (ut : uploadTransfer) (id : Z) (first : attempt)
  (st1 : state) (reply : Reply) (trailer : option byte)
  (rest : list attempt) :
  let size := utTotal ut in
  let r := resumeOffset reply in
  attemptOnce ut id first initialState = Again st1 ->
  (1 <= transferred st1 < 2 ^ 62)%Z ->
  Status reply = None ->
  (size < 2 ^ 62)%Z ->
  ((0 < r < size)%Z ->
   (exists st2,
       attemptOnce ut id (Exchange reply (r, false) [] trailer) st1
       = Pending st2
       /\ transferred st2 = transferred st1
       /\ total st2 = (size - r)%Z)
   /\ forall chunks more : list chunkEvent,
       Forall wholeChunk chunks ->
       moved chunks = (size - r)%Z ->
       exists pre n now post st',
         chunks = pre ++ ReadOK n (Written n now) :: post
         /\ transferDetachment ut id
              (first :: Exchange reply (r, false) (chunks ++ more) trailer
                 :: rest)
            = Returned st'
                (Some
                   (TransferErr "transferred more than the expected amount"))
         /\ total st' = (size - r)%Z
         /\ transferred st' = (transferred st1 + moved pre + n)%Z
         /\ (size - r < transferred st')%Z
         /\ (forall k,
               0 < k <= length pre ->
               (transferred st1 + moved (firstn k pre) <= size - r)%Z
               /\ (transferred st1 + moved (firstn k pre) < size)%Z)
         /\ (transferred st1 + moved pre
             <= Z.max (transferred st1) (size - r))%Z
         /\ ((transferred st1 < size)%Z ->
             (transferred st1 + moved pre < size)%Z))
  /\ (r = size ->
      forall (seek : Z * bool) (chunks : list chunkEvent),
      exists st',
        transferDetachment ut id
          (first :: Exchange reply seek chunks trailer :: rest)
        = Returned st' None
        /\ transferred st' = transferred st1).
Proof.
  intros size r Hfirst Ht Hs Hsize. split.
  - intros Hr. split.
    + destruct (@upload_attempt_entry ut id reply st1 trailer Hs)
        as (st2 & E & H1 & H2); [fold r size; lia|].
      exists st2. fold r size in E, H2.
      rewrite wrapInt64_small in H2 by lia. auto.
    + intros chunks more Hall Hsum.
      unfold transferDetachment. simpl transferLoop. rewrite Hfirst.
      unfold attemptOnce, isResumePastEnd, replyToError. rewrite Hs. simpl.
      unfold uploadProcessReply. fold r size.
      destruct (Z.eqb_spec r size) as [Heq|Hneq]; [lia|].
      rewrite Z.eqb_refl. simpl.
      rewrite wrapInt64_small by lia.
      assert (Hne : chunks <> []).
      { intros ->. simpl in Hsum. lia. }
      match goal with
      | |- context [stream true id (chunks ++ more) None ?s] =>
        destruct (@stream_overshoot_at true id chunks more None s Hall Hne)
          as (pre & n & now & post & st' & Ec & E & Htot & Htr & Hf & Hk & Hx);
          simpl; try lia
      end.
      rewrite E. simpl in Htot, Htr, Hf, Hk, Hx.
      exists pre, n, now, post, st'.
      split; [exact Ec|]. split; [reflexivity|]. split; [exact Htot|].
      split; [exact Htr|]. split; [exact Hf|].
      split; [intros k Hk'; specialize (Hk k Hk'); lia|].
      split; [exact Hx|lia].
  - intros Hr seek chunks.
    unfold transferDetachment. simpl transferLoop. rewrite Hfirst.
    unfold attemptOnce, isResumePastEnd, replyToError. rewrite Hs. simpl.
    unfold uploadProcessReply. fold r size. rewrite Hr, Z.eqb_refl. simpl.
    eexists. split; reflexivity.
Qed.

(** C10 as stated fails when the resume offset is the size of the file:
    the first attempt of the upload [hundred] moves all 100 bytes and ends
    in a restart, the server then answers with the offset 100, and the
    transfer returns without an error, whatever the rest of the script. *)
Lemma resumed_at_end_counterexample :
  attemptOnce hundred 1 allBytesThenLost initialState = Again afterAllBytes
  /\ transferred afterAllBytes = 100%Z
  /\ resumeOffset (resumeAt 100) = 100%Z
  /\ forall (seek : Z * bool) (chunks : list chunkEvent)
       (trailer : option byte) (rest : list attempt),
      exists st,
        transferDetachment hundred 1
          (allBytesThenLost :: Exchange (resumeAt 100) seek chunks trailer
             :: rest)
        = Returned st None.
Proof.
  split; [reflexivity|]. split; [reflexivity|]. split; [reflexivity|].
  intros seek chunks trailer rest. eexists. reflexivity.
Qed.

Lemma resumed_upload_aborts_witness :
  exists st',
    transferDetachment hundred 1 [halfThenLost; resumeAtHalf]
    = Returned st'
        (Some (TransferErr "transferred more than the expected amount"))
    /\ total st' = 50%Z
    /\ transferred st' = 100%Z.
Proof.
  destruct (@resumed_upload_aborts hundred 1%Z halfThenLost afterHalf
              (resumeAt 50) (Some x00) [])
    as [H _].
  - reflexivity.
  - split; [apply Z.leb_le|apply Z.ltb_lt]; reflexivity.
  - reflexivity.
  - apply Z.ltb_lt. reflexivity.
  - destruct H as [_ H]; [split; apply Z.ltb_lt; reflexivity|].
    destruct (H [ReadOK 50 (Written 50 1000)] [ReadEOF])
      as (pre & n & now & post & st' & Ec & E & Ht & Htr & _).
    + constructor; [|constructor]. split; [reflexivity|].
      split; apply Z.leb_le; reflexivity.
    + reflexivity.
    + exists st'. split; [exact E|]. split; [exact Ht|].
      destruct pre as [|p [|q pre']].
      * injection Ec as <- _ _. exact Htr.
      * discriminate Ec.
      * discriminate Ec.
Defined.

Lemma stream_frame (upload : bool) (id : Z) (evs : list chunkEvent) :
  forall (lastUpdate : option Z) (st : state),
    match stream upload id evs lastUpdate st with
    | StreamReturn st' _ | StreamBreak st' | StreamPending st' =>
      backoff st' = backoff st /\ total st' = total st
    end.
Proof.
  induction evs as [|e rest IH]; intros lastUpdate st; [simpl; auto|].
  destruct e as [| | |n [|w now]]; cbn [stream].
  - auto.
  - auto.
  - destruct upload; [simpl; auto|apply IH].
  - destruct upload; cbn [negb]; [apply IH|simpl; auto].
  - cbn [total transferred set_transferred].
    destruct (total st <? wrapInt64 (transferred st + w))%Z; [simpl; auto|].
    match goal with
    | |- context [if ?d then _ else _] => destruct d
    end.
    + specialize (IH (Some now)
                    (sendStatus id ""
                       (set_transferred (wrapInt64 (transferred st + w)) st))).
      exact IH.
    + specialize (IH lastUpdate
                    (set_transferred (wrapInt64 (transferred st + w)) st)).
      exact IH.
Qed.

Lemma attemptOnce_backoff {T} `{detachmentTransfer T} (transfer : T) (id : Z)
  (a : attempt) (st : state) :
  backoffInRange st ->
  match attemptOnce transfer id a st with
  | Again st' | Done st' _ | Pending st' => backoffInRange st'
  | Crash _ => True
  end.
Proof.
  unfold backoffInRange, initialBackoff, maxBackoff. intros Hb.
  unfold attemptOnce. destruct a as [k| | |reply seek chunks trailer].
  - destruct k; [simpl; lia|].
    cbn [backoff log sendStatus].
    unfold maxBackoff. destruct (Z.ltb_spec (5 * 60) (backoff st * 2));
      simpl; lia.
  - simpl. unfold initialBackoff. lia.
  - simpl. unfold initialBackoff. lia.
  - destruct (isResumePastEnd reply); [simpl; unfold initialBackoff; lia|].
    destruct (replyToError reply); [simpl; unfold initialBackoff; lia|].
    destruct (ProcessReply transfer reply seek) as [p|]; [|exact I].
    destruct (err p); [simpl; unfold initialBackoff; lia|].
    destruct (isComplete p); [simpl; unfold initialBackoff; lia|].
    match goal with
    | |- context [stream ?u ?i ?c ?l ?s] =>
      pose proof (stream_frame u i c l s) as F;
        destruct (stream u i c l s) as [st' e|st'|st']
    end;
      destruct F as [F _]; cbn [backoff set_total sendStatus set_backoff] in F.
    + unfold initialBackoff in F. lia.
    + destruct (transferred st' <? total st')%Z;
        [unfold initialBackoff in F; lia|].
      destruct (Complete transfer trailer); unfold initialBackoff in F; lia.
    + unfold initialBackoff in F. lia.
Qed.

Lemma transferLoop_backoff {T} `{detachmentTransfer T} (transfer : T) (id : Z)
  (attempts : list attempt) :
  forall st,
    backoffInRange st ->
    match transferLoop transfer id attempts st with
    | Returned st' _ | Running st' => backoffInRange st'
    | Crashed _ => True
    end.
Proof.
  induction attempts as [|a rest IH]; intros st Hb; [exact Hb|].
  cbn [transferLoop].
  pose proof (attemptOnce_backoff transfer id a Hb) as Ha.
  destruct (attemptOnce transfer id a st) as [st1|st1 e|st1|msg].
  - apply IH. exact Ha.
  - exact Ha.
  - exact Ha.
  - exact I.
Qed.

(** X18. Whatever the network does, the wait between two dials of a
    transfer stays between the initial back-off of 10 seconds and the
    maximum of 5 minutes. *)
Theorem backoff_within_bounds {T} `{detachmentTransfer T} (transfer : T)
  (id : Z) (attempts : list attempt) :
  match transferDetachment transfer id attempts with
  | Returned st' _ | Running st' => (10 <= backoff st' <= 300)%Z
  | Crashed _ => True
  end.
Proof.
  unfold transferDetachment.
  assert (Hb : backoffInRange initialState).
  { unfold backoffInRange, initialBackoff, maxBackoff. simpl.
    unfold initialBackoff. lia. }
  pose proof (transferLoop_backoff transfer id attempts Hb) as Hl.
  unfold backoffInRange, initialBackoff, maxBackoff in Hl.
  destruct (transferLoop transfer id attempts initialState); auto; lia.
Qed.

Lemma dial_failures_from {T} `{detachmentTransfer T} (transfer : T) (id : Z)
  (n : nat) :
  forall st,
    (0 < backoff st <= maxBackoff)%Z ->
    exists st',
      transferLoop transfer id (repeat (DialFails false) n) st = Running st'
      /\ backoff st' = Z.min (backoff st * 2 ^ Z.of_nat n) maxBackoff
      /\ transferred st' = transferred st.
Proof.
  unfold maxBackoff.
  induction n as [|n IH]; intros st Hb.
  - exists st. split; [reflexivity|]. split; [|reflexivity].
    change (2 ^ Z.of_nat 0)%Z with 1%Z. lia.
  - cbn [repeat transferLoop attemptOnce].
    cbn [backoff log sendStatus]. unfold maxBackoff.
    assert (Hp : (1 <= 2 ^ Z.of_nat n)%Z)
      by (apply (Z.pow_le_mono_r 2 0); lia).
    rewrite Nat2Z.inj_succ, Z.pow_succ_r by lia.
    destruct (Z.ltb_spec (5 * 60) (backoff st * 2)) as [Hc|Hc].
    + match goal with
      | |- context [transferLoop _ _ _ ?s] =>
        destruct (IH s) as (st' & E & Hb' & Ht'); [simpl; lia|]
      end.
      exists st'. split; [exact E|]. split; [|exact Ht'].
      rewrite Hb'. cbn [backoff set_backoff]. nia.
    + match goal with
      | |- context [transferLoop _ _ _ ?s] =>
        destruct (IH s) as (st' & E & Hb' & Ht'); [simpl; lia|]
      end.
      exists st'. split; [exact E|]. split; [|exact Ht'].
      rewrite Hb'. cbn [backoff set_backoff].
      f_equal. ring.
Qed.

(** X19. A transfer whose first [n] dials fail is still running and has
    moved nothing; its back-off, the wait that would follow one more failed
    dial, has doubled [n] times from 10 seconds and is capped at 5
    minutes. *)
Theorem dial_failures_backoff {T} `{detachmentTransfer T} (transfer : T)
  (id : Z) (n : nat) :
  exists st',
    transferDetachment transfer id (repeat (DialFails false) n) = Running st'
    /\ backoff st' = Z.min (10 * 2 ^ Z.of_nat n) 300
    /\ transferred st' = 0%Z.
Proof.
  unfold transferDetachment.
  destruct (dial_failures_from transfer id n initialState) as (st' & E & Hb & Ht).
  - unfold maxBackoff. simpl. unfold initialBackoff. lia.
  - exists st'. split; [exact E|]. split; [exact Hb|exact Ht].
Qed.

Lemma stream_canceled (upload : bool) (id : Z) (evs : list chunkEvent) :
  forall (lastUpdate : option Z) (st st' : state),
    stream upload id evs lastUpdate st = StreamReturn st' backgroundCanceledError ->
    existsb isKill evs = true.
Proof.
  induction evs as [|e rest IH]; intros lastUpdate st st' H; [discriminate|].
  destruct e as [| | |n [|w now]]; cbn [stream] in H; cbn [existsb isKill orb].
  - reflexivity.
  - discriminate.
  - destruct upload; [discriminate|eauto].
  - destruct upload; cbn [negb] in H; [eauto|discriminate].
  - destruct (_ <? _)%Z in H; [discriminate|].
    match type of H with
    | context [if ?d then _ else _] => destruct d
    end; eauto.
Qed.

Lemma transferLoop_canceled {T} `{detachmentTransfer T} (transfer : T) (id : Z)
  (attempts : list attempt) :
  forall st st',
    transferLoop transfer id attempts st
    = Returned st' (Some backgroundCanceledError) ->
    existsb killed attempts = true.
Proof.
  induction attempts as [|a rest IH]; intros st st' Hr; [discriminate|].
  cbn [transferLoop] in Hr. cbn [existsb].
  destruct (attemptOnce transfer id a st) as [st1|st1 e|st1|msg] eqn:Ea;
    try discriminate.
  - rewrite (IH _ _ Hr). apply Bool.orb_true_r.
  - injection Hr as _ ->. apply Bool.orb_true_iff. left.
    unfold attemptOnce in Ea.
    destruct a as [k| | |reply seek chunks trailer]; try discriminate.
    + destruct k; [reflexivity|discriminate].
    + cbn [killed].
      destruct (isResumePastEnd reply); [discriminate|].
      destruct (replyToError reply); [discriminate|].
      destruct (ProcessReply transfer reply seek) as [p|]; [|discriminate].
      destruct (err p); [discriminate|].
      destruct (isComplete p); [discriminate|].
      match type of Ea with
      | context [stream ?u ?i ?c ?l ?s] =>
        destruct (stream u i c l s) as [st2 e2|st2|st2] eqn:Es
      end.
      * injection Ea as _ ->. eapply stream_canceled; exact Es.
      * destruct (transferred st2 <? total st2)%Z; [discriminate|].
        destruct (Complete transfer trailer); discriminate.
      * discriminate.
Qed.

(** X20. A transfer reports that it was cancelled only when it was: the
    result [backgroundCanceledError] is returned only by a script in which
    the kill channel fires, during the wait after a failed dial or in the
    copy loop. *)
Theorem canceled_only_when_killed {T} `{detachmentTransfer T} (transfer : T)
  (id : Z) (attempts : list attempt) (st' : state) :
  transferDetachment transfer id attempts
  = Returned st' (Some backgroundCanceledError) ->
  existsb killed attempts = true.
Proof. apply transferLoop_canceled. Qed.

Lemma stream_whole (upload : bool) (id : Z) (chunks : list chunkEvent) :
  forall (more : list chunkEvent) (lastUpdate : option Z) (st : state),
    Forall wholeChunk chunks ->
    (0 <= transferred st)%Z ->
    (transferred st + moved chunks <= total st)%Z ->
    (total st < 2 ^ 63)%Z ->
    exists st',
      stream upload id (chunks ++ ReadEOF :: more) lastUpdate st
      = StreamBreak st'
      /\ transferred st' = (transferred st + moved chunks)%Z
      /\ total st' = total st.
Proof.
  induction chunks as [|e rest IH]; intros more lastUpdate st Hall H0 Hle Hmax.
  - exists st. simpl. repeat split. lia.
  - assert (He : wholeChunk e) by (inversion Hall; assumption).
    assert (Hrest : Forall wholeChunk rest) by (inversion Hall; assumption).
    destruct e as [| | |sz [|w now]]; try contradiction.
    destruct He as [-> Hn]. cbn [moved] in Hle. cbn [app stream].
    pose proof (moved_nonneg Hrest) as Hm.
    rewrite wrapInt64_small by lia.
    cbn [total transferred set_transferred].
    destruct (Z.ltb_spec (total st) (transferred st + sz)); [lia|].
    match goal with
    | |- context [if ?d then _ else _] => destruct d
    end.
    + destruct (IH more (Some now)
                  (sendStatus id "" (set_transferred (transferred st + sz) st))
                  Hrest) as (st' & E & Ht & Htot); simpl; try lia.
      exists st'. simpl in Ht, Htot. cbn [moved]. repeat split; auto; lia.
    + destruct (IH more lastUpdate
                  (set_transferred (transferred st + sz) st)
                  Hrest) as (st' & E & Ht & Htot); simpl; try lia.
      exists st'. simpl in Ht, Htot. cbn [moved]. repeat split; auto; lia.
Qed.

(** X21. A transfer that meets no trouble succeeds in one attempt: the
    reply carries no status, [ProcessReply] asks for [n] bytes, the copy
    loop moves them in whole chunks up to the end of the input, and
    [Complete] confirms.  The transfer then returns no error, having
    counted exactly [n] bytes.  When [Complete] does not confirm, the
    attempt is repeated. *)
Theorem clean_transfer_succeeds {T} `{detachmentTransfer T} (transfer : T)
  (id : Z) (reply : Reply) (seek : Z * bool) (up : bool) (n : Z)
  (chunks : list chunkEvent) (trailer : option byte) (rest : list attempt) :
  Status reply = None ->
  ProcessReply transfer reply seek = Ok (mkProcessed up n false None) ->
  (0 <= n < 2 ^ 63)%Z ->
  Forall wholeChunk chunks ->
  moved chunks = n ->
  (Complete transfer trailer = true ->
   exists st',
     transferDetachment transfer id
       (Exchange reply seek (chunks ++ [ReadEOF]) trailer :: rest)
     = Returned st' None
     /\ transferred st' = n /\ total st' = n)
  /\ (Complete transfer trailer = false ->
      exists st',
        attemptOnce transfer id
          (Exchange reply seek (chunks ++ [ReadEOF]) trailer) initialState
        = Again st'
        /\ transferred st' = n /\ total st' = n).
Proof.
  intros Hs Hp Hn Hall Hm.
  assert (E : replyToError reply = None)
    by (unfold replyToError; rewrite Hs; reflexivity).
  assert (Hcopy : exists st',
             stream up id (chunks ++ [ReadEOF]) None
               (set_total n
                  (sendStatus id "Requesting transfer"
                     (set_backoff initialBackoff
                        (sendStatus id "Connecting" initialState))))
             = StreamBreak st'
             /\ transferred st' = n /\ total st' = n).
  { match goal with
    | |- context [stream up id _ None ?s] =>
      destruct (@stream_whole up id chunks [] None s Hall)
        as (st' & Es & Ht & Htot); simpl; try lia
    end.
    exists st'. simpl in Ht, Htot. split; [exact Es|]. split; lia. }
  destruct Hcopy as (st' & Es & Ht & Htot).
  split; intros Hc.
  - unfold transferDetachment. cbn [transferLoop].
    unfold attemptOnce, isResumePastEnd. rewrite Hs, E, Hp.
    cbn [newTotal err isComplete isUpload]. rewrite Es.
    destruct (Z.ltb_spec (transferred st') (total st')); [lia|].
    rewrite Hc. exists st'. auto.
  - unfold attemptOnce, isResumePastEnd. rewrite Hs, E, Hp.
    cbn [newTotal err isComplete isUpload]. rewrite Es.
    destruct (Z.ltb_spec (transferred st') (total st')); [lia|].
    rewrite Hc. exists st'. auto.
Qed.

Lemma stream_guarded (upload : bool) (id : Z) (evs : list chunkEvent) :
  forall (lastUpdate : option Z) (st : state),
    (transferred st <= total st)%Z ->
    match stream upload id evs lastUpdate st with
    | StreamBreak st' | StreamPending st' => (transferred st' <= total st')%Z
    | StreamReturn _ _ => True
    end.
Proof.
  induction evs as [|e rest IH]; intros lastUpdate st Hle; [exact Hle|].
  destruct e as [| | |n [|w now]]; cbn [stream].
  - exact I.
  - exact Hle.
  - destruct upload; [exact I|apply IH; exact Hle].
  - destruct upload; cbn [negb]; [apply IH; exact Hle|exact I].
  - cbn [total transferred set_transferred].
    destruct (Z.ltb_spec (total st) (wrapInt64 (transferred st + w)));
      [exact I|].
    match goal with
    | |- context [if ?d then _ else _] => destruct d
    end; apply IH; simpl; lia.
Qed.

(** X22. The copy loop of a transfer never goes on, and never ends at the
    end of its input, with more bytes counted than the total of the
    attempt: an attempt that ends in a restart, in success or in the middle
    of the copy loop has counted at most [total] bytes, provided the count
    it started with was not above the total that [ProcessReply] set. *)
Theorem copy_loop_guard {T} `{detachmentTransfer T} (transfer : T) (id : Z)
  (reply : Reply) (seek : Z * bool) (chunks : list chunkEvent)
  (trailer : option byte) (st : state) (p : processed) :
  Status reply = None ->
  ProcessReply transfer reply seek = Ok p ->
  isComplete p = false ->
  (transferred st <= newTotal p)%Z ->
  match attemptOnce transfer id (Exchange reply seek chunks trailer) st with
  | Again st' | Pending st' | Done st' None =>
    (transferred st' <= total st')%Z /\ total st' = newTotal p
  | _ => True
  end.
Proof.
  intros Hs Hp Hc Hle.
  assert (E : replyToError reply = None)
    by (unfold replyToError; rewrite Hs; reflexivity).
  unfold attemptOnce, isResumePastEnd. rewrite Hs, E, Hp.
  destruct (err p); [exact I|]. rewrite Hc.
  match goal with
  | |- context [stream ?u ?i ?c ?l ?s] =>
    pose proof (@stream_guarded u i c l s) as G;
      pose proof (stream_frame u i c l s) as F;
      destruct (stream u i c l s) as [st' e|st'|st']
  end.
  - exact I.
  - destruct F as [_ F]. cbn [total set_total] in F.
    specialize (G Hle).
    destruct (transferred st' <? total st')%Z; [auto|].
    destruct (Complete transfer trailer); auto.
  - destruct F as [_ F]. cbn [total set_total] in F.
    specialize (G Hle). auto.
Qed.

(** X23. The byte count of a download is carried over a restart, while
    neither the request nor the total takes it into account: the request of
    every attempt asks for the file from the offset the local file had when
    the download began, and the total of every attempt is the size less
    that offset.  So when a first attempt has moved at least one byte and
    ended in a restart, a second attempt in which the server sends, as it
    is asked to, all the bytes from that offset to the end of the file is
    stopped by the guard of the copy loop, at the first chunk that takes
    the count above the total.  Nothing is said here of a second attempt
    in which fewer bytes arrive. *)
Theorem restarted_download_aborts (dt : downloadTransfer) (id : Z)
  (first : attempt) (st1 : state) (reply : Reply) (d : DownloadReply)
  (size : Z) (seek : Z * bool) (chunks more : list chunkEvent)
  (trailer : option byte) (rest : list attempt) :
  attemptOnce dt id first initialState = Again st1 ->
  (1 <= transferred st1 < 2 ^ 62)%Z ->
  Status reply = None ->
  ReplyDownload reply = Some d ->
  Size d = Some size ->
  (0 <= resume dt < size)%Z ->
  (size < 2 ^ 62)%Z ->
  Forall wholeChunk chunks ->
  moved chunks = (size - resume dt)%Z ->
  TransferRequest dt
  = mkRequest None false None None
      (Some (mkDownload (dtFrom dt) (Some (fileID dt))
               (if (0 <? resume dt)%Z then Some (resume dt) else None)))
  /\ exists st',
      transferDetachment dt id
        (first :: Exchange reply seek (chunks ++ more) trailer :: rest)
      = Returned st'
          (Some (TransferErr "transferred more than the expected amount"))
      /\ total st' = (size - resume dt)%Z
      /\ exists pre n now post,
          chunks = pre ++ ReadOK n (Written n now) :: post
          /\ transferred st' = (transferred st1 + moved pre + n)%Z
          /\ (size - resume dt < transferred st')%Z
          /\ (forall k,
                0 < k <= length pre ->
                (transferred st1 + moved (firstn k pre)
                 <= size - resume dt)%Z).
Proof.
  intros Hfirst Ht Hs Hd Hsz Hr Hmax Hall Hsum.
  split; [reflexivity|].
  assert (E : replyToError reply = None)
    by (unfold replyToError; rewrite Hs; reflexivity).
  unfold transferDetachment. cbn [transferLoop]. rewrite Hfirst.
  unfold attemptOnce, isResumePastEnd. rewrite Hs, E.
  cbn [ProcessReply download_is_transfer]. unfold downloadProcessReply.
  rewrite Hd, Hsz. cbv beta iota delta [bind deref].
  destruct (Z.ltb_spec size (resume dt)); [lia|].
  cbn [newTotal err isComplete isUpload].
  rewrite wrapInt64_small by lia.
  assert (Hne : chunks <> []).
  { intros ->. simpl in Hsum. lia. }
  match goal with
  | |- context [stream false id (chunks ++ more) None ?s] =>
    destruct (@stream_overshoot_at false id chunks more None s Hall Hne)
      as (pre & n & now & post & st' & Ec & Es & Htot & Htr & Hf & Hk & _);
      simpl; try lia
  end.
  rewrite Es. simpl in Htot, Htr, Hf, Hk.
  exists st'. split; [reflexivity|]. split; [exact Htot|].
  exists pre, n, now, post.
  split; [exact Ec|]. split; [exact Htr|]. split; [exact Hf|exact Hk].
Qed.

(** X24. A reply with an error status ends a transfer at once, before
    [ProcessReply] or the copy loop run: RESUME_PAST_END_OF_FILE ends it
    without an error, every other status but OK ends it with the error
    that [replyToError] gives, and the count of bytes is as it was. *)
Theorem transfer_reply_status {T} `{detachmentTransfer T} (transfer : T)
  (id : Z) (reply : Reply) (seek : Z * bool) (chunks : list chunkEvent)
  (trailer : option byte) (st : state) (s : Reply_Status) :
  Status reply = Some s ->
  s <> Reply_OK ->
  exists st',
    attemptOnce transfer id (Exchange reply seek chunks trailer) st
    = Done st'
        (if isResumePastEnd reply then None
         else option_map TransferErr (replyToError reply))
    /\ (isResumePastEnd reply = false -> replyToError reply <> None)
    /\ transferred st' = transferred st
    /\ total st' = total st.
Proof.
  intros Hs Hok. unfold attemptOnce.
  destruct (isResumePastEnd reply) eqn:Er.
  - eexists. split; [reflexivity|]. split; [discriminate|].
    split; reflexivity.
  - assert (E : replyToError reply <> None).
    { unfold replyToError. rewrite Hs.
      destruct s as [| | |code [msg|]]; try discriminate. contradiction. }
    destruct (replyToError reply) as [e|]; [|contradiction].
    eexists. split; [reflexivity|]. split; [intros _; discriminate|].
    split; reflexivity.
Qed.

Lemma canceled_only_when_killed_witness :
  exists st',
    transferDetachment hundred 1 [DialFails false; DialFails true; allBytesThenLost]
    = Returned st' (Some backgroundCanceledError)
    /\ existsb killed [DialFails false; DialFails true; allBytesThenLost]
       = true.
Proof.
  eexists. split; [reflexivity|].
  eapply (@canceled_only_when_killed uploadTransfer upload_is_transfer
            hundred 1%Z).
  reflexivity.
Defined.

Lemma clean_transfer_succeeds_witness :
  exists st',
    transferDetachment hundred 1 [inOneGo] = Returned st' None
    /\ transferred st' = 100%Z /\ total st' = 100%Z.
Proof.
  refine (proj1 (@clean_transfer_succeeds uploadTransfer upload_is_transfer
                   hundred 1%Z (mkReply None None None None None None)
                   (0%Z, false) true 100%Z
                   [ReadOK 60 (Written 60 0); ReadOK 40 (Written 40 700)]
                   (Some x00) [] eq_refl eq_refl _ _ eq_refl) eq_refl).
  - split; [apply Z.leb_le|apply Z.ltb_lt]; reflexivity.
  - constructor; [|constructor; [|constructor]];
      (split; [reflexivity|split; apply Z.leb_le; reflexivity]).
Defined.

Lemma copy_loop_guard_witness :
  attemptOnce hundred 1 halfThenLost initialState = Again afterHalf
  /\ (transferred afterHalf <= total afterHalf)%Z
  /\ total afterHalf = 100%Z.
Proof.
  split; [reflexivity|].
  exact (@copy_loop_guard uploadTransfer upload_is_transfer hundred 1%Z
           (mkReply None None None None None None) (0%Z, false)
           [ReadOK 50 (Written 50 0); ReadOK 50 WriteError; ReadEOF] None
           initialState (mkProcessed true 100 false None) eq_refl eq_refl
           eq_refl (proj1 (Z.leb_le 0 100) eq_refl)).
Defined.

Lemma restarted_download_aborts_witness :
  attemptOnce wanted 2 fortyThenLost initialState = Again afterForty
  /\ exists st',
      transferDetachment wanted 2
        [fortyThenLost;
         Exchange (sizeIs 100) (0%Z, false)
           ([ReadOK 100 (Written 100 900)] ++ [ReadEOF]) None]
      = Returned st'
          (Some (TransferErr "transferred more than the expected amount"))
      /\ total st' = (100 - resume wanted)%Z
      /\ exists pre n now post,
          [ReadOK 100 (Written 100 900)]
          = pre ++ ReadOK n (Written n now) :: post
          /\ transferred st' = (transferred afterForty + moved pre + n)%Z
          /\ (100 - resume wanted < transferred st')%Z
          /\ (forall k,
                0 < k <= length pre ->
                (transferred afterForty + moved (firstn k pre)
                 <= 100 - resume wanted)%Z).
Proof.
  split; [reflexivity|].
  apply (@restarted_download_aborts wanted 2%Z fortyThenLost afterForty
           (sizeIs 100) (mkDownloadReply (Some 100%Z)) 100%Z (0%Z, false)
           [ReadOK 100 (Written 100 900)] [ReadEOF] None []).
  - reflexivity.
  - split; [apply Z.leb_le|apply Z.ltb_lt]; reflexivity.
  - reflexivity.
  - reflexivity.
  - reflexivity.
  - split; [apply Z.leb_le|apply Z.ltb_lt]; reflexivity.
  - apply Z.ltb_lt. reflexivity.
  - constructor; [|constructor]. split; [reflexivity|].
    split; apply Z.leb_le; reflexivity.
  - reflexivity.
Defined.

Lemma transfer_reply_status_witness :
  exists st',
    attemptOnce hundred 1
      (Exchange (mkReply (Some Reply_GENERATION_REVOKED) None None None None
                   None)
         (0%Z, false) [ReadOK 100 (Written 100 0)] None)
      afterHalf
    = Done st'
        (Some (TransferErr "error from server: GENERATION_REVOKED"))
    /\ transferred st' = 50%Z.
Proof.
  destruct (@transfer_reply_status uploadTransfer upload_is_transfer hundred
              1%Z
              (mkReply (Some Reply_GENERATION_REVOKED) None None None None
                 None)
              (0%Z, false) [ReadOK 100 (Written 100 0)] None afterHalf
              Reply_GENERATION_REVOKED eq_refl)
    as (st' & E & _ & Ht & _).
  - discriminate.
  - exists st'. split; [exact E|exact Ht].
Defined.

End TransferFacts.

(** ** Byte order and slices, continued *)

Lemma Z_of_byte_of_Z (z : Z) : Z_of_byte (byte_of_Z z) = (z mod 256)%Z.
Proof.
  unfold Z_of_byte, byte_of_Z.
  assert (Hb : (0 <= z mod 256 < 256)%Z) by (apply Z.mod_pos_bound; lia).
  destruct (Byte.of_N (Z.to_N (z mod 256))) as [b|] eqn:E.
  - apply Byte.to_of_N in E. rewrite E. apply Z2N.id. lia.
  - apply Byte.of_N_None_iff in E. lia.
Qed.

(** Decoding what [PutUint32] wrote gives the value back, as a uint32. *)
Lemma Uint32_PutUint32 (v : Z) : Uint32 (PutUint32 v) = wrap32 v.
Proof.
  unfold Uint32, PutUint32. cbn [map nth].
  rewrite !Z_of_byte_of_Z, !Z.shiftr_div_pow2, !Z.shiftl_mul_pow2 by lia.
  assert (Hw : (0 <= wrap32 v < 2 ^ 32)%Z)
    by (unfold wrap32; apply Z.mod_pos_bound; lia).
  generalize dependent (wrap32 v). intros w Hw.
  change (2 ^ (8 * 0))%Z with 1%Z. change (2 ^ (8 * 1))%Z with 256%Z.
  change (2 ^ (8 * 2))%Z with (256 * 256)%Z.
  change (2 ^ (8 * 3))%Z with (256 * 256 * 256)%Z.
  change (2 ^ 8)%Z with 256%Z. change (2 ^ 16)%Z with 65536%Z.
  change (2 ^ 24)%Z with 16777216%Z. change (2 ^ 32)%Z with 4294967296%Z in Hw.
  rewrite Z.div_1_r, <- !Z.div_div by lia.
  pose proof (Z.div_mod w 256 ltac:(lia)).
  pose proof (Z.div_mod (w / 256) 256 ltac:(lia)).
  pose proof (Z.div_mod (w / 256 / 256) 256 ltac:(lia)).
  pose proof (Z.mod_pos_bound w 256 ltac:(lia)).
  pose proof (Z.mod_pos_bound (w / 256) 256 ltac:(lia)).
  pose proof (Z.mod_pos_bound (w / 256 / 256) 256 ltac:(lia)).
  assert ((w / 256 / 256 / 256) mod 256 = w / 256 / 256 / 256)%Z.
  { apply Z.mod_small. split.
    - repeat apply Z.div_pos; lia.
    - repeat (apply Z.div_lt_upper_bound; [lia|]). lia. }
  pose proof (Z.div_mod (w / 256 / 256 / 256) 256 ltac:(lia)).
  lia.
Qed.

Lemma PutUint32_length (v : Z) : length (PutUint32 v) = 4.
Proof. reflexivity. Qed.

Lemma skipn_make (k n : nat) : skipn k (make n) = make (n - k).
Proof.
  unfold make. revert k. induction n as [|n IH]; intros [|k]; simpl; auto.
Qed.

(** Writing [src] into a buffer right after its first part [pre], when it
    fits in what follows. *)
Lemma copy_at_app (pre rest src : bytes) (off : nat) :
  off = length pre ->
  length src <= length rest ->
  copy_at (pre ++ rest) off src = pre ++ src ++ skipn (length src) rest.
Proof.
  intros -> Hl. unfold copy_at.
  rewrite firstn_app, firstn_all, Nat.sub_diag, firstn_0, app_nil_r.
  rewrite length_app, Nat.add_comm, Nat.add_sub.
  rewrite firstn_all2 by assumption.
  rewrite skipn_app, skipn_all2 by lia.
  replace (length pre + length src - length pre) with (length src) by lia.
  reflexivity.
Qed.

Lemma copy_at_0 (buf src : bytes) :
  length src <= length buf ->
  copy_at buf 0 src = src ++ skipn (length src) buf.
Proof. intros H. apply (@copy_at_app [] buf src 0); auto. Qed.

Lemma append_at_app (pre rest src : bytes) (off : nat) :
  off = length pre ->
  length src <= length rest ->
  append_at (pre ++ rest) off src = pre ++ src ++ skipn (length src) rest.
Proof.
  intros Ho Hl. unfold append_at.
  destruct (Nat.leb_spec (off + length src) (length (pre ++ rest))) as [_|H].
  - apply copy_at_app; assumption.
  - rewrite length_app in H. lia.
Qed.

(** ** From [send] to [unsealMessage] *)

Section RoundTripFacts.

Context `{P : Primitives}.

Lemma randBytes_length (c c' : client) (n : nat) (b : bytes) :
  lengthLaws -> randBytes c n = Ok (b, c') -> length b = n.
Proof.
  intros (Hr & _) H. unfold randBytes in H.
  destruct (io_ReadFull (rand c) n) as [[b0 r]|] eqn:E; [|discriminate].
  inversion H; subst. eapply Hr; eauto.
Qed.

(** The three [copy]s that fill [plaintext] in [send]. *)
Lemma plaintext_framed (messageBytes pad : bytes) :
  length messageBytes <= MaxSerializedMessage ->
  length pad = MaxSerializedMessage - length messageBytes ->
  copy_at
    (copy_at
       (copy_at (make (MaxSerializedMessage + 4)) 0
          (PutUint32 (Z.of_nat (length messageBytes))))
       4 messageBytes)
    (4 + length messageBytes) pad
  = framed messageBytes pad.
Proof.
  intros Hm Hp. unfold framed.
  rewrite copy_at_0 by (rewrite make_length, PutUint32_length; lia).
  rewrite PutUint32_length, skipn_make.
  rewrite (@copy_at_app (PutUint32 (Z.of_nat (length messageBytes))));
    [|reflexivity|rewrite make_length; lia].
  rewrite skipn_make, app_assoc.
  rewrite (@copy_at_app (PutUint32 (Z.of_nat (length messageBytes)) ++ messageBytes));
    [|rewrite length_app, PutUint32_length; reflexivity
     |rewrite make_length; lia].
  rewrite skipn_make, <- app_assoc.
  replace (MaxSerializedMessage + 4 - 4 - length messageBytes - length pad)
    with 0 by lia.
  cbn [make repeat]. rewrite app_nil_r. reflexivity.
Qed.

(** The bytes [send] puts on the wire for an accepted message: for a peer of
    version 0 the nonce and the box of the framed message; for a peer of
    version 1 or more an outer nonce, the box of a fresh public key, then
    the inner nonce and the box of the framed message under the fresh
    private key. *)
Lemma send_layout (c c' : client) (to : Contact) (message : Message) :
  lengthLaws ->
  send c to message = Ok (c', None) ->
  exists messageBytes pad innerNonce out d,
    proto_Marshal_Message message = inr messageBytes
    /\ length messageBytes <= MaxSerializedMessage
    /\ length (framed messageBytes pad) = MaxSerializedMessage + 4
    /\ length innerNonce = 24
    /\ queue c' = queue c ++ [out]
    /\ Deliver (request out) = Some d
    /\ ((supportedVersion to < 1)%Z ->
        DeliveryMessage d
        = innerNonce
            ++ box_Seal (framed messageBytes pad) innerNonce
                 (theirCurrentDHPublic to) (lastDHPrivate to))
    /\ ((1 <= supportedVersion to)%Z ->
        exists r public private r' outerNonce,
          box_GenerateKey r = (inr (public, private), r')
          /\ length outerNonce = 24
          /\ DeliveryMessage d
             = outerNonce
                 ++ box_Seal public outerNonce (theirCurrentDHPublic to)
                      (lastDHPrivate to)
                 ++ innerNonce
                 ++ box_Seal (framed messageBytes pad) innerNonce
                      (theirCurrentDHPublic to) private).
Proof.
  intros L H. pose proof L as (Lr & Ls & Lg). unfold send in H.
  destruct (proto_Marshal_Message message) as [e|messageBytes]; [discriminate|].
  destruct (Nat.ltb_spec MaxSerializedMessage (length messageBytes)) as [|Hm];
    [discriminate|].
  destruct (randBytes c _) as [[pad c1]|] eqn:E1; [|discriminate].
  pose proof (randBytes_length _ _ L E1) as Lp.
  autorewrite with slices in Lp.
  apply randBytes_events in E1. destruct E1 as (Q1 & _).
  cbv beta iota delta [bind] in H.
  rewrite plaintext_framed in H by lia.
  destruct (randBytes c1 24) as [[innerNonce c2]|] eqn:E2; [|discriminate].
  pose proof (randBytes_length _ _ L E2) as Ln.
  apply randBytes_events in E2. destruct E2 as (Q2 & _).
  cbv beta iota delta [bind] in H.
  assert (Lf : length (framed messageBytes pad) = MaxSerializedMessage + 4).
  { unfold framed. rewrite !length_app, PutUint32_length. lia. }
  exists messageBytes, pad, innerNonce.
  destruct (Z.leb_spec 1 (supportedVersion to)) as [Hv|Hv].
  - destruct (box_GenerateKey (rand c2)) as [[e|[public private]] r] eqn:Eg.
    + discriminate.
    + destruct (randBytes (set_rand r c2) 24) as [[outerNonce c3]|] eqn:E3;
        [|discriminate].
      pose proof (randBytes_length _ _ L E3) as Lo.
      apply randBytes_events in E3. destruct E3 as (Q3 & _).
      cbv beta iota delta [bind] in H.
      destruct (myGroupKey to); [|discriminate].
      cbv beta iota delta [bind deref] in H.
      destruct (MemberKey_Sign _ _ _) as [[e|groupSig] r'] in H; [discriminate|].
      destruct (Id message); [|discriminate].
      destruct (Time message); [|discriminate].
      cbv beta iota delta [bind deref] in H.
      match type of H with
      | context [enqueue _ ?out] => exists out
      end.
      match type of H with
      | context [mkRequest (Some ?d)] => exists d
      end.
      injection H as <-.
      split; [reflexivity|]. split; [assumption|]. split; [assumption|].
      split; [assumption|].
      split.
      { destruct (0 <? length (Body message));
          cbn [queue set_outbox emit enqueue set_events set_queue set_rand];
          rewrite Q3; cbn [queue set_rand]; rewrite Q2, Q1; reflexivity. }
      split; [reflexivity|].
      split; [lia|]. intros _.
      exists (rand c2), public, private, r, outerNonce.
      split; [exact Eg|]. split; [exact Lo|].
      cbn [DeliveryMessage].
      pose proof (Lg _ _ _ _ Eg) as Lpub.
      unfold nonceLen, ephemeralBlockLen, nonceLen, box_Overhead in *.
      rewrite Lf.
      set (boxP := box_Seal public outerNonce (theirCurrentDHPublic to)
                     (lastDHPrivate to)).
      set (boxM := box_Seal (framed messageBytes pad) innerNonce
                     (theirCurrentDHPublic to) private).
      assert (LP : length boxP = 48).
      { unfold boxP. rewrite Ls. unfold box_Overhead. lia. }
      assert (LM : length boxM = MaxSerializedMessage + 4 + 16).
      { unfold boxM. rewrite Ls. unfold box_Overhead. lia. }
      rewrite copy_at_0 by (rewrite make_length; lia).
      rewrite skipn_make, Lo.
      rewrite (@append_at_app outerNonce (make _) boxP 24);
        [|symmetry; exact Lo|rewrite make_length; lia].
      rewrite skipn_make, LP.
      rewrite (app_assoc outerNonce boxP).
      rewrite (@copy_at_app (outerNonce ++ boxP) (make _) innerNonce);
        [|rewrite length_app, Lo, LP; reflexivity|rewrite make_length; lia].
      rewrite skipn_make, Ln.
      rewrite (app_assoc (outerNonce ++ boxP) innerNonce).
      rewrite (@append_at_app ((outerNonce ++ boxP) ++ innerNonce) (make _) boxM);
        [|rewrite !length_app, Lo, LP, Ln; reflexivity|rewrite make_length; lia].
      rewrite skipn_make, LM.
      match goal with
      | |- context [make ?n] => replace n with 0 by lia
      end.
      cbn [make repeat]. rewrite app_nil_r, <- !app_assoc. reflexivity.
  - cbv beta iota delta [bind] in H.
    destruct (myGroupKey to); [|discriminate].
    cbv beta iota delta [bind deref] in H.
    destruct (MemberKey_Sign _ _ _) as [[e|groupSig] r'] in H; [discriminate|].
    destruct (Id message); [|discriminate].
    destruct (Time message); [|discriminate].
    cbv beta iota delta [bind deref] in H.
    match type of H with
    | context [enqueue _ ?out] => exists out
    end.
    match type of H with
    | context [mkRequest (Some ?d)] => exists d
    end.
    injection H as <-.
    split; [reflexivity|]. split; [assumption|]. split; [assumption|].
    split; [assumption|].
    split.
    { destruct (0 <? length (Body message));
        cbn [queue set_outbox emit enqueue set_events set_queue set_rand];
        rewrite Q2, Q1; reflexivity. }
    split; [reflexivity|].
    split; [|lia]. intros _.
    cbn [DeliveryMessage].
    unfold nonceLen, box_Overhead in *. rewrite Lf.
    set (boxM := box_Seal (framed messageBytes pad) innerNonce
                   (theirCurrentDHPublic to) (lastDHPrivate to)).
    assert (LM : length boxM = MaxSerializedMessage + 4 + 16).
    { unfold boxM. rewrite Ls. unfold box_Overhead. lia. }
    rewrite copy_at_0 by (rewrite make_length; lia).
    rewrite skipn_make, Ln.
    rewrite (@append_at_app innerNonce (make _) boxM);
      [|rewrite Ln; reflexivity|rewrite make_length; lia].
    rewrite skipn_make, LM.
    match goal with
    | |- context [make ?n] => replace n with 0 by lia
    end.
    cbn [make repeat]. rewrite app_nil_r. reflexivity.
Qed.

End RoundTripFacts.

Section UnsealAccepted.

Context `{P : Primitives}.

Lemma bytes_eqb_eq (a b : bytes) : bytes_eqb a b = true -> a = b.
Proof.
  unfold bytes_eqb. destruct (list_eq_dec Byte.byte_eq_dec a b); auto.
  discriminate.
Qed.

Lemma bytes_eqb_refl (a : bytes) : bytes_eqb a a = true.
Proof.
  unfold bytes_eqb. destruct (list_eq_dec Byte.byte_eq_dec a a); auto.
Qed.

(** [unsealMessage] on a message that decrypts, is well framed, parses,
    carries a DH value of the right length and is no duplicate. *)
Lemma unsealMessage_accepted (c c1 : client) (im : InboxMessage)
  (from from1 : Contact) (now : Z) (plaintext : bytes) (msg : Message) :
  isPending from = false ->
  24 <= length (sealedBytes im) ->
  decryptMessage c (skipn 24 (sealedBytes im)) (firstn 24 (sealedBytes im))
    from = Ok (Some plaintext, from1, c1) ->
  wellFramed plaintext ->
  proto_Unmarshal_Message (payload plaintext) = inr msg ->
  length (MyNextDh msg) = 32 ->
  isDuplicate (inbox c1) (contactId from1) (inboxId im) msg = Ok false ->
  unsealMessage c im from now
  = Ok (true,
        set_read false (set_sealed None (set_inboxMessage (Some msg) im)),
        set_kxsBytes None
          (let from2 :=
             if negb (bytes_eqb (theirCurrentDHPublic from1) (MyNextDh msg))
             then
               set_theirCurrentDHPublic (MyNextDh msg)
                 (set_theirLastDHPublic (theirCurrentDHPublic from1) from1)
             else from1 in
           match SupportedVersion msg with
           | Some v => set_supportedVersion v from2
           | None => from2
           end),
        match InReplyTo msg with
        | Some i =>
          set_events (events c1 ++ snd (ackOutbox (outbox c1) i now))
            (set_outbox (fst (ackOutbox (outbox c1) i now)) c1)
        | None => c1
        end).
Proof.
  intros Hp Hl Hd [Hf1 Hf2] Hm Hdh Hdup.
  unfold unsealMessage. rewrite Hp.
  destruct (Nat.ltb_spec (length (sealedBytes im)) 24); [lia|].
  rewrite copy_at_make_firstn by assumption.
  rewrite Hd. cbv beta iota delta [bind].
  destruct (Nat.ltb_spec (length plaintext) 4); [lia|].
  pose proof (Uint32_nonneg (firstn 4 plaintext)) as Hn.
  destruct (Z.ltb_spec (Uint32 (firstn 4 plaintext)) 0); [lia|].
  rewrite length_skipn.
  destruct (Z.ltb_spec (Z.of_nat (length plaintext - 4))
              (Uint32 (firstn 4 plaintext))); [lia|].
  simpl orb. cbv beta iota. unfold payload in Hm. rewrite Hm.
  destruct (Nat.eqb_spec (length (MyNextDh msg)) 32); [|contradiction].
  cbn [negb]. rewrite Hdup.
  destruct (InReplyTo msg) as [i|]; [|reflexivity].
  destruct (ackOutbox (outbox c1) i now) as [outbox' evs]. reflexivity.
Qed.

(** The same message, when the inbox already holds one with its id from the
    same contact. *)
Lemma unsealMessage_duplicate (c c1 : client) (im : InboxMessage)
  (from from1 : Contact) (now : Z) (plaintext : bytes) (msg : Message) :
  isPending from = false ->
  24 <= length (sealedBytes im) ->
  decryptMessage c (skipn 24 (sealedBytes im)) (firstn 24 (sealedBytes im))
    from = Ok (Some plaintext, from1, c1) ->
  wellFramed plaintext ->
  proto_Unmarshal_Message (payload plaintext) = inr msg ->
  length (MyNextDh msg) = 32 ->
  isDuplicate (inbox c1) (contactId from1) (inboxId im) msg = Ok true ->
  unsealMessage c im from now
  = Ok (false, im, from1,
        emit (LogPrintf "Dropping duplicate message from %s") c1).
Proof.
  intros Hp Hl Hd [Hf1 Hf2] Hm Hdh Hdup.
  unfold unsealMessage. rewrite Hp.
  destruct (Nat.ltb_spec (length (sealedBytes im)) 24); [lia|].
  rewrite copy_at_make_firstn by assumption.
  rewrite Hd. cbv beta iota delta [bind].
  destruct (Nat.ltb_spec (length plaintext) 4); [lia|].
  pose proof (Uint32_nonneg (firstn 4 plaintext)) as Hn.
  destruct (Z.ltb_spec (Uint32 (firstn 4 plaintext)) 0); [lia|].
  rewrite length_skipn.
  destruct (Z.ltb_spec (Z.of_nat (length plaintext - 4))
              (Uint32 (firstn 4 plaintext))); [lia|].
  simpl orb. cbv beta iota. unfold payload in Hm. rewrite Hm.
  destruct (Nat.eqb_spec (length (MyNextDh msg)) 32); [|contradiction].
  cbn [negb]. rewrite Hdup. reflexivity.
Qed.

(** The outbox after the loop that acknowledges replies: the entries with
    the id get the time, the others stay. *)
Lemma ackOutbox_fst (candidates : list queuedMessage) (i now : Z) :
  fst (ackOutbox candidates i now)
  = map (fun m => if (qmId m =? i)%Z then set_acked now m else m) candidates.
Proof.
  induction candidates as [|m rest IH]; [reflexivity|].
  simpl. destruct (ackOutbox rest i now) as [rest' evs]. simpl in IH.
  destruct (qmId m =? i)%Z; simpl; rewrite IH; reflexivity.
Qed.

Lemma ackOutbox_snd (candidates : list queuedMessage) (i now : Z) :
  snd (ackOutbox candidates i now)
  = map (fun _ => OutboxUISetIndicator i indicatorGreen)
      (filter (fun m => (qmId m =? i)%Z) candidates).
Proof.
  induction candidates as [|m rest IH]; [reflexivity|].
  simpl. destruct (ackOutbox rest i now) as [rest' evs]. simpl in IH.
  destruct (qmId m =? i)%Z; simpl; rewrite IH; reflexivity.
Qed.

Lemma firstn_app_exact (pre rest : bytes) (n : nat) :
  n = length pre -> firstn n (pre ++ rest) = pre.
Proof.
  intros ->. rewrite firstn_app, firstn_all, Nat.sub_diag, firstn_0.
  apply app_nil_r.
Qed.

Lemma skipn_app_exact (pre rest : bytes) (n : nat) :
  n = length pre -> skipn n (pre ++ rest) = rest.
Proof.
  intros ->. rewrite skipn_app, skipn_all, Nat.sub_diag, skipn_0.
  reflexivity.
Qed.

Lemma firstn_PutUint32 (v : Z) (rest : bytes) :
  firstn 4 (PutUint32 v ++ rest) = PutUint32 v.
Proof. reflexivity. Qed.

Lemma skipn_PutUint32 (v : Z) (rest : bytes) :
  skipn 4 (PutUint32 v ++ rest) = rest.
Proof. reflexivity. Qed.

(** What the framing of [send] gives back. *)
Lemma framed_payload (messageBytes pad : bytes) :
  (Z.of_nat (length messageBytes) < 2 ^ 32)%Z ->
  payload (framed messageBytes pad) = messageBytes.
Proof.
  intros H. unfold payload, framed.
  rewrite firstn_PutUint32, skipn_PutUint32, Uint32_PutUint32.
  unfold wrap32. rewrite Z.mod_small by lia.
  rewrite Nat2Z.id, firstn_app, firstn_all, Nat.sub_diag, firstn_0.
  apply app_nil_r.
Qed.

Lemma framed_wellFramed (messageBytes pad : bytes) :
  (Z.of_nat (length messageBytes) < 2 ^ 32)%Z ->
  wellFramed (framed messageBytes pad).
Proof.
  intros H. unfold wellFramed, framed.
  rewrite firstn_PutUint32, Uint32_PutUint32.
  unfold wrap32. rewrite Z.mod_small by lia.
  rewrite !length_app, PutUint32_length. lia.
Qed.

(** [decryptMessage] when the first pairing opens the box. *)
Lemma decryptMessage_first (c : client) (sealed nonce : bytes)
  (from : Contact) (plaintext : bytes) :
  box_Open sealed nonce (theirLastDHPublic from) (lastDHPrivate from)
  = Some plaintext ->
  decryptMessage c sealed nonce from
  = Ok (Some plaintext, from,
        emit (BoxOpen (theirLastDHPublic from) (lastDHPrivate from) true) c).
Proof.
  intros H. unfold decryptMessage, decryptMessageInner, tryOpen.
  rewrite H. reflexivity.
Qed.

(** [decryptMessage] on an ephemeral header followed by a nonce and a box:
    no pairing opens the whole, the first pairing opens the header, which
    holds a 32-byte key, and that key with [lastDHPrivate] opens the box. *)
Lemma decryptMessage_ephemeral (c : client) (header innerNonce box nonce : bytes)
  (from : Contact) (publicBytes plaintext : bytes) :
  length header = 48 ->
  length innerNonce = 24 ->
  (forall pub private,
      box_Open (header ++ innerNonce ++ box) nonce pub private = None) ->
  box_Open header nonce (theirLastDHPublic from) (lastDHPrivate from)
  = Some publicBytes ->
  length publicBytes = 32 ->
  box_Open box innerNonce publicBytes (lastDHPrivate from) = Some plaintext ->
  exists c1,
    decryptMessage c (header ++ innerNonce ++ box) nonce from
    = Ok (Some plaintext, from, c1)
    /\ inbox c1 = inbox c /\ outbox c1 = outbox c /\ contacts c1 = contacts c.
Proof.
  intros Lh Ln Hnone Hhead Lp Hbox.
  unfold decryptMessage.
  rewrite decryptMessageInner_spec.
  assert (Hl : snd (ladder (header ++ innerNonce ++ box) nonce
                      (combinations from)) = None).
  { unfold combinations, ladder. rewrite !Hnone. reflexivity. }
  unfold afterLadder at 1. rewrite Hl.
  cbv beta iota delta [bind].
  unfold ephemeralBlockLen, nonceLen, box_Overhead.
  destruct (Nat.ltb_spec (24 + 32 + 16 - 24)
              (length (header ++ innerNonce ++ box))) as [_|Hc];
    [|rewrite !length_app in Hc; lia].
  change (24 + 32 + 16 - 24) with 48.
  rewrite firstn_app_exact by (symmetry; exact Lh).
  unfold decryptMessageInner, tryOpen.
  cbn [lastDHPrivate theirLastDHPublic]. rewrite Hhead.
  cbv beta iota delta [bind].
  rewrite Lp. cbn [Nat.eqb negb].
  rewrite skipn_app_exact by (symmetry; exact Lh).
  destruct (Nat.ltb_spec (length (innerNonce ++ box)) 24) as [Hc|_];
    [rewrite length_app in Hc; lia|].
  rewrite copy_at_make_firstn by (rewrite length_app; lia).
  rewrite firstn_app_exact by (symmetry; exact Ln).
  rewrite skipn_app_exact by (symmetry; exact Ln).
  rewrite copy_at_make_firstn by lia.
  rewrite firstn_all2 by lia.
  rewrite Hbox.
  eexists. split; [reflexivity|]. split; [reflexivity|]. split; reflexivity.
Qed.

End UnsealAccepted.

Section RoundTrip.

Context `{P : Primitives}.

(** What accepting a message does to the contact. *)
Lemma accepted_contact (from1 : Contact) (msg : Message) :
  let from' :=
    set_kxsBytes None
      (let from2 :=
         if negb (bytes_eqb (theirCurrentDHPublic from1) (MyNextDh msg))
         then
           set_theirCurrentDHPublic (MyNextDh msg)
             (set_theirLastDHPublic (theirCurrentDHPublic from1) from1)
         else from1 in
       match SupportedVersion msg with
       | Some v => set_supportedVersion v from2
       | None => from2
       end) in
  theirCurrentDHPublic from' = MyNextDh msg
  /\ lastDHPrivate from' = lastDHPrivate from1
  /\ currentDHPrivate from' = currentDHPrivate from1
  /\ kxsBytes from' = None
  /\ contactId from' = contactId from1
  /\ (theirCurrentDHPublic from1 <> MyNextDh msg ->
      theirLastDHPublic from' = theirCurrentDHPublic from1)
  /\ (theirCurrentDHPublic from1 = MyNextDh msg ->
      theirLastDHPublic from' = theirLastDHPublic from1)
  /\ supportedVersion from'
     = match SupportedVersion msg with
       | Some v => v
       | None => supportedVersion from1
       end.
Proof.
  cbv zeta.
  destruct (bytes_eqb (theirCurrentDHPublic from1) (MyNextDh msg)) eqn:E;
    cbn [negb]; destruct (SupportedVersion msg); cbn;
    repeat split; auto; try congruence;
    try (apply bytes_eqb_eq; assumption);
    try (intros He; rewrite He, bytes_eqb_refl in E; discriminate);
    try (intros He; apply bytes_eqb_eq in E; contradiction).
Qed.

Lemma send_stamped (c c' : client) (to : Contact) (message : Message) :
  send c to message = Ok (c', None) ->
  exists mid mtime, Id message = Some mid /\ Time message = Some mtime.
Proof.
  unfold send. intros H.
  destruct (proto_Marshal_Message message) as [e|messageBytes]; [discriminate|].
  destruct (MaxSerializedMessage <? length messageBytes); [discriminate|].
  destruct (randBytes c _) as [[pad c1]|]; [|discriminate].
  cbv beta iota delta [bind] in H.
  destruct (randBytes c1 24) as [[innerNonce c2]|]; [|discriminate].
  cbv beta iota delta [bind] in H.
  destruct (1 <=? supportedVersion to)%Z.
  - destruct (box_GenerateKey (rand c2)) as [[e|[public private]] r];
      [discriminate|].
    destruct (randBytes (set_rand r c2) 24) as [[outerNonce c3]|];
      [|discriminate].
    cbv beta iota delta [bind] in H.
    destruct (myGroupKey to); [|discriminate].
    cbv beta iota delta [bind deref] in H.
    destruct (MemberKey_Sign _ _ _) as [[e|groupSig] r'] in H; [discriminate|].
    destruct (Id message) as [mid|]; [|discriminate].
    destruct (Time message) as [mtime|]; [|discriminate].
    eauto.
  - cbv beta iota delta [bind] in H.
    destruct (myGroupKey to); [|discriminate].
    cbv beta iota delta [bind deref] in H.
    destruct (MemberKey_Sign _ _ _) as [[e|groupSig] r'] in H; [discriminate|].
    destruct (Id message) as [mid|]; [|discriminate].
    destruct (Time message) as [mtime|]; [|discriminate].
    eauto.
Qed.

(** What [send] seals, [unsealMessage] gives back. *)
Lemma send_unseal (s s' : client) (to : Contact)
  (message : Message) (out : queuedMessage) (d : Delivery)
  (c : client) (from : Contact) (im : InboxMessage) (now : Z) :
  lengthLaws ->
  (Z.of_nat (MaxSerializedMessage + 4) < 2 ^ 32)%Z ->
  opensFor to from ->
  ((1 <= supportedVersion to)%Z -> opensEphemeral to from /\ rejectsTrailing) ->
  (forall messageBytes,
      proto_Marshal_Message message = inr messageBytes ->
      proto_Unmarshal_Message messageBytes = inr message) ->
  length (MyNextDh message) = 32 ->
  send s to message = Ok (s', None) ->
  queue s' = queue s ++ [out] ->
  Deliver (request out) = Some d ->
  isPending from = false ->
  sealed im = Some (DeliveryMessage d) ->
  isDuplicate (inbox c) (contactId from) (inboxId im) message = Ok false ->
  exists from' c',
    unsealMessage c im from now
    = Ok (true,
          set_read false (set_sealed None (set_inboxMessage (Some message) im)),
          from', c')
    /\ contacts c' = contacts c
    /\ inbox c' = inbox c
    /\ contactId from' = contactId from
    /\ lastDHPrivate from' = lastDHPrivate from
    /\ currentDHPrivate from' = currentDHPrivate from
    /\ theirCurrentDHPublic from' = MyNextDh message.
Proof.
  intros L Hmax Hopen Heph Hparse Hdh Hsend Hq Hd Hpend Hsealed Hdup.
  pose proof L as (Lr & Ls & Lg).
  destruct (send_layout _ _ _ L Hsend)
    as (mb & pad & innerNonce & out0 & d0 & Hm & Hmb & Lf & Ln & Hq0 & Hd0
        & Hv0 & Hv1).
  rewrite Hq in Hq0. apply app_inj_tail in Hq0. destruct Hq0 as [_ <-].
  rewrite Hd in Hd0. injection Hd0 as <-.
  assert (Hshort : short (framed mb pad)).
  { unfold short. rewrite Lf. exact Hmax. }
  assert (Hmb32 : (Z.of_nat (length mb) < 2 ^ 32)%Z) by lia.
  assert (Hsb : sealedBytes im = DeliveryMessage d).
  { unfold sealedBytes. rewrite Hsealed. reflexivity. }
  pose proof (framed_wellFramed mb pad Hmb32) as Hwf.
  pose proof (framed_payload mb pad Hmb32) as Hpl.
  pose proof (Hparse _ Hm) as Hun. rewrite <- Hpl in Hun.
  assert (Hfin : forall c1,
             24 <= length (sealedBytes im) ->
             decryptMessage c (skipn 24 (sealedBytes im))
               (firstn 24 (sealedBytes im)) from
             = Ok (Some (framed mb pad), from, c1) ->
             inbox c1 = inbox c ->
             contacts c1 = contacts c ->
             exists from' c',
               unsealMessage c im from now
               = Ok (true,
                     set_read false
                       (set_sealed None (set_inboxMessage (Some message) im)),
                     from', c')
               /\ contacts c' = contacts c
               /\ inbox c' = inbox c
               /\ contactId from' = contactId from
               /\ lastDHPrivate from' = lastDHPrivate from
               /\ currentDHPrivate from' = currentDHPrivate from
               /\ theirCurrentDHPublic from' = MyNextDh message).
  { intros c1 Hlen Hdec Hin Hcs. rewrite <- Hin in Hdup.
    pose proof (unsealMessage_accepted _ _ _ now Hpend Hlen Hdec Hwf Hun Hdh
                  Hdup) as Hu.
    destruct (accepted_contact from message) as (A1 & A2 & A3 & _ & A5 & _).
    eexists _, _. split; [exact Hu|].
    split; [destruct (InReplyTo message); rewrite <- Hcs; reflexivity|].
    split; [destruct (InReplyTo message); rewrite <- Hin; reflexivity|].
    split; [exact A5|]. split; [exact A2|]. split; [exact A3|exact A1]. }
  destruct (Z.lt_ge_cases (supportedVersion to) 1) as [Hv|Hv].
  - specialize (Hv0 Hv). rewrite Hv0 in Hsb.
    assert (Hlen : 24 <= length (sealedBytes im)).
    { rewrite Hsb, length_app. lia. }
    eapply Hfin; [exact Hlen| | |].
    + rewrite Hsb.
      rewrite firstn_app_exact by (symmetry; exact Ln).
      rewrite skipn_app_exact by (symmetry; exact Ln).
      apply decryptMessage_first. apply Hopen. exact Hshort.
    + reflexivity.
    + reflexivity.
  - destruct (Hv1 Hv) as (r & public & private & r' & outerNonce & Hg & Lo
                          & Hdm).
    destruct (Heph Hv) as [He Hrej].
    rewrite Hdm in Hsb.
    assert (Hlen : 24 <= length (sealedBytes im)).
    { rewrite Hsb, length_app. lia. }
    pose proof (Lg _ _ _ _ Hg) as Lpub.
    destruct (@decryptMessage_ephemeral P c
                (box_Seal public outerNonce (theirCurrentDHPublic to)
                   (lastDHPrivate to))
                innerNonce
                (box_Seal (framed mb pad) innerNonce (theirCurrentDHPublic to)
                   private)
                outerNonce from public (framed mb pad))
      as (c1 & Hdec & Hin & _ & Hcs).
    + rewrite Ls, Lpub. reflexivity.
    + exact Ln.
    + intros pub private0. apply Hrej.
      destruct innerNonce; [discriminate|discriminate].
    + apply Hopen. unfold short. rewrite Lpub. reflexivity.
    + exact Lpub.
    + eapply He; [exact Hg|exact Hshort].
    + eapply Hfin; [exact Hlen| |exact Hin|exact Hcs].
      rewrite Hsb.
      rewrite firstn_app_exact by (symmetry; exact Lo).
      rewrite skipn_app_exact by (symmetry; exact Lo).
      exact Hdec.
Qed.

(** X1. What [send] seals, [unsealMessage] gives back.  When the peer's
    first pairing opens what the sender's keys seal (and, for a peer of
    version 1 or more, the ephemeral key opens the inner box while no box
    opens with bytes following it), the serialized message parses back to
    the message, its DH value has 32 bytes and the receiver holds no message
    with its id, then unsealing the bytes that [send] queued succeeds, the
    inbox entry holds the message that was sent and no sealed bytes,
    the private DH values are untouched and the contact's current public
    value is the one the message announced. *)
Theorem send_unseal_round_trip (s s' : client) (to : Contact)
  (message : Message) (out : queuedMessage) (d : Delivery)
  (c : client) (from : Contact) (im : InboxMessage) (now : Z) :
  lengthLaws ->
  (Z.of_nat (MaxSerializedMessage + 4) < 2 ^ 32)%Z ->
  opensFor to from ->
  ((1 <= supportedVersion to)%Z -> opensEphemeral to from /\ rejectsTrailing) ->
  (forall messageBytes,
      proto_Marshal_Message message = inr messageBytes ->
      proto_Unmarshal_Message messageBytes = inr message) ->
  length (MyNextDh message) = 32 ->
  send s to message = Ok (s', None) ->
  queue s' = queue s ++ [out] ->
  Deliver (request out) = Some d ->
  isPending from = false ->
  sealed im = Some (DeliveryMessage d) ->
  isDuplicate (inbox c) (contactId from) (inboxId im) message = Ok false ->
  exists im' from' c',
    unsealMessage c im from now = Ok (true, im', from', c')
    /\ inboxMessage im' = Some message
    /\ sealed im' = None
    /\ lastDHPrivate from' = lastDHPrivate from
    /\ currentDHPrivate from' = currentDHPrivate from
    /\ theirCurrentDHPublic from' = MyNextDh message.
Proof.
  intros L Hmax Hopen Heph Hparse Hdh Hsend Hq Hd Hpend Hsealed Hdup.
  destruct (@send_unseal s s' to message out d c from im now L Hmax Hopen
              Heph Hparse Hdh Hsend Hq Hd Hpend Hsealed Hdup)
    as (from' & c' & Hu & _ & _ & _ & H1 & H2 & H3).
  eexists _, from', c'. split; [exact Hu|].
  split; [reflexivity|]. split; [reflexivity|].
  split; [exact H1|]. split; [exact H2|exact H3].
Qed.

(** X2. A message that [unsealMessage] accepts is one that decryption
    opened to a well-framed plaintext whose payload parses.  It leaves the
    inbox entry with the parsed message and without sealed bytes, unread;
    the contact has no key-exchange bytes left, its private DH values are
    those of the contact that this decryption returned, its current public
    DH value is the 32-byte value the message announced, and when that
    value is new the previous one has become the last public value. *)
Theorem unseal_accepted_state (c c' : client) (im im' : InboxMessage)
  (from from' : Contact) (now : Z) :
  unsealMessage c im from now = Ok (true, im', from', c') ->
  exists msg from1,
    (exists plaintext c1,
        decryptMessage c (skipn 24 (sealedBytes im))
          (firstn 24 (sealedBytes im)) from
        = Ok (Some plaintext, from1, c1)
        /\ wellFramed plaintext
        /\ proto_Unmarshal_Message (payload plaintext) = inr msg)
    /\ privatesOnly from from1
    /\ inboxMessage im' = Some msg
    /\ sealed im' = None
    /\ read im' = false
    /\ inboxId im' = inboxId im
    /\ kxsBytes from' = None
    /\ length (MyNextDh msg) = 32
    /\ theirCurrentDHPublic from' = MyNextDh msg
    /\ lastDHPrivate from' = lastDHPrivate from1
    /\ currentDHPrivate from' = currentDHPrivate from1
    /\ (theirCurrentDHPublic from <> MyNextDh msg ->
        theirLastDHPublic from' = theirCurrentDHPublic from)
    /\ (theirCurrentDHPublic from = MyNextDh msg ->
        theirLastDHPublic from' = theirLastDHPublic from).
Proof.
  unfold unsealMessage. intros H.
  destruct (isPending from); [discriminate|].
  destruct (Nat.ltb_spec (length (sealedBytes im)) 24); [discriminate|].
  rewrite copy_at_make_firstn in H by assumption.
  destruct (decryptMessage c _ _ from) as [[[r from1] c1]|] eqn:Hd;
    [|discriminate].
  apply decryptMessage_frame in Hd. destruct Hd as [Hpo _].
  cbv beta iota delta [bind] in H.
  destruct r as [plaintext|]; [|discriminate].
  destruct (Nat.ltb_spec (length plaintext) 4) as [|Hf1]; [discriminate|].
  destruct (_ || _) eqn:Hf2; [discriminate|].
  apply orb_false_elim in Hf2. destruct Hf2 as [_ Hf2].
  apply Z.ltb_ge in Hf2. rewrite length_skipn in Hf2.
  destruct (proto_Unmarshal_Message _) as [e|msg] eqn:Hm; [discriminate|].
  destruct (Nat.eqb_spec (length (MyNextDh msg)) 32) as [Hl|];
    [|discriminate].
  cbn [negb] in H.
  destruct (isDuplicate _ _ _ _) as [[|]|]; [discriminate| |discriminate].
  injection H as <- <- <-.
  destruct (accepted_contact from1 msg) as (A1 & A2 & A3 & A4 & _ & A6 & A7 & _).
  assert (Ec : theirCurrentDHPublic from1 = theirCurrentDHPublic from).
  { rewrite Hpo. destruct from; reflexivity. }
  assert (El : theirLastDHPublic from1 = theirLastDHPublic from).
  { rewrite Hpo. destruct from; reflexivity. }
  exists msg, from1.
  split.
  { exists plaintext, c1. split; [reflexivity|].
    split; [split; [exact Hf1|exact Hf2]|exact Hm]. }
  split; [exact Hpo|]. split; [reflexivity|]. split; [reflexivity|].
  split; [reflexivity|]. split; [reflexivity|]. split; [exact A4|].
  split; [exact Hl|]. split; [exact A1|]. split; [exact A2|].
  split; [exact A3|]. split.
  - intros Hn. etransitivity; [apply A6; congruence|exact Ec].
  - intros He. etransitivity; [apply A7; congruence|exact El].
Qed.

(** X3. A message that [unsealMessage] refuses changes nothing but the log
    and what decryption has done: the inbox entry is as it was, the contact
    is the one that decryption returned, which is the contact as it was up
    to its two private DH values, and the client is the one that decryption
    returned with one line added to its log.  Decryption itself adds
    nothing but its calls of [box.Open]; the inbox, the outbox and the
    queue of the client are untouched. *)
Theorem unseal_refused_frame (c c' : client) (im im' : InboxMessage)
  (from from' : Contact) (now : Z) :
  unsealMessage c im from now = Ok (false, im', from', c') ->
  im' = im
  /\ privatesOnly from from'
  /\ inbox c' = inbox c
  /\ outbox c' = outbox c
  /\ queue c' = queue c
  /\ (exists logged, events c' = events c ++ logged /\ logged <> [])
  /\ exists r c1 line opens,
      decryptMessage c (skipn 24 (sealedBytes im))
        (firstn 24 (sealedBytes im)) from
      = Ok (r, from', c1)
      /\ c' = emit line c1
      /\ isLogLine line = true
      /\ events c1 = events c ++ opens
      /\ Forall (fun e => isBoxOpen e = true) opens
      /\ events c' = events c ++ opens ++ [line].
Proof.
  intros H. pose proof H as H0.
  apply unsealMessage_tail in H0.
  destruct H0 as (r & from1 & c1 & rest & Hd & _ & _ & _ & _ & Hb).
  destruct (Hb eq_refl) as (line & Hline & -> & -> & ->). clear Hb.
  pose proof (decryptMessage_frame _ _ _ _ Hd) as [Hpo [more G]].
  pose proof (decryptMessage_opens _ _ _ _ Hd) as (opens & Ho & Hall).
  unfold grownBy in G.
  split; [reflexivity|]. split; [exact Hpo|].
  split; [rewrite G; reflexivity|]. split; [rewrite G; reflexivity|].
  split; [rewrite G; reflexivity|].
  assert (Ev : events (emit line c1) = events c ++ opens ++ [line]).
  { unfold emit. cbn [events set_events]. rewrite Ho, <- app_assoc.
    reflexivity. }
  split.
  - exists (opens ++ [line]). split; [exact Ev|].
    intros Hn. apply app_eq_nil in Hn. destruct Hn as [_ Hn]. discriminate.
  - exists r, c1, line, opens. repeat split; assumption.
Qed.

End RoundTrip.

(** ** The instance [Paired] *)

Module PairedFacts.

Lemma byte_eqb_refl (a : byte) : Toy.byte_eqb a a = true.
Proof. unfold Toy.byte_eqb. destruct (Byte.byte_eq_dec a a); auto. Qed.

Lemma shared_comm (a b : byte) :
  Paired.shared (Toy.key a) (Toy.key b) = Paired.shared (Toy.key b) (Toy.key a).
Proof.
  unfold Paired.shared.
  change (Toy.name (Toy.key a)) with a. change (Toy.name (Toy.key b)) with b.
  rewrite Z.lxor_comm. reflexivity.
Qed.

(** A box opens under keys that share the secret it was sealed with. *)
Lemma open_seal (pt n pub private pub' private' : bytes) :
  short pt ->
  Paired.shared pub private = Paired.shared pub' private' ->
  Paired.open (Paired.seal pt n pub private) n pub' private' = Some pt.
Proof.
  unfold short. intros Hs He. unfold Paired.open, Paired.seal.
  rewrite He, !byte_eqb_refl. cbn [andb].
  rewrite firstn_PutUint32, Uint32_PutUint32.
  unfold wrap32. rewrite Z.mod_small by lia.
  rewrite !length_app, PutUint32_length, repeat_length.
  destruct (Nat.leb_spec 14 (4 + (10 + length pt))) as [_|]; [|lia].
  replace (4 + (10 + length pt) - 14) with (length pt) by lia.
  rewrite Z.eqb_refl. cbn [andb].
  rewrite app_assoc, skipn_app_exact; [reflexivity|reflexivity].
Qed.

(** A box followed by more bytes does not open. *)
Lemma open_trailing (m n pk sk extra n' pk' sk' : bytes) :
  extra <> [] ->
  Paired.open (Paired.seal m n pk sk ++ extra) n' pk' sk' = None.
Proof.
  intros He. unfold Paired.open, Paired.seal. cbn [app].
  rewrite <- app_assoc, firstn_PutUint32, Uint32_PutUint32.
  rewrite !length_app, PutUint32_length, repeat_length.
  assert (0 < length extra) by (destruct extra; [contradiction|simpl; lia]).
  assert (Hw : (wrap32 (Z.of_nat (length m)) <= Z.of_nat (length m))%Z).
  { unfold wrap32. apply Z.mod_le; lia. }
  destruct (Z.eqb_spec
              (Z.of_nat (4 + (10 + length m + length extra) - 14))
              (wrap32 (Z.of_nat (length m)))) as [E|_].
  - lia.
  - rewrite !Bool.andb_false_r. reflexivity.
Qed.

End PairedFacts.

Section RevokeMore.

Context `{P : Primitives}.

Lemma randId_rand (c c' : client) (i : Z) :
  randId c = Ok (i, c') -> exists r, c' = set_rand r c.
Proof.
  unfold randId, randBytes.
  destruct (io_ReadFull (rand c) 8) as [[b r]|]; [|discriminate].
  cbv beta iota delta [bind]. intros E. injection E as _ <-. eauto.
Qed.

(** The contact table, the retained group keys and the group key after
    [revoke]. *)
Lemma revoke_state (c c' : client) (toId now created : Z) :
  revoke c toId now created = Ok c' ->
  exists to,
    lookupContact (contacts c) toId = Some to
    /\ contactId to = toId
    /\ contacts c'
       = map (fun contact =>
                if (contactId contact =? toId)%Z then contact
                else
                  set_groupKey
                    (fst (MemberKey_Update (groupKey contact)
                            (PrivateKey_GenerateRevocation (groupPriv c)
                               (groupKey to))))
                    (set_previousTags
                       (previousTags contact
                          ++ [mkPreviousTag (MemberKey_Tag (groupKey contact))
                                now])
                       contact))
           (updateContact (contacts c) (set_revoked true to))
    /\ prevGroupPrivs c'
       = prevGroupPrivs c
           ++ [mkPreviousGroupPrivateKey
                 (PrivateKey_Unmarshal
                    (Group_Unmarshal
                       (Group_Marshal (PrivateKey_Group (groupPriv c))))
                    (PrivateKey_Marshal (groupPriv c)))
                 now]
    /\ groupPriv c'
       = PrivateKey_GroupUpdate (groupPriv c)
           (PrivateKey_GenerateRevocation (groupPriv c) (groupKey to))
    /\ inbox c' = inbox c.
Proof.
  unfold revoke. intros H.
  destruct (lookupContact (contacts c) toId) as [to|] eqn:El; [|discriminate].
  exists to. split; [reflexivity|].
  assert (Hid : contactId to = toId).
  { unfold lookupContact in El. apply find_some in El.
    destruct El as [_ El]. apply Z.eqb_eq in El. exact El. }
  split; [exact Hid|].
  cbv beta iota zeta delta [bind deref] in H.
  match type of H with
  | context [proto_Marshal_Revocation ?b] =>
    destruct (proto_Marshal_Revocation b) as [e|revBytes]; [discriminate|]
  end.
  match type of H with
  | context [randId ?x] =>
    destruct (randId x) as [[rid c1]|] eqn:Er; [|discriminate]
  end.
  apply randId_rand in Er. destruct Er as [r ->].
  injection H as <-.
  split; [reflexivity|]. split; [reflexivity|]. split; reflexivity.
Qed.



(** X5. [revoke] keeps every other contact reachable under the tag it had:
    the contact's entry after the call has the same id, lists the old tag
    with the time of the revocation among its previous tags, carries the
    updated member key, and is matched by the old tag. *)
Theorem revoke_keeps_old_tags (c c' : client) (toId now created : Z)
  (k : Contact) :
  revoke c toId now created = Ok c' ->
  In k (contacts c) ->
  contactId k <> toId ->
  exists to k',
    lookupContact (contacts c) toId = Some to
    /\ In k' (contacts c')
    /\ contactId k' = contactId k
    /\ previousTags k'
       = previousTags k ++ [mkPreviousTag (MemberKey_Tag (groupKey k)) now]
    /\ groupKey k'
       = fst (MemberKey_Update (groupKey k)
                (PrivateKey_GenerateRevocation (groupPriv c) (groupKey to)))
    /\ revoked k' = revoked k
    /\ matchesTag (MemberKey_Tag (groupKey k)) k' = true.
Proof.
  intros H Hin Hid. apply revoke_state in H.
  destruct H as (to & Hl & Hto & Hc & _).
  exists to.
  eexists (set_groupKey _ (set_previousTags _ k)).
  split; [exact Hl|]. split.
  - rewrite Hc. apply in_map_iff. exists k. split.
    + destruct (Z.eqb_spec (contactId k) toId); [contradiction|reflexivity].
    + unfold updateContact. apply in_map_iff. exists k. split; [|exact Hin].
      change (contactId (set_revoked true to)) with (contactId to).
      rewrite Hto.
      destruct (Z.eqb_spec (contactId k) toId); [contradiction|reflexivity].
  - split; [reflexivity|]. split; [reflexivity|]. split; [reflexivity|].
    split; [reflexivity|].
    unfold matchesTag. apply Bool.orb_true_iff. right.
    cbn [previousTags set_groupKey set_previousTags].
    rewrite existsb_app. apply Bool.orb_true_iff. right.
    cbn [existsb tag]. rewrite bytes_eqb_refl. reflexivity.
Qed.

(** X6. A group signature that verified before [revoke] still passes the
    check of [processFetch] after it: when the group key survives its own
    serialization, the copy that [revoke] retains verifies what the key
    verified, and the signature is opened with the new group key. *)
Theorem revoke_keeps_old_signatures (c c' : client) (toId now created : Z)
  (digest sig : bytes) :
  revoke c toId now created = Ok c' ->
  retainedKeysPresent c ->
  PrivateKey_Unmarshal
    (Group_Unmarshal (Group_Marshal (PrivateKey_Group (groupPriv c))))
    (PrivateKey_Marshal (groupPriv c))
  = Some (groupPriv c) ->
  PrivateKey_Verify (groupPriv c) digest sig = true ->
  openTag c' digest sig = Ok (Some (PrivateKey_Open (groupPriv c') sig)).
Proof.
  intros H Hr Hrt Hv. apply revoke_state in H.
  destruct H as (to & _ & _ & _ & Hp & _).
  unfold openTag.
  destruct (PrivateKey_Verify (groupPriv c') digest sig); [reflexivity|].
  rewrite Hp, Hrt.
  rewrite verifiedByPrevious_found; [reflexivity| |].
  - apply Forall_app. split; [exact Hr|].
    constructor; [discriminate|constructor].
  - exists (mkPreviousGroupPrivateKey (Some (groupPriv c)) now), (groupPriv c).
    split; [apply in_or_app; right; left; reflexivity|].
    split; [reflexivity|exact Hv].
Qed.

End RevokeMore.

Section SentMore.

Context `{P : Primitives}.

Lemma dropQueued_fst (q : list queuedMessage) (toId : Z) :
  fst (dropQueued q toId) = filter (fun m => negb (qmTo m =? toId)%Z) q.
Proof.
  induction q as [|m rest IH]; [reflexivity|].
  simpl. destruct (dropQueued rest toId) as [newQueue evs]. simpl in IH.
  destruct (qmTo m =? toId)%Z; simpl; rewrite IH; reflexivity.
Qed.

Lemma dropQueued_snd (q : list queuedMessage) (toId : Z) :
  snd (dropQueued q toId)
  = map (fun m => OutboxUISetIndicator (qmId m) indicatorBlack)
      (filter (fun m => (qmTo m =? toId)%Z) q).
Proof.
  induction q as [|m rest IH]; [reflexivity|].
  simpl. destruct (dropQueued rest toId) as [newQueue evs]. simpl in IH.
  destruct (qmTo m =? toId)%Z; simpl; rewrite IH; reflexivity.
Qed.

Lemma lookupContact_id (cs : list Contact) (i : Z) (k : Contact) :
  lookupContact cs i = Some k -> contactId k = i.
Proof.
  unfold lookupContact. intros H. apply find_some in H.
  destruct H as [_ H]. apply Z.eqb_eq. exact H.
Qed.

Lemma lookupContact_update (cs : list Contact) (i : Z) (k k' : Contact) :
  lookupContact cs i = Some k ->
  contactId k' = i ->
  lookupContact (updateContact cs k') i = Some k'.
Proof.
  unfold lookupContact, updateContact. intros H Hk. subst i.
  induction cs as [|x rest IH]; [discriminate|].
  cbn [find map] in *.
  destruct (Z.eqb_spec (contactId x) (contactId k')) as [E|E].
  - rewrite Z.eqb_refl. reflexivity.
  - destruct (Z.eqb_spec (contactId x) (contactId k')); [contradiction|].
    apply IH. exact H.
Qed.

(** [processMessageSent] up to the verification of a revocation whose
    generation is current and whose signature has 64 bytes or more. *)
Lemma processMessageSent_verified (c : client) (msr : messageSendResult)
  (now : Z) (revocation : SignedRevocation)
  (body : SignedRevocation_Revocation) (msg : queuedMessage) (to : Contact)
  (revBytes : bytes) (rev : RevocationToken) (key : MemberKey) :
  msrRevocation msr = Some revocation ->
  find (fun m => (qmId m =? msrId msr)%Z) (outbox c) = Some msg ->
  lookupContact (contacts c) (qmTo msg) = Some to ->
  SRRevocation revocation = Some body ->
  RevGeneration body = Some (contactGeneration to) ->
  proto_Marshal_Revocation body = inr revBytes ->
  64 <= length (SRSignature revocation) ->
  ed25519_Verify (theirPub to) (revocationSignaturePrefix ++ revBytes)
    (firstn 64 (SRSignature revocation)) = true ->
  Revocation_Unmarshal (RevRevocation body) = Some rev ->
  myGroupKey to = Some key ->
  processMessageSent c msr now
  = let to1 :=
      set_myGroupKey (Some (fst (MemberKey_Update key rev)))
        (set_contactGeneration (wrap32 (contactGeneration to + 1)) to) in
    let '(to2, c1) :=
      if negb (snd (MemberKey_Update key rev)) then
        (set_revokedUs true to1,
         set_queue (fst (dropQueued (queue c) (qmTo msg)))
           (set_events
              (events c
                 ++ [LogPrintf "Revoked by %s";
                     ContactsUISetIndicator (contactId to) indicatorBlack;
                     ContactsUISetSubline (contactId to) "has revoked"]
                 ++ snd (dropQueued (queue c) (qmTo msg)))
              c))
      else
        let key2 := MemberKey_GroupUpdate (fst (MemberKey_Update key rev)) rev in
        (set_myGroupKey (Some key2) to1,
         emit (RevocationUpdateChan
                 (mkRevocationUpdate (qmTo msg)
                    (MemberKey_Unmarshal (MemberKey_Group key2)
                       (MemberKey_Marshal key2))
                    (wrap32 (contactGeneration to + 1)))) c) in
    Ok (emit UISignal
          (emit (UIAction "uiStateRevocationProcessed")
             (set_contacts (updateContact (contacts c1) to2) c1))).
Proof.
  intros Hr Hm Ht Hb Hg Hmar Hl Hv Hu Hk. unfold processMessageSent.
  rewrite Hr, Hm. cbv beta iota delta [bind deref].
  rewrite Ht, Hb. cbv beta iota. rewrite Hg. cbv beta iota.
  rewrite Z.eqb_refl. cbn [negb]. rewrite Hmar.
  unfold ed25519_SignatureSize.
  rewrite copy_count_long by assumption. cbn [Nat.eqb negb].
  rewrite copy_at_make_firstn by assumption.
  change (([] ++ revocationSignaturePrefix) ++ revBytes)
    with (revocationSignaturePrefix ++ revBytes).
  rewrite Hv. cbn [negb]. rewrite Hu.
  cbn [myGroupKey set_contactGeneration]. rewrite Hk.
  cbv beta iota zeta.
  destruct (MemberKey_Update key rev) as [key1 ok]. cbn [fst snd].
  destruct ok; cbn [negb].
  - reflexivity.
  - destruct (dropQueued (queue c) (qmTo msg)) as [newQueue evs] eqn:Ed.
    cbn [fst snd]. unfold emit.
    cbn [queue events set_events set_queue contactId set_revokedUs
         set_myGroupKey set_contactGeneration].
    rewrite Ed. rewrite <- !app_assoc. reflexivity.
Qed.

(** X7. A revocation that the server returns for a sent message is refused
    when its generation is not the contact's or when its signature does not
    verify under the contact's key: [processMessageSent] writes one line to
    the log and changes nothing else. *)
Theorem sent_revocation_refused (c : client) (msr : messageSendResult)
  (now : Z) (revocation : SignedRevocation)
  (body : SignedRevocation_Revocation) (msg : queuedMessage) (to : Contact)
  (gen : Z) :
  msrRevocation msr = Some revocation ->
  find (fun m => (qmId m =? msrId msr)%Z) (outbox c) = Some msg ->
  lookupContact (contacts c) (qmTo msg) = Some to ->
  SRRevocation revocation = Some body ->
  RevGeneration body = Some gen ->
  gen <> contactGeneration to
  \/ (forall revBytes,
        proto_Marshal_Revocation body = inr revBytes ->
        ed25519_Verify (theirPub to) (revocationSignaturePrefix ++ revBytes)
          (copy_at (make 64) 0 (SRSignature revocation)) = false) ->
  exists line, processMessageSent c msr now = Ok (emit (LogPrintf line) c).
Proof.
  intros Hr Hm Ht Hb Hg Hbad. unfold processMessageSent.
  rewrite Hr, Hm. cbv beta iota delta [bind deref].
  rewrite Ht, Hb. cbv beta iota. rewrite Hg. cbv beta iota.
  destruct (Z.eqb_spec gen (contactGeneration to)) as [E|E]; cbn [negb];
    [|eauto].
  destruct Hbad as [Hbad|Hbad]; [contradiction|].
  destruct (proto_Marshal_Revocation body) as [e|revBytes]; [eauto|].
  destruct (negb (copy_count ed25519_SignatureSize (SRSignature revocation)
                  =? ed25519_SignatureSize)); [eauto|].
  change (([] ++ revocationSignaturePrefix) ++ revBytes)
    with (revocationSignaturePrefix ++ revBytes).
  unfold ed25519_SignatureSize. rewrite (Hbad revBytes eq_refl).
  cbn [negb]. eauto.
Qed.

(** X8. When a verified revocation shows that the contact has revoked us
    (our member key cannot be updated), [processMessageSent] takes every
    message to that contact out of the queue and keeps the others in
    order, marks the contact as having revoked us with its generation
    advanced, leaves the outbox alone and posts no revocation update. *)
Theorem sent_revoked_us (c : client) (msr : messageSendResult)
  (now : Z) (revocation : SignedRevocation)
  (body : SignedRevocation_Revocation) (msg : queuedMessage) (to : Contact)
  (revBytes : bytes) (rev : RevocationToken) (key : MemberKey) :
  msrRevocation msr = Some revocation ->
  find (fun m => (qmId m =? msrId msr)%Z) (outbox c) = Some msg ->
  lookupContact (contacts c) (qmTo msg) = Some to ->
  SRRevocation revocation = Some body ->
  RevGeneration body = Some (contactGeneration to) ->
  proto_Marshal_Revocation body = inr revBytes ->
  64 <= length (SRSignature revocation) ->
  ed25519_Verify (theirPub to) (revocationSignaturePrefix ++ revBytes)
    (firstn 64 (SRSignature revocation)) = true ->
  Revocation_Unmarshal (RevRevocation body) = Some rev ->
  myGroupKey to = Some key ->
  snd (MemberKey_Update key rev) = false ->
  exists c' to',
    processMessageSent c msr now = Ok c'
    /\ queue c' = filter (fun m => negb (qmTo m =? qmTo msg)%Z) (queue c)
    /\ outbox c' = outbox c
    /\ lookupContact (contacts c') (qmTo msg) = Some to'
    /\ revokedUs to' = true
    /\ contactGeneration to' = wrap32 (contactGeneration to + 1)
    /\ events c'
       = events c
           ++ [LogPrintf "Revoked by %s";
               ContactsUISetIndicator (contactId to) indicatorBlack;
               ContactsUISetSubline (contactId to) "has revoked"]
           ++ map (fun m => OutboxUISetIndicator (qmId m) indicatorBlack)
                (filter (fun m => (qmTo m =? qmTo msg)%Z) (queue c))
           ++ [UIAction "uiStateRevocationProcessed"; UISignal].
Proof.
  intros Hr Hm Ht Hb Hg Hmar Hl Hv Hu Hk Hok.
  rewrite (processMessageSent_verified c msr now Hr Hm Ht Hb Hg Hmar Hl Hv Hu
             Hk).
  cbv zeta. rewrite Hok. cbn [negb].
  eexists _, _. split; [reflexivity|].
  split; [apply dropQueued_fst|]. split; [reflexivity|].
  split.
  { cbn [contacts emit set_events set_contacts set_queue].
    apply lookupContact_update with (k := to); [exact Ht|].
    exact (lookupContact_id _ _ Ht). }
  split; [reflexivity|]. split; [reflexivity|].
  cbn [events emit set_events set_contacts set_queue].
  rewrite dropQueued_snd, <- !app_assoc. reflexivity.
Qed.

(** X9. When a verified revocation leaves our member key valid, the queue
    is not touched by [processMessageSent]: the contact's generation
    advances by one and a revocation update for the contact, carrying that
    generation, is posted for the network worker. *)
Theorem sent_revocation_update (c : client) (msr : messageSendResult)
  (now : Z) (revocation : SignedRevocation)
  (body : SignedRevocation_Revocation) (msg : queuedMessage) (to : Contact)
  (revBytes : bytes) (rev : RevocationToken) (key : MemberKey) :
  msrRevocation msr = Some revocation ->
  find (fun m => (qmId m =? msrId msr)%Z) (outbox c) = Some msg ->
  lookupContact (contacts c) (qmTo msg) = Some to ->
  SRRevocation revocation = Some body ->
  RevGeneration body = Some (contactGeneration to) ->
  proto_Marshal_Revocation body = inr revBytes ->
  64 <= length (SRSignature revocation) ->
  ed25519_Verify (theirPub to) (revocationSignaturePrefix ++ revBytes)
    (firstn 64 (SRSignature revocation)) = true ->
  Revocation_Unmarshal (RevRevocation body) = Some rev ->
  myGroupKey to = Some key ->
  snd (MemberKey_Update key rev) = true ->
  exists c' to' u,
    processMessageSent c msr now = Ok c'
    /\ queue c' = queue c
    /\ outbox c' = outbox c
    /\ lookupContact (contacts c') (qmTo msg) = Some to'
    /\ revokedUs to' = revokedUs to
    /\ contactGeneration to' = wrap32 (contactGeneration to + 1)
    /\ ruId u = qmTo msg
    /\ ruGeneration u = contactGeneration to'
    /\ events c'
       = events c
           ++ [RevocationUpdateChan u; UIAction "uiStateRevocationProcessed";
               UISignal].
Proof.
  intros Hr Hm Ht Hb Hg Hmar Hl Hv Hu Hk Hok.
  rewrite (processMessageSent_verified c msr now Hr Hm Ht Hb Hg Hmar Hl Hv Hu
             Hk).
  cbv zeta. rewrite Hok. cbn [negb].
  eexists _, _, (mkRevocationUpdate _ _ _). split; [reflexivity|].
  split; [reflexivity|]. split; [reflexivity|].
  split.
  { cbn [contacts emit set_events set_contacts set_queue].
    apply lookupContact_update with (k := to); [exact Ht|].
    exact (lookupContact_id _ _ Ht). }
  split; [reflexivity|]. split; [reflexivity|].
  split; [reflexivity|]. split; [reflexivity|].
  cbn [events emit set_events set_contacts set_queue].
  rewrite <- !app_assoc. reflexivity.
Qed.

Lemma markSent_ids (ob : list queuedMessage) (i now : Z) :
  map qmId (markSent ob i now) = map qmId ob.
Proof.
  induction ob as [|m rest IH]; [reflexivity|].
  simpl. destruct (qmId m =? i)%Z; simpl; [reflexivity|].
  rewrite IH. reflexivity.
Qed.

Lemma markSent_find (ob : list queuedMessage) (i now : Z) (msg : queuedMessage) :
  find (fun m => (qmId m =? i)%Z) ob = Some msg ->
  find (fun m => (qmId m =? i)%Z) (markSent ob i now) = Some (set_sent now msg).
Proof.
  induction ob as [|m rest IH]; [discriminate|].
  simpl. destruct (qmId m =? i)%Z eqn:E.
  - intros H. injection H as <-. simpl.
    change (qmId (set_sent now m)) with (qmId m). rewrite E. reflexivity.
  - intros H. simpl. rewrite E. auto.
Qed.

(** X10. The report of a sent message without a revocation stamps the
    first outbox entry with that id with the time of the report and leaves
    the ids of the outbox and of the queue and the contacts as they were;
    the indicator turns green for a revocation and yellow for a message,
    and the state is saved.  A report for an id that is not in the outbox
    stops the client with a nil dereference, with or without a
    revocation. *)
Theorem sent_plain (c : client) (msr : messageSendResult) (now : Z) :
  (forall msg,
      msrRevocation msr = None ->
      find (fun m => (qmId m =? msrId msr)%Z) (outbox c) = Some msg ->
      exists c',
        processMessageSent c msr now = Ok c'
        /\ find (fun m => (qmId m =? msrId msr)%Z) (outbox c')
           = Some (set_sent now msg)
        /\ map qmId (outbox c') = map qmId (outbox c)
        /\ map qmId (queue c') = map qmId (queue c)
        /\ contacts c' = contacts c
        /\ events c'
           = events c
               ++ [OutboxUISetIndicator (msrId msr)
                     (if qmRevocation msg then indicatorGreen
                      else indicatorYellow);
                   Save])
  /\ (find (fun m => (qmId m =? msrId msr)%Z) (outbox c) = None ->
      processMessageSent c msr now
      = Panic "invalid memory address or nil pointer dereference").
Proof.
  split.
  - intros msg Hr Hm. unfold processMessageSent. rewrite Hr, Hm.
    cbv beta iota delta [bind deref].
    assert (Hid : qmId msg = msrId msr).
    { apply find_some in Hm. destruct Hm as [_ Hm]. apply Z.eqb_eq. exact Hm. }
    eexists. split; [reflexivity|]. rewrite Hid.
    split.
    { destruct (qmRevocation msg);
        cbn [outbox emit set_events set_outbox]; apply markSent_find; exact Hm. }
    split.
    { destruct (qmRevocation msg);
        cbn [outbox emit set_events set_outbox]; apply markSent_ids. }
    split; [destruct (qmRevocation msg); reflexivity|].
    split; [destruct (qmRevocation msg); reflexivity|].
    destruct (qmRevocation msg); cbn [events emit set_events set_outbox];
      rewrite <- app_assoc; reflexivity.
  - intros Hm. unfold processMessageSent. rewrite Hm.
    destruct (msrRevocation msr); reflexivity.
Qed.

End SentMore.

Section ResignFacts.

Context `{P : Primitives}.

Lemma resignLoop_resigned (q q' : list queuedMessage)
  (revUpdate : revocationUpdate) (r r' : Reader) (evs : list event) :
  resignLoop q revUpdate r = Ok (q', r', evs) ->
  Forall2 (resigned revUpdate) q q'.
Proof.
  revert q' r r' evs.
  induction q as [|m rest IH]; intros q' r r' evs H.
  - injection H as <- _ _. constructor.
  - cbn [resignLoop] in H.
    destruct (Z.eqb_spec (qmTo m) (ruId revUpdate)) as [E|E]; cbn [negb] in H.
    + destruct (Deliver (request m)) as [d|] eqn:Ed; [|discriminate].
      destruct (ruKey revUpdate) as [key|] eqn:Ek; [|discriminate].
      cbv beta iota delta [bind deref] in H.
      destruct (MemberKey_Sign r key (sha256 (DeliveryMessage d)))
        as [res r1] eqn:Es.
      destruct res as [e|sig].
      * destruct (resignLoop rest revUpdate r1) as [[[rest' r2] evs2]|] eqn:Er;
          [|discriminate].
        injection H as <- _ _. constructor; [|eapply IH; exact Er].
        unfold resigned. destruct (Z.eqb_spec (qmTo m) (ruId revUpdate));
          [|contradiction].
        exists d, key, r. split; [exact Ed|]. split; [exact Ek|].
        unfold resignedWith. rewrite Es. reflexivity.
      * destruct (resignLoop rest revUpdate r1) as [[[rest' r2] evs2]|] eqn:Er;
          [|discriminate].
        injection H as <- _ _. constructor; [|eapply IH; exact Er].
        unfold resigned. destruct (Z.eqb_spec (qmTo m) (ruId revUpdate));
          [|contradiction].
        exists d, key, r. split; [exact Ed|]. split; [exact Ek|].
        unfold resignedWith. rewrite Es. reflexivity.
    + cbv beta iota delta [bind] in H.
      destruct (resignLoop rest revUpdate r) as [[[rest' r2] evs2]|] eqn:Er;
        [|discriminate].
      injection H as <- _ _. constructor; [|eapply IH; exact Er].
      unfold resigned. destruct (Z.eqb_spec (qmTo m) (ruId revUpdate));
        [contradiction|reflexivity].
Qed.

Lemma resignLoop_logs (q q' : list queuedMessage)
  (revUpdate : revocationUpdate) (r r' : Reader) (evs : list event) :
  resignLoop q revUpdate r = Ok (q', r', evs) ->
  Forall (fun e => e = LogPrintf "Error while resigning after revocation: %s")
    evs.
Proof.
  revert q' r r' evs.
  induction q as [|m rest IH]; intros q' r r' evs H.
  - injection H as _ _ <-. constructor.
  - cbn [resignLoop] in H.
    destruct (negb (qmTo m =? ruId revUpdate)%Z).
    + cbv beta iota delta [bind] in H.
      destruct (resignLoop rest revUpdate r) as [[[rest' r2] evs2]|] eqn:Er;
        [|discriminate].
      injection H as _ _ <-. eapply IH; exact Er.
    + destruct (Deliver (request m)) as [d|]; [|discriminate].
      destruct (ruKey revUpdate) as [key|]; [|discriminate].
      cbv beta iota delta [bind deref] in H.
      destruct (MemberKey_Sign r key (sha256 (DeliveryMessage d)))
        as [res r1].
      destruct res as [e|sig];
        (destruct (resignLoop rest revUpdate r1) as [[[rest' r2] evs2]|] eqn:Er;
         [|discriminate]);
        injection H as _ _ <-.
      * constructor; [reflexivity|eapply IH; exact Er].
      * eapply IH; exact Er.
Qed.

Lemma resigned_fields (revUpdate : revocationUpdate) (m m' : queuedMessage) :
  resigned revUpdate m m' ->
  qmId m' = qmId m /\ qmTo m' = qmTo m /\ qmServer m' = qmServer m
  /\ qmMessage m' = qmMessage m /\ qmRevocation m' = qmRevocation m.
Proof.
  unfold resigned. destruct (qmTo m =? ruId revUpdate)%Z.
  - intros (d & key & r & _ & _ & ->). repeat split.
  - intros ->. repeat split.
Qed.

(** An entry of the queue that goes to the contact of the update is signed
    with the random source in the state in which the loop reaches it. *)
Lemma resignLoop_nth (pre : list queuedMessage) :
  forall (m : queuedMessage) (post q' : list queuedMessage)
    (revUpdate : revocationUpdate) (r r' : Reader) (evs : list event),
    qmTo m = ruId revUpdate ->
    resignLoop (pre ++ m :: post) revUpdate r = Ok (q', r', evs) ->
    exists d key,
      Deliver (request m) = Some d
      /\ ruKey revUpdate = Some key
      /\ nth_error q' (length pre)
         = Some (resignedWith revUpdate key (randAfter revUpdate key r pre)
                   d m).
Proof.
  induction pre as [|x pre IH]; intros m post q' revUpdate r r' evs Hto H.
  - cbn [app resignLoop] in H. rewrite Hto, Z.eqb_refl in H. cbn [negb] in H.
    destruct (Deliver (request m)) as [d|] eqn:Ed; [|discriminate].
    destruct (ruKey revUpdate) as [key|] eqn:Ek; [|discriminate].
    cbv beta iota delta [bind deref] in H.
    destruct (MemberKey_Sign r key (sha256 (DeliveryMessage d)))
      as [res r1] eqn:Es.
    exists d, key. split; [reflexivity|]. split; [reflexivity|].
    unfold resignedWith. cbn [randAfter]. rewrite Es. cbn [fst].
    destruct res as [e|sig];
      (destruct (resignLoop post revUpdate r1) as [[[rest' r2] evs2]|];
       [|discriminate]);
      injection H as <- _ _; reflexivity.
  - cbn [app resignLoop] in H. cbn [randAfter length].
    destruct (Z.eqb_spec (qmTo x) (ruId revUpdate)) as [Ex|Ex];
      cbn [negb] in H.
    + destruct (Deliver (request x)) as [dx|] eqn:Edx; [|discriminate].
      destruct (ruKey revUpdate) as [keyx|] eqn:Ekx; [|discriminate].
      cbv beta iota delta [bind deref] in H.
      destruct (MemberKey_Sign r keyx (sha256 (DeliveryMessage dx)))
        as [res r1] eqn:Es.
      assert (Hrest : exists rest' r2 evs2,
                 resignLoop (pre ++ m :: post) revUpdate r1
                 = Ok (rest', r2, evs2)
                 /\ exists x', q' = x' :: rest').
      { destruct res as [e|sig];
          (destruct (resignLoop (pre ++ m :: post) revUpdate r1)
             as [[[rest' r2] evs2]|]; [|discriminate]);
          injection H as <- _ _;
          exists rest', r2, evs2; (split; [reflexivity|]);
          eexists; reflexivity. }
      destruct Hrest as (rest' & r2 & evs2 & Er & x' & ->).
      destruct (IH m post rest' revUpdate r1 r2 evs2 Hto Er)
        as (d & key & Hd & Hk & Hn).
      rewrite Ekx in Hk. injection Hk as <-.
      exists d, keyx. split; [exact Hd|]. split; [reflexivity|].
      rewrite Es. cbn [snd nth_error]. exact Hn.
    + cbv beta iota delta [bind] in H.
      destruct (resignLoop (pre ++ m :: post) revUpdate r)
        as [[[rest' r2] evs2]|] eqn:Er; [|discriminate].
      injection H as <- _ _.
      destruct (IH m post rest' revUpdate r r2 evs2 Hto Er)
        as (d & key & Hd & Hk & Hn).
      exists d, key. split; [exact Hd|]. split; [exact Hk|exact Hn].
Qed.

(** [c.rand] after the loop. *)
Lemma resignLoop_rand (q : list queuedMessage) :
  forall (q' : list queuedMessage) (revUpdate : revocationUpdate)
    (r r' : Reader) (evs : list event) (key : MemberKey),
    ruKey revUpdate = Some key ->
    resignLoop q revUpdate r = Ok (q', r', evs) ->
    r' = randAfter revUpdate key r q.
Proof.
  induction q as [|x q IH]; intros q' revUpdate r r' evs key Hk H.
  - injection H as _ <- _. reflexivity.
  - cbn [resignLoop] in H. cbn [randAfter].
    destruct (qmTo x =? ruId revUpdate)%Z; cbn [negb] in H.
    + destruct (Deliver (request x)) as [dx|]; [|discriminate].
      rewrite Hk in H. cbv beta iota delta [bind deref] in H.
      destruct (MemberKey_Sign r key (sha256 (DeliveryMessage dx)))
        as [res r1].
      cbn [snd].
      destruct (resignLoop q revUpdate r1) as [[[rest' r2] evs2]|] eqn:Er.
      * assert (Hr : r' = r2) by (destruct res; injection H as _ <- _;
                                  reflexivity).
        rewrite Hr. eapply IH; [exact Hk|exact Er].
      * destruct res; discriminate.
    + cbv beta iota delta [bind] in H.
      destruct (resignLoop q revUpdate r) as [[[rest' r2] evs2]|] eqn:Er;
        [|discriminate].
      injection H as _ <- _. eapply IH; [exact Hk|exact Er].
Qed.

(** X11. [resignQueuedMessages] keeps the queue entry by entry: an entry to
    another contact is not touched; an entry to the contact of the update
    keeps its recipient and its sealed bytes and gets the generation of the
    update and a new signature: the one that [Sign] gives under the key of
    the update for the SHA-256 digest of the sealed bytes, drawing from
    [c.rand] in the state in which the loop reaches the entry, and nil when
    [Sign] fails.  Ids and order of the queue, the contact table and the
    inbox stay, and nothing is logged but signing errors. *)
Theorem resign_keeps_queue (c c' : client) (revUpdate : revocationUpdate) :
  resignQueuedMessages c revUpdate = Ok c' ->
  Forall2 (resigned revUpdate) (queue c) (queue c')
  /\ map qmId (queue c') = map qmId (queue c)
  /\ map qmTo (queue c') = map qmTo (queue c)
  /\ contacts c' = contacts c
  /\ inbox c' = inbox c
  /\ (exists logged,
        events c' = events c ++ logged
        /\ Forall
             (fun e =>
                e = LogPrintf "Error while resigning after revocation: %s")
             logged)
  /\ (forall pre m post,
        queue c = pre ++ m :: post ->
        qmTo m = ruId revUpdate ->
        exists d key,
          Deliver (request m) = Some d
          /\ ruKey revUpdate = Some key
          /\ nth_error (queue c') (length pre)
             = Some (resignedWith revUpdate key
                       (randAfter revUpdate key (rand c) pre) d m))
  /\ (forall key,
        ruKey revUpdate = Some key ->
        rand c' = randAfter revUpdate key (rand c) (queue c)).
Proof.
  unfold resignQueuedMessages. intros H.
  destruct (resignLoop (queue c) revUpdate (rand c)) as [[[q r] evs]|] eqn:E;
    [|discriminate].
  injection H as <-.
  pose proof (resignLoop_resigned _ _ _ E) as F.
  pose proof (resignLoop_logs _ _ _ E) as L.
  cbn [queue set_events set_rand set_queue contacts inbox events rand].
  split; [exact F|].
  assert (Hids : map qmId q = map qmId (queue c)
                 /\ map qmTo q = map qmTo (queue c)).
  { clear E L. induction F as [|m m' l l' Hm _ IH]; [split; reflexivity|].
    apply resigned_fields in Hm. destruct Hm as (H1 & H2 & _).
    destruct IH as [IH1 IH2]. cbn [map]. rewrite H1, H2, IH1, IH2.
    split; reflexivity. }
  split; [apply Hids|]. split; [apply Hids|].
  split; [reflexivity|]. split; [reflexivity|].
  split; [exists evs; split; [reflexivity|exact L]|].
  split.
  - intros pre m post Hq Hto. rewrite Hq in E.
    eapply resignLoop_nth; [exact Hto|exact E].
  - intros key Hk. eapply resignLoop_rand; [exact Hk|exact E].
Qed.

Lemma resignLoop_nil_delivery (q : list queuedMessage)
  (revUpdate : revocationUpdate) (r : Reader) (m : queuedMessage) :
  In m q ->
  qmTo m = ruId revUpdate ->
  Deliver (request m) = None ->
  resignLoop q revUpdate r
  = Panic "invalid memory address or nil pointer dereference".
Proof.
  revert r. induction q as [|x rest IH]; intros r Hin Hto Hd; [contradiction|].
  cbn [resignLoop].
  destruct (Z.eqb_spec (qmTo x) (ruId revUpdate)) as [E|E]; cbn [negb].
  - destruct (Deliver (request x)) as [d|] eqn:Ed; [|reflexivity].
    destruct (ruKey revUpdate) as [key|]; [|reflexivity].
    cbv beta iota delta [bind deref].
    destruct (MemberKey_Sign r key (sha256 (DeliveryMessage d))) as [res r1].
    destruct Hin as [->|Hin]; [congruence|].
    destruct res; rewrite (IH r1 Hin Hto Hd); reflexivity.
  - destruct Hin as [->|Hin]; [contradiction|].
    cbv beta iota delta [bind]. rewrite (IH r Hin Hto Hd). reflexivity.
Qed.

(** X12. An entry of the queue that goes to the contact of the update and
    holds no delivery, as the revocation request that [revoke] enqueues
    does, stops [resignQueuedMessages] with a nil dereference. *)
Theorem resign_nil_delivery (c : client) (revUpdate : revocationUpdate)
  (m : queuedMessage) :
  In m (queue c) ->
  qmTo m = ruId revUpdate ->
  Deliver (request m) = None ->
  resignQueuedMessages c revUpdate
  = Panic "invalid memory address or nil pointer dereference".
Proof.
  intros Hin Hto Hd. unfold resignQueuedMessages.
  rewrite (resignLoop_nil_delivery _ _ (rand c) _ Hin Hto Hd). reflexivity.
Qed.

Lemma dropQueued_no_update (q : list queuedMessage) (toId : Z)
  (u : revocationUpdate) :
  ~ In (RevocationUpdateChan u) (snd (dropQueued q toId)).
Proof.
  rewrite dropQueued_snd. intros H. apply in_map_iff in H.
  destruct H as (m & Hm & _). discriminate Hm.
Qed.

(** The revocation update that [processMessageSent] posts: it names a
    contact of the table after the call, and carries its generation. *)
Lemma processMessageSent_posts (c c' : client) (msr : messageSendResult)
  (now : Z) (u : revocationUpdate) :
  processMessageSent c msr now = Ok c' ->
  In (RevocationUpdateChan u) (events c') ->
  ~ In (RevocationUpdateChan u) (events c) ->
  exists to',
    lookupContact (contacts c') (ruId u) = Some to'
    /\ contactGeneration to' = ruGeneration u.
Proof.
  unfold processMessageSent. intros H Hin Hnot.
  assert (D : forall line,
             Ok (emit (LogPrintf line) c) = Ok c' ->
             exists to',
               lookupContact (contacts c') (ruId u) = Some to'
               /\ contactGeneration to' = ruGeneration u).
  { intros line E. injection E as <-. exfalso.
    cbn [events emit set_events] in Hin. apply in_app_or in Hin.
    destruct Hin as [Hin|[Hin|[]]]; [contradiction|discriminate Hin]. }
  destruct (msrRevocation msr) as [revocation|].
  - destruct (find _ (outbox c)) as [msg|]; [|discriminate].
    cbv beta iota delta [bind deref] in H.
    destruct (SRRevocation revocation) as [body|]; [|discriminate].
    destruct (RevGeneration body) as [gen|]; [|discriminate].
    destruct (lookupContact (contacts c) (qmTo msg)) as [to|] eqn:Ht;
      [|discriminate].
    cbv beta iota in H.
    destruct (negb (gen =? contactGeneration to)%Z); [eauto|].
    destruct (proto_Marshal_Revocation body) as [e|revBytes]; [eauto|].
    destruct (negb (copy_count ed25519_SignatureSize (SRSignature revocation)
                    =? ed25519_SignatureSize)); [eauto|].
    destruct (negb (ed25519_Verify _ _ _)); [eauto|].
    destruct (Revocation_Unmarshal (RevRevocation body)) as [rev|]; [|eauto].
    cbn [myGroupKey set_contactGeneration] in H.
    destruct (myGroupKey to) as [key|]; [|discriminate].
    cbv beta iota zeta in H.
    destruct (MemberKey_Update key rev) as [key1 ok].
    destruct ok; cbn [negb] in H.
    + injection H as <-.
      cbn [events emit set_events set_contacts contacts] in Hin |- *.
      rewrite <- !app_assoc in Hin. apply in_app_or in Hin.
      destruct Hin as [Hin|Hin]; [contradiction|].
      cbn [app] in Hin.
      destruct Hin as [Hin|[Hin|[Hin|[]]]]; try discriminate Hin.
      injection Hin as <-. cbn [ruId ruGeneration].
      eexists. split.
      * apply lookupContact_update with (k := to); [exact Ht|].
        exact (lookupContact_id _ _ Ht).
      * reflexivity.
    + exfalso.
      destruct (dropQueued _ (qmTo msg)) as [newQueue evs] eqn:Ed.
      injection H as <-.
      cbn [events emit set_events set_contacts set_queue] in Hin.
      rewrite <- !app_assoc in Hin. apply in_app_or in Hin.
      destruct Hin as [Hin|Hin]; [contradiction|].
      cbn [app] in Hin.
      destruct Hin as [Hin|[Hin|[Hin|Hin]]]; try discriminate Hin.
      apply in_app_or in Hin. destruct Hin as [Hin|Hin].
      * apply (@dropQueued_no_update (queue c) (qmTo msg) u).
        cbn [queue emit set_events] in Ed. rewrite Ed. exact Hin.
      * destruct Hin as [Hin|[Hin|[]]]; discriminate Hin.
  - destruct (find _ (outbox c)) as [msg|]; [|discriminate].
    cbv beta iota delta [bind deref] in H. exfalso.
    destruct (qmRevocation msg); injection H as <-;
      cbn [events emit set_events set_outbox] in Hin;
      rewrite <- !app_assoc in Hin; apply in_app_or in Hin;
      (destruct Hin as [Hin|[Hin|[Hin|[]]]];
       [contradiction|discriminate Hin|discriminate Hin]).
Qed.

(** X13. The update that [processMessageSent] posts and
    [resignQueuedMessages] then applies brings the queue in line with the
    contact: every queued entry to that contact is a delivery that carries
    the generation the contact now has. *)
Theorem update_then_resign (c c' c'' : client) (msr : messageSendResult)
  (now : Z) (u : revocationUpdate) :
  processMessageSent c msr now = Ok c' ->
  In (RevocationUpdateChan u) (events c') ->
  ~ In (RevocationUpdateChan u) (events c) ->
  resignQueuedMessages c' u = Ok c'' ->
  exists to',
    lookupContact (contacts c'') (ruId u) = Some to'
    /\ forall m,
        In m (queue c'') ->
        qmTo m = ruId u ->
        exists d,
          Deliver (request m) = Some d
          /\ Generation d = Some (contactGeneration to').
Proof.
  intros Hs Hin Hnot Hr.
  destruct (@processMessageSent_posts c c' msr now u Hs Hin Hnot)
    as (to' & Hl & Hg).
  unfold resignQueuedMessages in Hr.
  destruct (resignLoop (queue c') u (rand c')) as [[[q r] evs]|] eqn:E;
    [|discriminate].
  injection Hr as <-.
  cbn [queue set_events set_rand set_queue contacts].
  exists to'. split; [exact Hl|].
  intros m Hm Hto. apply resignLoop_resigned in E.
  clear - E Hm Hto Hg. induction E as [|m0 m1 l l' H0 _ IH]; [contradiction|].
  destruct Hm as [<-|Hm]; [|auto].
  unfold resigned in H0.
  destruct (Z.eqb_spec (qmTo m0) (ruId u)) as [E0|E0].
  - destruct H0 as (d & key & r0 & _ & _ & ->).
    eexists. split; [reflexivity|]. cbn [Generation]. rewrite Hg. reflexivity.
  - subst m1. contradiction.
Qed.

(** X14. An announcement of the home server, when it carries a message with
    a time, is stored as one new inbox entry at the end of the inbox, from
    sender 0, unsealed and unread, and the state is saved; contacts, queue
    and outbox are untouched.  An announcement without a message, or whose
    message has no time, stops the client with a nil dereference. *)
Theorem announce_stored (c : client) (announce : option ServerAnnounce)
  (now : Z) (i : Z) (c1 : client) :
  randId c = Ok (i, c1) ->
  (forall a msg t,
      announce = Some a -> AnnounceMessage a = Some msg -> Time msg = Some t ->
      exists c',
        processServerAnnounce c announce now = Ok c'
        /\ inbox c' = inbox c ++ [mkInboxMessage i now 0 None (Some msg) false]
        /\ contacts c' = contacts c
        /\ queue c' = queue c
        /\ outbox c' = outbox c
        /\ events c'
           = events c
               ++ [InboxUIAdd i "Home Server" (SublineTime t) indicatorBlue;
                   UpdateWindowTitle; Save])
  /\ ((forall a msg t,
          announce = Some a -> AnnounceMessage a = Some msg ->
          Time msg <> Some t) ->
      processServerAnnounce c announce now
      = Panic "invalid memory address or nil pointer dereference").
Proof.
  intros Hr. unfold processServerAnnounce. rewrite Hr.
  cbv beta iota delta [bind].
  apply randId_queue in Hr.
  destruct Hr as (Q & O & Ev & _ & _ & Cs & In).
  split.
  - intros a msg t -> Ha Ht. cbn [deref].
    cbn [inboxMessage inboxId]. rewrite Ha. cbn [deref]. rewrite Ht.
    eexists. split; [reflexivity|].
    cbn [inbox contacts queue outbox events emit set_events set_inbox].
    rewrite In, Cs, Q, O, Ev, <- !app_assoc.
    repeat split; reflexivity.
  - intros Hn. destruct announce as [a|]; [|reflexivity].
    cbn [deref inboxMessage]. destruct (AnnounceMessage a) as [msg|] eqn:Ha;
      [|reflexivity].
    cbn [deref]. destruct (Time msg) as [t|] eqn:Ht; [|reflexivity].
    exfalso. exact (Hn a msg t eq_refl Ha Ht).
Qed.

End ResignFacts.

Section TransactMore.

Context `{P : Primitives}.

(** X15. A network transaction that fails on the network, or whose reply
    carries a status, takes no message out of the queue: the head has moved
    to the back, the entries enqueued in the meantime follow, and the
    message-sent channel gets a report only for a GENERATION_REVOKED status
    that comes with a revocation. *)
Theorem transaction_keeps_unsent (c c' : client) (net : netResult)
  (meanwhile : list queuedMessage) :
  (forall reply, net = Replied reply -> Status reply <> None) ->
  transaction c net meanwhile = Ok c' ->
  queue c' = skipn 1 (queue c) ++ firstn 1 (queue c) ++ meanwhile
  /\ outbox c' = outbox c
  /\ contacts c' = contacts c
  /\ forall r,
      In (MessageSentChan r) (events c') ->
      In (MessageSentChan r) (events c)
      \/ exists reply head,
          net = Replied reply
          /\ Status reply = Some Reply_GENERATION_REVOKED
          /\ hd_error (queue c) = Some head
          /\ r = mkMessageSendResult (qmId head) (ReplyRevocation reply)
          /\ ReplyRevocation reply <> None.
Proof.
  intros Hst H. unfold transaction in H.
  destruct (queue c) as [|head rest] eqn:Eq.
  - cbv beta iota zeta in H.
    destruct net as [| | |reply].
    1-3: injection H as <-;
      (split; [cbn [queue emit set_events set_queue]; rewrite Eq; reflexivity|]);
      (split; [reflexivity|]); (split; [reflexivity|]);
      intros r Hin; left;
      cbn [events emit set_events set_queue] in Hin;
      repeat (apply in_app_or in Hin; destruct Hin as [Hin|Hin]);
      try assumption;
      destruct Hin as [Hin|[]]; discriminate Hin.
    destruct (Status reply) as [st|] eqn:Es;
      [|exfalso; exact (Hst reply eq_refl Es)].
    cbn [negb andb] in H. cbv beta iota delta [bind] in H.
    destruct (replyToError reply); injection H as <-;
      (split; [cbn [queue emit set_events set_queue]; rewrite Eq; reflexivity|]);
      (split; [reflexivity|]); (split; [reflexivity|]);
      intros r Hin; left;
      cbn [events emit set_events set_queue] in Hin;
      repeat (apply in_app_or in Hin; destruct Hin as [Hin|Hin]);
      try assumption;
      destruct Hin as [Hin|[]]; discriminate Hin.
  - cbv beta iota zeta in H.
    destruct net as [| | |reply].
    1-3: injection H as <-;
      (split; [cbn [queue emit set_events set_queue skipn firstn];
               rewrite <- app_assoc; reflexivity|]);
      (split; [reflexivity|]); (split; [reflexivity|]);
      intros r Hin; left;
      cbn [events emit set_events set_queue] in Hin;
      repeat (apply in_app_or in Hin; destruct Hin as [Hin|Hin]);
      try assumption;
      destruct Hin as [Hin|[]]; discriminate Hin.
    destruct (Status reply) as [st|] eqn:Es;
      [|exfalso; exact (Hst reply eq_refl Es)].
    cbn [negb andb] in H.
    destruct (isGenerationRevoked st && isSome (ReplyRevocation reply))
      eqn:Eg.
    + apply Bool.andb_true_iff in Eg. destruct Eg as [Eg Er].
      destruct st; try discriminate Eg.
      cbv beta iota delta [bind deref] in H.
      destruct (replyToError reply); injection H as <-;
        (split; [cbn [queue emit set_events set_queue skipn firstn];
                 rewrite <- app_assoc; reflexivity|]);
        (split; [reflexivity|]); (split; [reflexivity|]);
        intros r Hin;
        cbn [events emit set_events set_queue] in Hin;
        repeat (apply in_app_or in Hin; destruct Hin as [Hin|Hin]);
        try (left; assumption);
        try (destruct Hin as [Hin|[]]; discriminate Hin);
        (destruct Hin as [Hin|[]]; injection Hin as <-; right;
         exists reply, head; repeat split; auto;
         destruct (ReplyRevocation reply); [discriminate|discriminate Er]).
    + cbv beta iota delta [bind] in H.
      destruct (replyToError reply); injection H as <-;
        (split; [cbn [queue emit set_events set_queue skipn firstn];
                 rewrite <- app_assoc; reflexivity|]);
        (split; [reflexivity|]); (split; [reflexivity|]);
        intros r Hin; left;
        cbn [events emit set_events set_queue] in Hin;
        repeat (apply in_app_or in Hin; destruct Hin as [Hin|Hin]);
        try assumption;
        destruct Hin as [Hin|[]]; discriminate Hin.
Qed.


(** X17. With an empty queue the transaction is a fetch from the home
    server: nothing is reported as sent, the queue afterwards holds exactly
    what was enqueued in the meantime, and a reply without status that
    carries a fetched message or an announcement hands both to the
    orchestrator on the new-message channel. *)
Theorem transaction_fetch (c : client) (reply : Reply)
  (meanwhile : list queuedMessage) :
  queue c = [] ->
  exists c' handed,
    transaction c (Replied reply) meanwhile = Ok c'
    /\ queue c' = meanwhile
    /\ events c'
       = events c ++ [LogPrintf "Starting fetch from home server"] ++ handed
    /\ (forall r, ~ In (MessageSentChan r) handed)
    /\ (Status reply = None ->
        ReplyFetched reply <> None \/ ReplyAnnounce reply <> None ->
        handed = [NewMessageChan (ReplyFetched reply) (ReplyAnnounce reply)]).
Proof.
  intros Hq. unfold transaction. rewrite Hq. cbv beta iota zeta.
  destruct (Status reply) as [st|] eqn:Es.
  - cbn [negb andb]. cbv beta iota delta [bind].
    destruct (replyToError reply) as [e|].
    + eexists _, [LogErrorf "Error from server %s: %s"].
      split; [reflexivity|].
      split; [cbn [queue emit set_events set_queue]; rewrite Hq; reflexivity|].
      split; [cbn [events emit set_events set_queue];
              rewrite <- app_assoc; reflexivity|].
      split; [intros r [H|[]]; discriminate H|discriminate].
    + eexists _, [].
      split; [reflexivity|].
      split; [cbn [queue emit set_events set_queue]; rewrite Hq; reflexivity|].
      split; [reflexivity|].
      split; [intros r []|discriminate].
  - assert (E : replyToError reply = None)
      by (unfold replyToError; rewrite Es; reflexivity).
    cbn [negb andb].
    destruct (isSome (ReplyFetched reply) || isSome (ReplyAnnounce reply))
      eqn:Ef; cbv beta iota delta [bind]; rewrite E.
    + eexists _, [NewMessageChan (ReplyFetched reply) (ReplyAnnounce reply)].
      split; [reflexivity|].
      split; [cbn [queue emit set_events set_queue]; rewrite Hq; reflexivity|].
      split; [cbn [events emit set_events set_queue];
              rewrite <- app_assoc; reflexivity|].
      split; [intros r [H|[]]; discriminate H|reflexivity].
    + eexists _, [].
      split; [reflexivity|].
      split; [cbn [queue emit set_events set_queue]; rewrite Hq; reflexivity|].
      split; [reflexivity|].
      split; [intros r []|].
      intros _ [Hf|Ha]; exfalso.
      * destruct (ReplyFetched reply); [discriminate Ef|contradiction].
      * destruct (ReplyAnnounce reply); [|contradiction].
        rewrite Bool.orb_true_r in Ef. discriminate Ef.
Qed.

End TransactMore.

(** ** Server addresses *)

Lemma string_length_append (a b : string) :
  String.length (String.append a b) = String.length a + String.length b.
Proof. induction a as [|x a IH]; simpl; [reflexivity|]. rewrite IH. reflexivity. Qed.

Lemma string_append_assoc (a b c : string) :
  String.append (String.append a b) c = String.append a (String.append b c).
Proof. induction a as [|x a IH]; simpl; [reflexivity|]. rewrite IH. reflexivity. Qed.

Lemma string_append_nil_r (a : string) : String.append a "" = a.
Proof. induction a as [|x a IH]; simpl; [reflexivity|]. rewrite IH. reflexivity. Qed.

Lemma equals_length (k : nat) : String.length (equals k) = k.
Proof. induction k as [|k IH]; simpl; [reflexivity|]. rewrite IH. reflexivity. Qed.

Lemma padLoop_enough (fuel : nat) :
  forall s,
    (8 - String.length s mod 8) mod 8 < fuel ->
    padLoop fuel s
    = Some (String.append s (equals ((8 - String.length s mod 8) mod 8))).
Proof.
  induction fuel as [|fuel IH]; intros s Hf; [lia|].
  cbn [padLoop].
  assert (Hr : String.length s mod 8 < 8) by (apply Nat.mod_upper_bound; lia).
  assert (Hn : String.length (String.append s "=") mod 8
               = (String.length s mod 8 + 1) mod 8).
  { rewrite string_length_append. change (String.length "=") with 1.
    rewrite Nat.Div0.add_mod_idemp_l. reflexivity. }
  destruct (String.length s mod 8) as [|r] eqn:Er.
  - cbn [Nat.eqb negb]. change ((8 - 0) mod 8) with 0.
    cbn [equals]. rewrite string_append_nil_r. reflexivity.
  - cbn [Nat.eqb negb].
    rewrite IH; rewrite Hn.
    + rewrite string_append_assoc. f_equal. f_equal.
      do 7 (destruct r as [|r]; [reflexivity|]). lia.
    + do 7 (destruct r as [|r]; [cbn in Hf |- *; lia|]). lia.
Qed.

Section ServerURLFacts.

Variable url_Parse : string -> string + URL.
Variable base32_DecodeString : string -> string + bytes.

(** X25. [decodeBase32] always ends: it pads its argument with the least
    number of equals signs, at most seven, that makes the length a multiple
    of eight, and decodes the result. *)
Theorem decodeBase32_pads (s : string) :
  let k := (8 - String.length s mod 8) mod 8 in
  decodeBase32 base32_DecodeString s
  = Some (base32_DecodeString (String.append s (equals k)))
  /\ k < 8
  /\ String.length (String.append s (equals k)) mod 8 = 0
  /\ forall j, j < k -> (String.length s + j) mod 8 <> 0.
Proof.
  cbv zeta.
  assert (Hk : (8 - String.length s mod 8) mod 8 < 8)
    by (apply Nat.mod_upper_bound; lia).
  split; [|split; [exact Hk|split]].
  - unfold decodeBase32. rewrite padLoop_enough by exact Hk. reflexivity.
  - rewrite string_length_append, equals_length.
    rewrite <- Nat.Div0.add_mod_idemp_l.
    assert (Hr : String.length s mod 8 < 8)
      by (apply Nat.mod_upper_bound; lia).
    destruct (String.length s mod 8) as [|r]; [reflexivity|].
    do 7 (destruct r as [|r]; [reflexivity|]). lia.
  - intros j Hj. rewrite <- Nat.Div0.add_mod_idemp_l.
    assert (Hr : String.length s mod 8 < 8)
      by (apply Nat.mod_upper_bound; lia).
    destruct (String.length s mod 8) as [|r]; [cbn in Hj; lia|].
    do 7 (destruct r as [|r];
          [do 8 (destruct j as [|j]; [cbn in Hj |- *; lia|]);
           cbn in Hj; lia|]).
    lia.
Qed.

(** X26. [parseServer] always returns, and returns a server identity
    exactly when it returns no error; the identity then has 32 bytes.
    Outside testing an accepted address has the scheme pondserver, a user
    part that is not empty, a host without a colon that ends in .onion or
    is localhost, and the host returned is that host followed by the port
    16333.  In testing the host is returned as it stands. *)
Theorem parseServer_accepts (server : string) (testing : bool) :
  exists r,
    parseServer url_Parse base32_DecodeString server testing = Some r
    /\ (parseErr r = None <-> serverIdentity r <> None)
    /\ (parseErr r = None ->
        exists url username ident,
          url_Parse server = inr url
          /\ Scheme url = "pondserver"
          /\ User url = Some username
          /\ username <> ""
          /\ serverIdentity r = Some ident
          /\ length ident = 32
          /\ (testing = true -> host r = Host url)
          /\ (testing = false ->
              host r = String.append (Host url) ":16333"
              /\ ContainsRune (Host url) colon = false
              /\ (HasSuffix (Host url) ".onion" = true
                  \/ Host url = "localhost"))).
Proof.
  unfold parseServer.
  assert (Bad : forall h e,
             exists r,
               Some (mkParsedServer None h (Some e)) = Some r
               /\ (parseErr r = None <-> serverIdentity r <> None)
               /\ (parseErr r = None ->
                   exists url username ident,
                     url_Parse server = inr url
                     /\ Scheme url = "pondserver"
                     /\ User url = Some username
                     /\ username <> ""
                     /\ serverIdentity r = Some ident
                     /\ length ident = 32
                     /\ (testing = true -> host r = Host url)
                     /\ (testing = false ->
                         host r = String.append (Host url) ":16333"
                         /\ ContainsRune (Host url) colon = false
                         /\ (HasSuffix (Host url) ".onion" = true
                             \/ Host url = "localhost")))).
  { intros h e. eexists. split; [reflexivity|]. split.
    - split; [discriminate|]. intros H. exfalso. apply H. reflexivity.
    - discriminate. }
  destruct (url_Parse server) as [e|url] eqn:Eu; [apply Bad|].
  destruct (String.eqb_spec (Scheme url) "pondserver") as [Hs|Hs];
    cbn [negb]; [|apply Bad].
  destruct (User url) as [username|] eqn:Un; [|apply Bad].
  destruct (Nat.eqb_spec (String.length username) 0) as [Hl|Hl]; [apply Bad|].
  destruct (decodeBase32_pads username) as [Hd _]. rewrite Hd.
  destruct (base32_DecodeString _) as [e|serverIdSlice]; [apply Bad|].
  destruct (Nat.eqb_spec (length serverIdSlice) 32) as [Hid|Hid];
    cbn [negb]; [|apply Bad].
  cbv zeta.
  destruct testing; cbn [negb andb].
  - eexists. split; [reflexivity|]. split.
    + split; [discriminate|reflexivity].
    + intros _. exists url, username, (copy_at (make 32) 0 serverIdSlice).
      split; [reflexivity|]. split; [exact Hs|]. split; [exact Un|].
      split; [intros ->; apply Hl; reflexivity|].
      split; [reflexivity|].
      split; [rewrite copy_at_length; apply make_length|].
      split; [reflexivity|discriminate].
  - destruct (ContainsRune (Host url) colon) eqn:Ec; [apply Bad|].
    destruct (HasSuffix (Host url) ".onion") eqn:Eo; cbn [negb andb].
    + eexists. split; [reflexivity|]. split.
      * split; [discriminate|reflexivity].
      * intros _. exists url, username, (copy_at (make 32) 0 serverIdSlice).
        split; [reflexivity|]. split; [exact Hs|]. split; [exact Un|].
        split; [intros ->; apply Hl; reflexivity|].
        split; [reflexivity|].
        split; [rewrite copy_at_length; apply make_length|].
        split; [discriminate|]. intros _. auto.
    + destruct (String.eqb_spec (Host url) "localhost") as [Hh|Hh];
        cbn [negb]; [|apply Bad].
      eexists. split; [reflexivity|]. split.
      * split; [discriminate|reflexivity].
      * intros _. exists url, username, (copy_at (make 32) 0 serverIdSlice).
        split; [reflexivity|]. split; [exact Hs|]. split; [exact Un|].
        split; [intros ->; apply Hl; reflexivity|].
        split; [reflexivity|].
        split; [rewrite copy_at_length; apply make_length|].
        split; [discriminate|]. intros _. auto.
Qed.

End ServerURLFacts.

Section EndToEnd.

Context `{P : Primitives}.

Lemma find_In {A} (f : A -> bool) (l : list A) (x : A) :
  In x l -> f x = true -> exists y, find f l = Some y.
Proof.
  induction l as [|a l IH]; [contradiction|].
  intros [->|Hin] Hf; simpl.
  - rewrite Hf. eauto.
  - destruct (f a); eauto.
Qed.

(** X27. What one client sends, the other stores.  Under the conditions of
    the round trip, when the receiver's group key verifies the signature
    that [send] put on the delivery and opens it to a tag of the sender,
    who is neither pending nor revoked, [processFetch] on the fetched bytes
    appends one entry to the inbox: it has the id that was drawn, names the
    sender, holds the message that was sent and no sealed bytes; and the
    sender's entry in the contact table then has the DH value the message
    announced as its current public value. *)
Theorem send_then_fetch (s s' : client) (to : Contact)
  (message : Message) (out : queuedMessage) (d : Delivery)
  (c c1 : client) (sender : Contact) (t : bytes) (i now : Z) :
  lengthLaws ->
  (Z.of_nat (MaxSerializedMessage + 4) < 2 ^ 32)%Z ->
  opensFor to sender ->
  ((1 <= supportedVersion to)%Z -> opensEphemeral to sender /\ rejectsTrailing) ->
  (forall messageBytes,
      proto_Marshal_Message message = inr messageBytes ->
      proto_Unmarshal_Message messageBytes = inr message) ->
  length (MyNextDh message) = 32 ->
  send s to message = Ok (s', None) ->
  queue s' = queue s ++ [out] ->
  Deliver (request out) = Some d ->
  PrivateKey_Verify (groupPriv c) (sha256 (DeliveryMessage d)) (Signature d)
  = true ->
  PrivateKey_Open (groupPriv c) (Signature d) = (t, true) ->
  findSender (contacts c) t = Some sender ->
  isPending sender = false ->
  revoked sender = false ->
  randId c = Ok (i, c1) ->
  isDuplicate (inbox c) (contactId sender) i message = Ok false ->
  exists c' im' sender',
    processFetch c (mkFetched (Signature d) (DeliveryMessage d)) now = Ok c'
    /\ inbox c' = inbox c ++ [im']
    /\ inboxId im' = i
    /\ from im' = contactId sender
    /\ inboxMessage im' = Some message
    /\ sealed im' = None
    /\ lookupContact (contacts c') (contactId sender) = Some sender'
    /\ theirCurrentDHPublic sender' = MyNextDh message.
Proof.
  intros L Hmax Hopen Heph Hparse Hdh Hsend Hq Hd Hver Hop Hfind Hpend Hrev
    Hid Hdup.
  pose proof L as (_ & Ls & _).
  destruct (send_stamped _ _ _ Hsend) as (mid & mtime & _ & Htime).
  pose proof (send_accepted _ _ _ Hsend) as (out0 & d0 & Hq0 & _ & Hd0 & Hlen).
  rewrite Hq in Hq0. apply app_inj_tail in Hq0. destruct Hq0 as [_ <-].
  rewrite Hd in Hd0. injection Hd0 as <-.
  pose proof (randId_queue _ Hid) as (_ & _ & _ & _ & _ & Hcs1 & Hin1).
  rewrite <- Hin1 in Hdup.
  destruct (@send_unseal P s s' to message out d c1 sender
              (mkInboxMessage i now (contactId sender)
                 (Some (DeliveryMessage d)) None false)
              now L Hmax Hopen Heph Hparse Hdh Hsend Hq Hd Hpend eq_refl Hdup)
    as (sender' & c2 & Hu & Hcs2 & Hin2 & Hfid & _ & _ & Hcur).
  assert (Hl : exists k, lookupContact (contacts c) (contactId sender) = Some k).
  { unfold findSender in Hfind. apply find_some in Hfind.
    destruct Hfind as [Hfin _]. unfold lookupContact.
    eapply find_In; [exact Hfin|]. apply Z.eqb_refl. }
  destruct Hl as [k Hl].
  unfold processFetch, openTag.
  cbn [FetchedMessage FetchedSignature]. rewrite Hver.
  cbv beta iota delta [bind]. rewrite Hop. cbn [negb].
  unfold deliverFetched. rewrite Hfind, Hrev.
  cbn [FetchedMessage].
  destruct (Nat.ltb_spec (length (DeliveryMessage d)) (box_Overhead + 24))
    as [Hshort|_].
  { exfalso. rewrite Hlen in Hshort. unfold sealedLength, box_Overhead in Hshort.
    destruct (1 <=? supportedVersion to)%Z; lia. }
  rewrite Hid. cbv beta iota delta [bind]. rewrite Hpend. cbn [negb].
  rewrite Hu. cbv beta iota delta [bind deref].
  cbn [negb inboxMessage set_read set_sealed set_inboxMessage].
  rewrite Htime.
  exists
    (emit Save
       (emit UpdateWindowTitle
          (set_inbox
             (inbox
                (if 0 <? length (Body message) then
                   emit (InboxUIAdd i (contactName sender') (SublineTime mtime)
                           indicatorBlue)
                     (set_contacts (updateContact (contacts c2) sender') c2)
                 else set_contacts (updateContact (contacts c2) sender') c2)
              ++ [mkInboxMessage i now (contactId sender) None (Some message)
                    false])
             (if 0 <? length (Body message) then
                emit (InboxUIAdd i (contactName sender') (SublineTime mtime)
                        indicatorBlue)
                  (set_contacts (updateContact (contacts c2) sender') c2)
              else set_contacts (updateContact (contacts c2) sender') c2)))),
    (mkInboxMessage i now (contactId sender) None (Some message) false), sender'.
  split.
  { destruct (0 <? length (Body message)); reflexivity. }
  split.
  { destruct (0 <? length (Body message));
      cbn [inbox emit set_events set_inbox set_contacts];
      rewrite Hin2, Hin1; reflexivity. }
  split; [reflexivity|]. split; [reflexivity|].
  split; [reflexivity|]. split; [reflexivity|].
  split; [|exact Hcur].
  assert (Hc : forall x,
             contacts x = updateContact (contacts c2) sender' ->
             lookupContact (contacts x) (contactId sender) = Some sender').
  { intros x ->. rewrite Hcs2, Hcs1.
    apply lookupContact_update with (k := k); [exact Hl|exact Hfid]. }
  apply Hc.
  destruct (0 <? length (Body message)); reflexivity.
Qed.

End EndToEnd.

(** An accepted message is stored parsed and without its sealed bytes. *)
Lemma unseal_accepted_frame `{P : Primitives} (c c' : client)
  (im im' : InboxMessage) (sender sender' : Contact) (now : Z) :
  unsealMessage c im sender now = Ok (true, im', sender', c') ->
  sealed im' = None /\ inboxMessage im' <> None.
Proof.
  unfold unsealMessage. intros H.
  destruct (isPending sender); [discriminate|].
  destruct (Nat.ltb_spec (length (sealedBytes im)) 24); [discriminate|].
  destruct (decryptMessage c _ _ sender) as [[[r sender1] c1]|];
    [|discriminate].
  cbv beta iota delta [bind] in H.
  destruct r as [plaintext|]; [|discriminate].
  destruct (length plaintext <? 4); [discriminate|].
  destruct (_ || _); [discriminate|].
  destruct (proto_Unmarshal_Message _) as [e|msg]; [discriminate|].
  destruct (negb (length (MyNextDh msg) =? 32)); [discriminate|].
  destruct (isDuplicate _ _ _ _) as [[|]|]; [discriminate| |discriminate].
  cbv zeta in H. injection H as <- _ _.
  split; [reflexivity|discriminate].
Qed.
Section FetchMore.

Context `{P : Primitives}.

Lemma randBytes_rand (c c' : client) (n : nat) (b : bytes) :
  randBytes c n = Ok (b, c') -> exists r, c' = set_rand r c.
Proof.
  unfold randBytes.
  destruct (io_ReadFull (rand c) n) as [[b0 r]|]; [|discriminate].
  intros E. injection E as _ <-. eauto.
Qed.

(** X28. A message that [send] refuses leaves no trace: when [send]
    returns an error, the client is as it was but for what was read from
    its random source; nothing is queued, nothing is put in the outbox and
    nothing is shown. *)
Theorem send_refused (c c' : client) (to : Contact) (message : Message)
  (e : string) :
  send c to message = Ok (c', Some e) ->
  exists r,
    c' = set_rand r c
    /\ queue c' = queue c
    /\ outbox c' = outbox c
    /\ events c' = events c.
Proof.
  unfold send. intros H.
  assert (Same : exists r, c = set_rand r c
                           /\ queue c = queue c /\ outbox c = outbox c
                           /\ events c = events c).
  { exists (rand c). destruct c; repeat split. }
  destruct (proto_Marshal_Message message) as [e0|messageBytes].
  { injection H as <- _. exact Same. }
  destruct (MaxSerializedMessage <? length messageBytes).
  { injection H as <- _. exact Same. }
  clear Same.
  destruct (randBytes c _) as [[pad c1]|] eqn:E1; [|discriminate].
  apply randBytes_rand in E1. destruct E1 as [r1 ->].
  cbv beta iota delta [bind] in H.
  destruct (randBytes (set_rand r1 c) 24) as [[innerNonce c2]|] eqn:E2;
    [|discriminate].
  apply randBytes_rand in E2. destruct E2 as [r2 ->].
  cbv beta iota delta [bind] in H.
  destruct (1 <=? supportedVersion to)%Z.
  - destruct (box_GenerateKey _) as [[e0|[public private]] r3].
    + injection H as <- _. eexists. repeat split.
    + destruct (randBytes _ 24) as [[outerNonce c3]|] eqn:E3; [|discriminate].
      apply randBytes_rand in E3. destruct E3 as [r4 ->].
      cbv beta iota delta [bind] in H.
      destruct (myGroupKey to); [|discriminate].
      cbv beta iota delta [bind deref] in H.
      destruct (MemberKey_Sign _ _ _) as [[e0|groupSig] r'] in H.
      * injection H as <- _. eexists. repeat split.
      * destruct (Id message); [|discriminate].
        destruct (Time message); discriminate.
  - cbv beta iota delta [bind] in H.
    destruct (myGroupKey to); [|discriminate].
    cbv beta iota delta [bind deref] in H.
    destruct (MemberKey_Sign _ _ _) as [[e0|groupSig] r'] in H.
    + injection H as <- _. eexists. repeat split.
    + destruct (Id message); [|discriminate].
      destruct (Time message); discriminate.
Qed.

Lemma updateContact_ids (cs : list Contact) (k : Contact) :
  map contactId (updateContact cs k) = map contactId cs.
Proof.
  unfold updateContact. induction cs as [|x rest IH]; [reflexivity|].
  cbn [map]. rewrite IH.
  destruct (Z.eqb_spec (contactId x) (contactId k)) as [E|E];
    [rewrite E|]; reflexivity.
Qed.

(** What [unsealMessage] leaves of the client and of the contact's id. *)
Lemma unsealMessage_frame (c c' : client) (im im' : InboxMessage)
  (sender sender' : Contact) (now : Z) (b : bool) :
  unsealMessage c im sender now = Ok (b, im', sender', c') ->
  inbox c' = inbox c
  /\ queue c' = queue c
  /\ contacts c' = contacts c
  /\ contactId sender' = contactId sender
  /\ receivedTime im' = receivedTime im
  /\ read im' = read im && negb b.
Proof.
  unfold unsealMessage. intros H.
  destruct (isPending sender); [discriminate|].
  destruct (Nat.ltb_spec (length (sealedBytes im)) 24); [discriminate|].
  destruct (decryptMessage c _ _ sender) as [[[r sender1] c1]|] eqn:Hd;
    [|discriminate].
  apply decryptMessage_frame in Hd. destruct Hd as [Hpo [rest G]].
  assert (Hid : contactId sender1 = contactId sender).
  { rewrite Hpo. destruct sender; reflexivity. }
  unfold grownBy in G.
  assert (G1 : inbox c1 = inbox c /\ queue c1 = queue c
               /\ contacts c1 = contacts c).
  { rewrite G. repeat split. }
  destruct G1 as (Gi & Gq & Gc).
  cbv beta iota delta [bind] in H.
  assert (D : forall e,
             Ok (false, im, sender1, emit e c1) = Ok (b, im', sender', c') ->
             inbox c' = inbox c
             /\ queue c' = queue c
             /\ contacts c' = contacts c
             /\ contactId sender' = contactId sender
             /\ receivedTime im' = receivedTime im
             /\ read im' = read im && negb b).
  { intros e E. injection E as <- <- <- <-.
    cbn [inbox queue contacts emit set_events negb].
    rewrite Bool.andb_true_r. repeat split; assumption. }
  destruct r as [plaintext|]; [|eauto].
  destruct (length plaintext <? 4); [eauto|].
  destruct (_ || _); [eauto|].
  destruct (proto_Unmarshal_Message _) as [e|msg]; [eauto|].
  destruct (negb (length (MyNextDh msg) =? 32)); [eauto|].
  destruct (isDuplicate _ _ _ _) as [[|]|]; [eauto| |discriminate].
  cbv zeta in H. injection H as <- <- <- <-.
  destruct (accepted_contact sender1 msg) as (_ & _ & _ & _ & A5 & _).
  split.
  { destruct (InReplyTo msg) as [i|]; [|exact Gi].
    destruct (ackOutbox (outbox c1) i now). exact Gi. }
  split.
  { destruct (InReplyTo msg) as [i|]; [|exact Gq].
    destruct (ackOutbox (outbox c1) i now). exact Gq. }
  split.
  { destruct (InReplyTo msg) as [i|]; [|exact Gc].
    destruct (ackOutbox (outbox c1) i now). exact Gc. }
  split; [rewrite <- Hid; exact A5|].
  split; [reflexivity|].
  cbn [read set_read negb]. rewrite Bool.andb_false_r. reflexivity.
Qed.

(** X29. [processFetch] takes nothing out of the queue and leaves what the
    inbox already holds: the queue keeps its entries in their order, and
    the inbox is as it was or has one more entry, received at the time of
    the call and unread, which holds either the bytes that were fetched,
    still sealed, or a parsed message.  The contact table keeps its ids. *)
Theorem fetch_inbox_grows (c c' : client) (f : Fetched) (now : Z) :
  processFetch c f now = Ok c' ->
  map qmId (queue c') = map qmId (queue c)
  /\ map contactId (contacts c') = map contactId (contacts c)
  /\ (inbox c' = inbox c
      \/ exists im,
          inbox c' = inbox c ++ [im]
          /\ receivedTime im = now
          /\ read im = false
          /\ ((sealed im = Some (FetchedMessage f) /\ inboxMessage im = None)
              \/ (sealed im = None /\ inboxMessage im <> None))).
Proof.
  unfold processFetch. intros H.
  assert (Log : forall e,
             map qmId (queue (emit e c)) = map qmId (queue c)
             /\ map contactId (contacts (emit e c)) = map contactId (contacts c)
             /\ (inbox (emit e c) = inbox c
                 \/ exists im,
                     inbox (emit e c) = inbox c ++ [im]
                     /\ receivedTime im = now
                     /\ read im = false
                     /\ ((sealed im = Some (FetchedMessage f)
                          /\ inboxMessage im = None)
                         \/ (sealed im = None /\ inboxMessage im <> None)))).
  { intros e. split; [reflexivity|]. split; [reflexivity|]. left. reflexivity. }
  destruct (openTag c _ _) as [[[t ok]|]|]; [| |discriminate].
  2:{ injection H as <-. apply Log. }
  cbv beta iota delta [bind] in H.
  destruct ok; cbn [negb] in H; [|injection H as <-; apply Log].
  unfold deliverFetched in H.
  destruct (findSender (contacts c) t) as [sender|];
    [|injection H as <-; apply Log].
  destruct (revoked sender); [injection H as <-; apply Log|].
  destruct (length (FetchedMessage f) <? box_Overhead + 24);
    [injection H as <-; apply Log|].
  clear Log.
  destruct (randId c) as [[i c1]|] eqn:Er; [|discriminate].
  apply randId_queue in Er.
  destruct Er as (Q1 & _ & _ & _ & _ & C1 & I1).
  cbv beta iota delta [bind] in H.
  destruct (isPending sender); cbn [negb] in H.
  - injection H as <-.
    cbn [queue contacts inbox emit set_events set_inbox].
    split; [rewrite Q1; reflexivity|]. split; [rewrite C1; reflexivity|].
    right. eexists. split; [rewrite I1; reflexivity|].
    split; [reflexivity|]. split; [reflexivity|].
    left. split; reflexivity.
  - destruct (unsealMessage c1 _ sender now) as [[[[ok im'] sender'] c2]|] eqn:Eu;
      [|discriminate].
    cbv beta iota delta [bind] in H.
    pose proof (unsealMessage_frame _ _ _ _ Eu) as (I2 & Q2 & C2 & _ & T2 & R2).
    cbn [receivedTime read andb] in T2, R2.
    destruct ok; cbn [negb] in H.
    + apply unseal_accepted_frame in Eu. destruct Eu as [Hs Hm].
      destruct (inboxMessage im') as [msg|] eqn:Em;
        [|contradiction Hm; reflexivity].
      cbv beta iota delta [bind deref] in H.
      destruct (0 <? length (Body msg)).
      * destruct (Time msg) as [tm|]; [|discriminate].
        cbv beta iota delta [bind deref] in H. injection H as <-.
        cbn [queue contacts inbox emit set_events set_inbox set_contacts].
        split; [rewrite Q2, Q1; reflexivity|].
        split; [rewrite updateContact_ids, C2, C1; reflexivity|].
        right. exists im'. split; [rewrite I2, I1; reflexivity|].
        split; [exact T2|]. split; [exact R2|].
        right. split; [exact Hs|rewrite Em; discriminate].
      * cbv beta iota delta [bind deref] in H. injection H as <-.
        cbn [queue contacts inbox emit set_events set_inbox set_contacts].
        split; [rewrite Q2, Q1; reflexivity|].
        split; [rewrite updateContact_ids, C2, C1; reflexivity|].
        right. exists im'. split; [rewrite I2, I1; reflexivity|].
        split; [exact T2|]. split; [exact R2|].
        right. split; [exact Hs|rewrite Em; discriminate].
    + injection H as <-.
      cbn [queue contacts inbox set_contacts].
      split; [rewrite Q2, Q1; reflexivity|].
      split; [rewrite updateContact_ids, C2, C1; reflexivity|].
      left. rewrite I2. exact I1.
Qed.

(** X30. What the network worker hands over, [processNewMessage] can
    take: a new-message report that [transaction] posts carries a fetched
    message or an announcement, so [processNewMessage] runs [processFetch]
    on the message or [processServerAnnounce] on an announcement that is
    there. *)
Theorem handed_over_is_processed (c c' : client) (net : netResult)
  (meanwhile : list queuedMessage) (fetched : option Fetched)
  (announce : option ServerAnnounce) :
  transaction c net meanwhile = Ok c' ->
  In (NewMessageChan fetched announce) (events c') ->
  ~ In (NewMessageChan fetched announce) (events c) ->
  queue c = []
  /\ ((exists f,
          fetched = Some f
          /\ forall c2 now,
              processNewMessage c2 fetched announce now = processFetch c2 f now)
      \/ (exists a,
             fetched = None /\ announce = Some a
             /\ forall c2 now,
                 processNewMessage c2 fetched announce now
                 = processServerAnnounce c2 (Some a) now)).
Proof.
  unfold transaction. intros H Hin Hnot.
  assert (Hno : forall l : list event,
             Forall (fun e => forall f a, e <> NewMessageChan f a) l ->
             In (NewMessageChan fetched announce) (events c ++ l) -> False).
  { intros l Hl Hi. apply in_app_or in Hi. destruct Hi as [Hi|Hi];
      [contradiction|].
    rewrite Forall_forall in Hl. exact (Hl _ Hi fetched announce eq_refl). }
  destruct (queue c) as [|head rest] eqn:Eq.
  - split; [reflexivity|]. cbv beta iota zeta in H.
    destruct net as [| | |reply].
    1-3: exfalso; injection H as <-;
      cbn [events emit set_events set_queue] in Hin;
      rewrite <- app_assoc in Hin;
      apply Hno in Hin; [exact Hin|];
      repeat constructor; discriminate.
    destruct (Status reply) as [st|] eqn:Es.
    + exfalso. cbn [negb andb] in H. cbv beta iota delta [bind] in H.
      destruct (replyToError reply); injection H as <-;
        cbn [events emit set_events set_queue] in Hin;
        rewrite <- ?app_assoc in Hin;
        apply Hno in Hin; try exact Hin;
        repeat constructor; discriminate.
    + assert (E : replyToError reply = None)
        by (unfold replyToError; rewrite Es; reflexivity).
      cbn [negb andb] in H.
      destruct (isSome (ReplyFetched reply) || isSome (ReplyAnnounce reply))
        eqn:Ef; cbv beta iota delta [bind] in H; rewrite E in H;
        injection H as <-;
        cbn [events emit set_events set_queue] in Hin;
        rewrite <- ?app_assoc in Hin.
      * apply in_app_or in Hin. destruct Hin as [Hin|Hin]; [contradiction|].
        destruct Hin as [Hin|[Hin|[]]]; [discriminate Hin|].
        injection Hin as <- <-.
        destruct (ReplyFetched reply) as [f|].
        { left. exists f. split; [reflexivity|]. reflexivity. }
        destruct (ReplyAnnounce reply) as [a|]; [|discriminate Ef].
        right. exists a. split; [reflexivity|]. split; reflexivity.
      * exfalso. apply Hno in Hin; [exact Hin|].
        repeat constructor; discriminate.
  - exfalso. cbv beta iota zeta in H.
    destruct net as [| | |reply].
    1-3: injection H as <-;
      cbn [events emit set_events set_queue] in Hin;
      rewrite <- app_assoc in Hin;
      apply Hno in Hin; [exact Hin|];
      repeat constructor; discriminate.
    destruct (Status reply) as [st|] eqn:Es.
    + cbn [negb andb] in H.
      destruct (isGenerationRevoked st && isSome (ReplyRevocation reply));
        cbv beta iota delta [bind deref] in H;
        destruct (replyToError reply); injection H as <-;
        cbn [events emit set_events set_queue] in Hin;
        rewrite <- ?app_assoc in Hin;
        apply Hno in Hin; try exact Hin;
        repeat constructor; discriminate.
    + assert (E : replyToError reply = None)
        by (unfold replyToError; rewrite Es; reflexivity).
      cbn [negb andb] in H. unfold dropTail in H.
      cbn [queue emit set_events set_queue] in H.
      destruct ((rest ++ [head]) ++ meanwhile) as [|x l] eqn:El.
      { destruct rest; discriminate El. }
      cbv beta iota delta [bind deref] in H. rewrite E in H.
      injection H as <-.
      cbn [events emit set_events set_queue] in Hin.
      rewrite <- ?app_assoc in Hin.
      apply Hno in Hin; [exact Hin|].
      repeat constructor; discriminate.
Qed.

End FetchMore.

(** * Runs on the small instance

    The theorems above applied to the instance [Toy], and the inputs on
    which the code departs from a claim. *)

Section ToyRuns.

#[local] Existing Instance Toy.primitives.

Lemma Toy_collaborators_succeed : @collaborators_succeed Toy.primitives.
Proof.
  split; [|split].
  - intros r n. simpl. discriminate.
  - intros r. simpl. eauto.
  - intros r k d. simpl. eauto.
Qed.

Lemma send_sealed_length_witness :
  send Toy.us Toy.alice Toy.hello = Ok (Toy.afterSend, None)
  /\ exists out d,
      queue Toy.afterSend = queue Toy.us ++ [out]
      /\ Deliver (request out) = Some d
      /\ ((1 <= supportedVersion Toy.alice)%Z ->
          length (DeliveryMessage d)
          = 24 + 32 + 16 + 24 + 4 + @MaxSerializedMessage Toy.primitives + 16)
      /\ (supportedVersion Toy.alice = 0%Z ->
          length (DeliveryMessage d) = 24 + 4 + @MaxSerializedMessage Toy.primitives + 16).
Proof.
  split.
  - reflexivity.
  - apply (@send_sealed_length Toy.primitives Toy.us Toy.afterSend Toy.alice
             Toy.hello).
    reflexivity.
Defined.

Lemma send_size_boundary_witness :
  (exists c', send Toy.us Toy.alice Toy.hello = Ok (c', None))
  /\ send Toy.us Toy.alice Toy.longer = Ok (Toy.us, Some "message too large")
  /\ send Toy.us Toy.alice Toy.fullBody
     = Ok (Toy.us, Some "message too large").
Proof.
  split; [|split].
  - refine (proj1 (@send_size_boundary Toy.primitives Toy.us Toy.alice
                     Toy.hello _ (9, 0)%Z 11%Z 1000%Z eq_refl
                     Toy_collaborators_succeed eq_refl eq_refl eq_refl) _).
    apply Nat.leb_le. reflexivity.
  - refine (proj1 (proj2 (@send_size_boundary Toy.primitives Toy.us Toy.alice
                            Toy.longer _ (9, 0)%Z 12%Z 1001%Z eq_refl
                            Toy_collaborators_succeed eq_refl eq_refl
                            eq_refl)) _).
    reflexivity.
  - refine (proj2 (proj2 (@send_size_boundary Toy.primitives Toy.us Toy.alice
                            Toy.fullBody _ (9, 0)%Z 13%Z 1002%Z eq_refl
                            Toy_collaborators_succeed eq_refl eq_refl
                            eq_refl)) _ _).
    + reflexivity.
    + apply Nat.ltb_lt. reflexivity.
Defined.

(** C8 as stated fails: the body of [Toy.fullBody] has exactly
    [MaxSerializedMessage] bytes, no collaborator reports an error, and
    [send] refuses the message with "message too large": the size check
    measures the serialized message, which holds the other fields as
    well. *)
Lemma send_body_boundary_counterexample :
  ~ (forall (c : @client Toy.primitives) (to : Contact) (message : Message)
       (k : MemberKey) (mid mtime : Z),
        collaborators_succeed ->
        myGroupKey to = Some k ->
        Id message = Some mid ->
        Time message = Some mtime ->
        length (Body message) <= MaxSerializedMessage ->
        exists c', send c to message = Ok (c', None)).
Proof.
  intros H.
  destruct (H Toy.us Toy.alice Toy.fullBody (9, 0)%Z 13%Z 1002%Z
              Toy_collaborators_succeed eq_refl eq_refl eq_refl
              (proj1 (Nat.leb_le 40 40) eq_refl)) as [c' E].
  change (Ok (Toy.us, Some "message too large") = Ok (c', None)) in E.
  discriminate E.
Qed.

Lemma revoke_signed_revocation_witness :
  revoke Toy.us 7 50 51 = Ok Toy.afterRevoke
  /\ exists out sr body revBytes,
      queue Toy.afterRevoke = queue Toy.us ++ [out]
      /\ outbox Toy.afterRevoke = outbox Toy.us ++ [out]
      /\ qmRevocation out = true
      /\ Revocation (request out) = Some sr
      /\ SRRevocation sr = Some body
      /\ RevGeneration body = Some (generation Toy.us)
      /\ generation Toy.afterRevoke = wrap32 (generation Toy.us + 1)
      /\ @proto_Marshal_Revocation Toy.primitives body = inr revBytes
      /\ SRSignature sr
         = @ed25519_Sign Toy.primitives (priv Toy.us)
             ((String.list_byte_of_string "revocation" ++ [x00]) ++ revBytes).
Proof.
  split.
  - reflexivity.
  - apply (@revoke_signed_revocation Toy.primitives Toy.us Toy.afterRevoke
             7%Z 50%Z 51%Z).
    reflexivity.
Defined.

(** C1 as stated fails: our generation is 5 when Alice is revoked; the
    revocation put in the queue carries 5, not the new generation 6. *)
Lemma revoke_new_generation_counterexample :
  ~ (forall (c c' : @client Toy.primitives) (toId now created : Z),
        revoke c toId now created = Ok c' ->
        enqueuedRevocationGeneration c' = Some (generation c')).
Proof.
  intros H.
  specialize (H Toy.us Toy.afterRevoke 7%Z 50%Z 51%Z eq_refl).
  assert (E : enqueuedRevocationGeneration Toy.afterRevoke = Some 5%Z)
    by reflexivity.
  assert (G : generation Toy.afterRevoke = 6%Z) by reflexivity.
  rewrite E, G in H. discriminate H.
Qed.

(** C5 as stated fails: Alice's message opens under our current private
    value, so the ratchet step is taken before the 31-byte [my_next_dh] is
    seen; the message is dropped but [lastDHPrivate] is no longer what it
    was. *)
Lemma unseal_bad_dh_state_unchanged_counterexample :
  ~ (forall (c c' c1 : @client Toy.primitives) (im im' : InboxMessage)
       (from from' from1 : Contact) (now : Z) (b : bool)
       (plaintext : bytes) (msg : Message),
        isPending from = false ->
        decryptMessage c (skipn 24 (sealedBytes im))
          (firstn 24 (sealedBytes im)) from
        = Ok (Some plaintext, from1, c1) ->
        proto_Unmarshal_Message (payload plaintext) = inr msg ->
        length (MyNextDh msg) <> 32 ->
        unsealMessage c im from now = Ok (b, im', from', c') ->
        b = false /\ from' = from).
Proof.
  intros H.
  specialize (H Toy.us (snd (Toy.unsealed Toy.badDh))
                (Toy.clientDecrypted Toy.badDh) Toy.badDh
                (snd (fst (fst (Toy.unsealed Toy.badDh)))) Toy.alice
                (Toy.contactUnsealed Toy.badDh)
                (Toy.contactDecrypted Toy.badDh) 0%Z false
                (Toy.plaintextOf Toy.badDh) (Toy.parsed Toy.badDh) eq_refl
                eq_refl eq_refl
                (proj1 (Nat.eqb_neq
                          (length (MyNextDh (Toy.parsed Toy.badDh))) 32)
                   eq_refl)
                eq_refl).
  destruct H as [_ H].
  apply (f_equal (fun k => hd x00 (lastDHPrivate k))) in H.
  change (x02 = x01) in H. discriminate H.
Qed.

Lemma fetch_opens_with_current_key_witness :
  openTag Toy.afterRevoke (sha256 (FetchedMessage Toy.fetchedFromBob))
    (FetchedSignature Toy.fetchedFromBob)
  = Ok (Some (PrivateKey_Open (groupPriv Toy.afterRevoke)
                (FetchedSignature Toy.fetchedFromBob)))
  /\ processFetch Toy.afterRevoke Toy.fetchedFromBob 60
     = deliverFetched Toy.afterRevoke Toy.fetchedFromBob 60 [x02].
Proof.
  assert (R : retainedKeysPresent Toy.afterRevoke).
  { unfold retainedKeysPresent.
    change (prevGroupPrivs Toy.afterRevoke)
      with [mkPreviousGroupPrivateKey (Some (0%Z : @PrivateKey Toy.primitives)) 50%Z].
    constructor; [discriminate|constructor]. }
  assert (V : verifiesUnderPrevious Toy.afterRevoke
                (sha256 (FetchedMessage Toy.fetchedFromBob))
                (FetchedSignature Toy.fetchedFromBob)).
  { exists (mkPreviousGroupPrivateKey (Some (0%Z : @PrivateKey Toy.primitives)) 50%Z), 0%Z.
    split; [left; reflexivity|]. split; reflexivity. }
  destruct (@fetch_opens_with_current_key Toy.primitives Toy.afterRevoke
              Toy.fetchedFromBob 60%Z eq_refl R) as [H _].
  destruct (H V) as [H1 H2]. split; [exact H1|exact H2].
Defined.

Lemma unseal_never_on_pending_witness :
  unsealMessage Toy.us Toy.fromAlice Toy.bob 0
  = Panic "was asked to unseal message from pending contact"
  /\ deliverFetched Toy.afterRevoke Toy.fetchedFromBob 60 [x02]
     = Ok (storedPending (snd Toy.drawn) Toy.fetchedFromBob 60 (fst Toy.drawn)
             Toy.bobRevised).
Proof.
  destruct (@unseal_never_on_pending Toy.primitives) as (H1 & _ & H3).
  split.
  - apply H1. reflexivity.
  - apply H3.
    + reflexivity.
    + reflexivity.
    + reflexivity.
    + apply Nat.leb_le. reflexivity.
    + reflexivity.
Defined.

Lemma processMessageSent_long_signature_witness :
  length Toy.longSignature = 65
  /\ processMessageSent Toy.afterSend (Toy.revokedResult Toy.longSignature) 70
     = processMessageSent Toy.afterSend
         (Toy.revokedResult (firstn 64 Toy.longSignature)) 70
  /\ processMessageSent Toy.afterSend (Toy.revokedResult Toy.longSignature) 70
     = Ok Toy.afterLongSignature
  /\ option_map contactGeneration
       (lookupContact (contacts Toy.afterSend) 7) = Some 3%Z
  /\ option_map contactGeneration
       (lookupContact (contacts Toy.afterLongSignature) 7) = Some 4%Z.
Proof.
  split; [reflexivity|]. split.
  - apply (@processMessageSent_long_signature Toy.primitives Toy.afterSend
             (Toy.revokedResult Toy.longSignature) 70%Z
             (mkSignedRevocation (Some (mkRevocationBody [x05] (Some 3%Z)))
                Toy.longSignature)).
    + reflexivity.
    + apply Nat.ltb_lt. reflexivity.
  - split; [reflexivity|]. split; reflexivity.
Defined.

Lemma transaction_send_reply_witness :
  queue Toy.afterSend = [Toy.queuedHello]
  /\ replyToError Toy.replyOK = None
  /\ transaction Toy.afterSend (Replied Toy.replyOK) []
     = Ok (emit (LogPrintf "Starting message transmission to %s")
             (set_queue ([] ++ [Toy.queuedHello]) Toy.afterSend)).
Proof.
  split; [reflexivity|].
  apply (proj2 (@transaction_send_reply Toy.primitives Toy.afterSend
                  Toy.queuedHello [] Toy.replyOK eq_refl)).
  reflexivity.
Defined.

Lemma unseal_accepted_state_witness :
  unsealMessage Toy.us Toy.fromAlice Toy.alice 0
  = Ok (true, snd (fst (fst (Toy.unsealed Toy.fromAlice))),
        Toy.contactUnsealed Toy.fromAlice, snd (Toy.unsealed Toy.fromAlice))
  /\ exists msg from1,
      (exists plaintext c1,
          decryptMessage Toy.us (skipn 24 (sealedBytes Toy.fromAlice))
            (firstn 24 (sealedBytes Toy.fromAlice)) Toy.alice
          = Ok (Some plaintext, from1, c1)
          /\ wellFramed plaintext
          /\ proto_Unmarshal_Message (payload plaintext) = inr msg)
      /\ privatesOnly Toy.alice from1
      /\ inboxMessage (snd (fst (fst (Toy.unsealed Toy.fromAlice)))) = Some msg
      /\ sealed (snd (fst (fst (Toy.unsealed Toy.fromAlice)))) = None
      /\ read (snd (fst (fst (Toy.unsealed Toy.fromAlice)))) = false
      /\ inboxId (snd (fst (fst (Toy.unsealed Toy.fromAlice))))
         = inboxId Toy.fromAlice
      /\ kxsBytes (Toy.contactUnsealed Toy.fromAlice) = None
      /\ length (MyNextDh msg) = 32
      /\ theirCurrentDHPublic (Toy.contactUnsealed Toy.fromAlice)
         = MyNextDh msg
      /\ lastDHPrivate (Toy.contactUnsealed Toy.fromAlice)
         = lastDHPrivate from1
      /\ currentDHPrivate (Toy.contactUnsealed Toy.fromAlice)
         = currentDHPrivate from1
      /\ (theirCurrentDHPublic Toy.alice <> MyNextDh msg ->
          theirLastDHPublic (Toy.contactUnsealed Toy.fromAlice)
          = theirCurrentDHPublic Toy.alice)
      /\ (theirCurrentDHPublic Toy.alice = MyNextDh msg ->
          theirLastDHPublic (Toy.contactUnsealed Toy.fromAlice)
          = theirLastDHPublic Toy.alice).
Proof.
  split; [reflexivity|].
  apply (@unseal_accepted_state Toy.primitives Toy.us
           (snd (Toy.unsealed Toy.fromAlice)) Toy.fromAlice
           (snd (fst (fst (Toy.unsealed Toy.fromAlice)))) Toy.alice
           (Toy.contactUnsealed Toy.fromAlice) 0%Z).
  reflexivity.
Defined.

Lemma unseal_refused_frame_witness :
  unsealMessage Toy.us Toy.badDh Toy.alice 0
  = Ok (false, snd (fst (fst (Toy.unsealed Toy.badDh))),
        Toy.contactUnsealed Toy.badDh, snd (Toy.unsealed Toy.badDh))
  /\ snd (fst (fst (Toy.unsealed Toy.badDh))) = Toy.badDh
  /\ privatesOnly Toy.alice (Toy.contactUnsealed Toy.badDh)
  /\ inbox (snd (Toy.unsealed Toy.badDh)) = inbox Toy.us
  /\ outbox (snd (Toy.unsealed Toy.badDh)) = outbox Toy.us
  /\ queue (snd (Toy.unsealed Toy.badDh)) = queue Toy.us
  /\ (exists logged,
        events (snd (Toy.unsealed Toy.badDh)) = events Toy.us ++ logged
        /\ logged <> [])
  /\ exists r c1 line opens,
      decryptMessage Toy.us (skipn 24 (sealedBytes Toy.badDh))
        (firstn 24 (sealedBytes Toy.badDh)) Toy.alice
      = Ok (r, Toy.contactUnsealed Toy.badDh, c1)
      /\ snd (Toy.unsealed Toy.badDh) = emit line c1
      /\ isLogLine line = true
      /\ events c1 = events Toy.us ++ opens
      /\ Forall (fun e => isBoxOpen e = true) opens
      /\ events (snd (Toy.unsealed Toy.badDh))
         = events Toy.us ++ opens ++ [line].
Proof.
  split; [reflexivity|].
  apply (@unseal_refused_frame Toy.primitives Toy.us
           (snd (Toy.unsealed Toy.badDh)) Toy.badDh
           (snd (fst (fst (Toy.unsealed Toy.badDh)))) Toy.alice
           (Toy.contactUnsealed Toy.badDh) 0%Z).
  reflexivity.
Defined.


Lemma revoke_keeps_old_tags_witness :
  revoke Toy.us 7 50 51 = Ok Toy.afterRevoke
  /\ exists to k',
      lookupContact (contacts Toy.us) 7 = Some to
      /\ In k' (contacts Toy.afterRevoke)
      /\ contactId k' = contactId Toy.bob
      /\ previousTags k'
         = previousTags Toy.bob
             ++ [mkPreviousTag (MemberKey_Tag (groupKey Toy.bob)) 50]
      /\ groupKey k'
         = fst (MemberKey_Update (groupKey Toy.bob)
                  (PrivateKey_GenerateRevocation (groupPriv Toy.us)
                     (groupKey to)))
      /\ revoked k' = revoked Toy.bob
      /\ matchesTag (MemberKey_Tag (groupKey Toy.bob)) k' = true.
Proof.
  split; [reflexivity|].
  apply (@revoke_keeps_old_tags Toy.primitives Toy.us Toy.afterRevoke
           7%Z 50%Z 51%Z Toy.bob).
  - reflexivity.
  - right. left. reflexivity.
  - discriminate.
Defined.

Lemma revoke_keeps_old_signatures_witness :
  revoke Toy.us 7 50 51 = Ok Toy.afterRevoke
  /\ PrivateKey_Verify (groupPriv Toy.us)
       (sha256 (FetchedMessage Toy.fetchedFromBob))
       (FetchedSignature Toy.fetchedFromBob) = true
  /\ openTag Toy.afterRevoke (sha256 (FetchedMessage Toy.fetchedFromBob))
       (FetchedSignature Toy.fetchedFromBob)
     = Ok (Some (PrivateKey_Open (groupPriv Toy.afterRevoke)
                   (FetchedSignature Toy.fetchedFromBob))).
Proof.
  split; [reflexivity|]. split; [reflexivity|].
  apply (@revoke_keeps_old_signatures Toy.primitives Toy.us Toy.afterRevoke
           7%Z 50%Z 51%Z).
  - reflexivity.
  - constructor.
  - reflexivity.
  - reflexivity.
Defined.

Lemma sent_revocation_refused_witness :
  exists line,
    processMessageSent Toy.afterSend (Toy.revokedResult (repeat x0b 64)) 70
    = Ok (emit (LogPrintf line) Toy.afterSend).
Proof.
  apply (@sent_revocation_refused Toy.primitives Toy.afterSend
           (Toy.revokedResult (repeat x0b 64)) 70%Z
           (mkSignedRevocation (Some (mkRevocationBody [x05] (Some 3%Z)))
              (repeat x0b 64))
           (mkRevocationBody [x05] (Some 3%Z)) Toy.queuedHello Toy.alice 3%Z).
  - reflexivity.
  - reflexivity.
  - reflexivity.
  - reflexivity.
  - reflexivity.
  - right. intros revBytes _. reflexivity.
Defined.

Lemma sent_revoked_us_witness :
  exists c' to',
    processMessageSent Toy.afterSend Toy.revokedUsResult 70 = Ok c'
    /\ queue c'
       = filter (fun m => negb (qmTo m =? qmTo Toy.queuedHello)%Z)
           (queue Toy.afterSend)
    /\ outbox c' = outbox Toy.afterSend
    /\ lookupContact (contacts c') (qmTo Toy.queuedHello) = Some to'
    /\ revokedUs to' = true
    /\ contactGeneration to' = wrap32 (contactGeneration Toy.alice + 1)
    /\ events c'
       = events Toy.afterSend
           ++ [LogPrintf "Revoked by %s";
               ContactsUISetIndicator (contactId Toy.alice) indicatorBlack;
               ContactsUISetSubline (contactId Toy.alice) "has revoked"]
           ++ map (fun m => OutboxUISetIndicator (qmId m) indicatorBlack)
                (filter (fun m => (qmTo m =? qmTo Toy.queuedHello)%Z)
                   (queue Toy.afterSend))
           ++ [UIAction "uiStateRevocationProcessed"; UISignal].
Proof.
  apply (@sent_revoked_us Toy.primitives Toy.afterSend Toy.revokedUsResult
           70%Z
           (mkSignedRevocation (Some (mkRevocationBody [x09] (Some 3%Z)))
              Toy.validSignature)
           (mkRevocationBody [x09] (Some 3%Z)) Toy.queuedHello Toy.alice
           [x09; x03; x00; x00; x00] 9%Z (9, 0)%Z).
  - reflexivity.
  - reflexivity.
  - reflexivity.
  - reflexivity.
  - reflexivity.
  - reflexivity.
  - apply Nat.leb_le. reflexivity.
  - reflexivity.
  - reflexivity.
  - reflexivity.
  - reflexivity.
Defined.

Lemma sent_revocation_update_witness :
  exists c' to' u,
    processMessageSent Toy.afterSend (Toy.revokedResult Toy.validSignature) 70
    = Ok c'
    /\ queue c' = queue Toy.afterSend
    /\ outbox c' = outbox Toy.afterSend
    /\ lookupContact (contacts c') (qmTo Toy.queuedHello) = Some to'
    /\ revokedUs to' = revokedUs Toy.alice
    /\ contactGeneration to' = wrap32 (contactGeneration Toy.alice + 1)
    /\ ruId u = qmTo Toy.queuedHello
    /\ ruGeneration u = contactGeneration to'
    /\ events c'
       = events Toy.afterSend
           ++ [RevocationUpdateChan u; UIAction "uiStateRevocationProcessed";
               UISignal].
Proof.
  apply (@sent_revocation_update Toy.primitives Toy.afterSend
           (Toy.revokedResult Toy.validSignature) 70%Z
           (mkSignedRevocation (Some (mkRevocationBody [x05] (Some 3%Z)))
              Toy.validSignature)
           (mkRevocationBody [x05] (Some 3%Z)) Toy.queuedHello Toy.alice
           [x05; x03; x00; x00; x00] 5%Z (9, 0)%Z).
  - reflexivity.
  - reflexivity.
  - reflexivity.
  - reflexivity.
  - reflexivity.
  - reflexivity.
  - apply Nat.leb_le. reflexivity.
  - reflexivity.
  - reflexivity.
  - reflexivity.
  - reflexivity.
Defined.

Lemma sent_plain_witness :
  (exists c',
      processMessageSent Toy.afterSend (mkMessageSendResult 11 None) 70 = Ok c'
      /\ find (fun m => (qmId m =? 11)%Z) (outbox c')
         = Some (set_sent 70 Toy.queuedHello)
      /\ map qmId (outbox c') = map qmId (outbox Toy.afterSend)
      /\ map qmId (queue c') = map qmId (queue Toy.afterSend)
      /\ contacts c' = contacts Toy.afterSend
      /\ events c'
         = events Toy.afterSend
             ++ [OutboxUISetIndicator 11 indicatorYellow; Save])
  /\ processMessageSent Toy.afterSend (mkMessageSendResult 99 None) 70
     = Panic "invalid memory address or nil pointer dereference".
Proof.
  split.
  - apply (proj1 (@sent_plain Toy.primitives Toy.afterSend
                    (mkMessageSendResult 11 None) 70%Z) Toy.queuedHello).
    + reflexivity.
    + reflexivity.
  - apply (proj2 (@sent_plain Toy.primitives Toy.afterSend
                    (mkMessageSendResult 99 None) 70%Z)).
    reflexivity.
Defined.

Lemma resign_keeps_queue_witness :
  resignQueuedMessages Toy.afterUpdate Toy.postedUpdate = Ok Toy.afterResign
  /\ Forall2 (resigned Toy.postedUpdate) (queue Toy.afterUpdate)
       (queue Toy.afterResign)
  /\ map qmId (queue Toy.afterResign) = map qmId (queue Toy.afterUpdate)
  /\ map qmTo (queue Toy.afterResign) = map qmTo (queue Toy.afterUpdate)
  /\ contacts Toy.afterResign = contacts Toy.afterUpdate
  /\ inbox Toy.afterResign = inbox Toy.afterUpdate
  /\ (exists logged,
        events Toy.afterResign = events Toy.afterUpdate ++ logged
        /\ Forall
             (fun e =>
                e = LogPrintf "Error while resigning after revocation: %s")
             logged)
  /\ (forall pre m post,
        queue Toy.afterUpdate = pre ++ m :: post ->
        qmTo m = ruId Toy.postedUpdate ->
        exists d key,
          Deliver (request m) = Some d
          /\ ruKey Toy.postedUpdate = Some key
          /\ nth_error (queue Toy.afterResign) (length pre)
             = Some (resignedWith Toy.postedUpdate key
                       (randAfter Toy.postedUpdate key (rand Toy.afterUpdate)
                          pre)
                       d m))
  /\ (forall key,
        ruKey Toy.postedUpdate = Some key ->
        rand Toy.afterResign
        = randAfter Toy.postedUpdate key (rand Toy.afterUpdate)
            (queue Toy.afterUpdate)).
Proof.
  split; [reflexivity|].
  apply (@resign_keeps_queue Toy.primitives Toy.afterUpdate Toy.afterResign
           Toy.postedUpdate).
  reflexivity.
Defined.

Lemma resign_nil_delivery_witness :
  revoke Toy.us 7 50 51 = Ok Toy.afterRevoke
  /\ resignQueuedMessages Toy.afterRevoke
       Toy.lateUpdate
     = Panic "invalid memory address or nil pointer dereference".
Proof.
  split; [reflexivity|].
  apply (@resign_nil_delivery Toy.primitives Toy.afterRevoke
           Toy.lateUpdate
           (hd Toy.queuedHello (queue Toy.afterRevoke))).
  - left. reflexivity.
  - reflexivity.
  - reflexivity.
Defined.

Lemma update_then_resign_witness :
  processMessageSent Toy.afterSend (Toy.revokedResult Toy.validSignature) 70
  = Ok Toy.afterUpdate
  /\ resignQueuedMessages Toy.afterUpdate Toy.postedUpdate = Ok Toy.afterResign
  /\ exists to',
      lookupContact (contacts Toy.afterResign) (ruId Toy.postedUpdate)
      = Some to'
      /\ forall m,
          In m (queue Toy.afterResign) ->
          qmTo m = ruId Toy.postedUpdate ->
          exists d,
            Deliver (request m) = Some d
            /\ Generation d = Some (contactGeneration to').
Proof.
  split; [reflexivity|]. split; [reflexivity|].
  apply (@update_then_resign Toy.primitives Toy.afterSend Toy.afterUpdate
           Toy.afterResign (Toy.revokedResult Toy.validSignature) 70%Z
           Toy.postedUpdate).
  - reflexivity.
  - change (events Toy.afterUpdate)
      with (events Toy.afterSend
              ++ [RevocationUpdateChan Toy.postedUpdate;
                  UIAction "uiStateRevocationProcessed"; UISignal]).
    apply in_or_app. right. left. reflexivity.
  - change (events Toy.afterSend)
      with [OutboxUIAdd 11 "alice" (SublineTime 1000) indicatorRed].
    intros [H|[]]. discriminate H.
  - reflexivity.
Defined.

Lemma announce_stored_witness :
  (exists c',
      processServerAnnounce Toy.us (Some Toy.announcement) 80 = Ok c'
      /\ inbox c'
         = inbox Toy.us
             ++ [mkInboxMessage (fst Toy.drawnId) 80 0 None (Some Toy.hello)
                   false]
      /\ contacts c' = contacts Toy.us
      /\ queue c' = queue Toy.us
      /\ outbox c' = outbox Toy.us
      /\ events c'
         = events Toy.us
             ++ [InboxUIAdd (fst Toy.drawnId) "Home Server" (SublineTime 1000)
                   indicatorBlue;
                 UpdateWindowTitle; Save])
  /\ processServerAnnounce Toy.us None 80
     = Panic "invalid memory address or nil pointer dereference".
Proof.
  split.
  - apply (proj1 (@announce_stored Toy.primitives Toy.us
                    (Some Toy.announcement) 80%Z (fst Toy.drawnId)
                    (snd Toy.drawnId) eq_refl)
             Toy.announcement Toy.hello 1000%Z).
    + reflexivity.
    + reflexivity.
    + reflexivity.
  - apply (proj2 (@announce_stored Toy.primitives Toy.us None 80%Z
                    (fst Toy.drawnId) (snd Toy.drawnId) eq_refl)).
    intros a msg t H. discriminate H.
Defined.

Lemma transaction_keeps_unsent_witness :
  transaction Toy.afterSend (Replied Toy.replyRevoked) []
  = Ok Toy.afterRevokedReply
  /\ queue Toy.afterRevokedReply
     = skipn 1 (queue Toy.afterSend) ++ firstn 1 (queue Toy.afterSend) ++ []
  /\ outbox Toy.afterRevokedReply = outbox Toy.afterSend
  /\ contacts Toy.afterRevokedReply = contacts Toy.afterSend
  /\ forall r,
      In (MessageSentChan r) (events Toy.afterRevokedReply) ->
      In (MessageSentChan r) (events Toy.afterSend)
      \/ exists reply head,
          Replied Toy.replyRevoked = Replied reply
          /\ Status reply = Some Reply_GENERATION_REVOKED
          /\ hd_error (queue Toy.afterSend) = Some head
          /\ r = mkMessageSendResult (qmId head) (ReplyRevocation reply)
          /\ ReplyRevocation reply <> None.
Proof.
  split; [reflexivity|].
  apply (@transaction_keeps_unsent Toy.primitives Toy.afterSend
           Toy.afterRevokedReply (Replied Toy.replyRevoked) []).
  - intros reply H. injection H as <-. discriminate.
  - reflexivity.
Defined.

Lemma transaction_fetch_witness :
  exists c' handed,
    transaction Toy.us (Replied Toy.replyFetched) [Toy.queuedHello] = Ok c'
    /\ queue c' = [Toy.queuedHello]
    /\ events c'
       = events Toy.us ++ [LogPrintf "Starting fetch from home server"]
           ++ handed
    /\ (forall r, ~ In (MessageSentChan r) handed)
    /\ (Status Toy.replyFetched = None ->
        ReplyFetched Toy.replyFetched <> None
        \/ ReplyAnnounce Toy.replyFetched <> None ->
        handed
        = [NewMessageChan (ReplyFetched Toy.replyFetched)
             (ReplyAnnounce Toy.replyFetched)]).
Proof.
  apply (@transaction_fetch Toy.primitives Toy.us Toy.replyFetched
           [Toy.queuedHello]).
  reflexivity.
Defined.

Lemma parseServer_accepts_witness :
  exists r,
    parseServer parseKnown decodeZeros knownAddress false = Some r
    /\ parseErr r = None
    /\ host r = "abcdef.onion:16333"
    /\ exists ident, serverIdentity r = Some ident /\ length ident = 32.
Proof.
  destruct (parseServer_accepts parseKnown decodeZeros knownAddress false)
    as (r & E & _ & Hacc).
  assert (Hr : Some r
               = Some (mkParsedServer (Some (repeat x00 32))
                         "abcdef.onion:16333" None)).
  { rewrite <- E. reflexivity. }
  injection Hr as Hr.
  assert (He : parseErr r = None) by (rewrite Hr; reflexivity).
  exists r. split; [exact E|]. split; [exact He|].
  destruct (Hacc He) as (url & username & ident & Hu & _ & _ & _ & Hi & Hl
                         & _ & Hh).
  injection Hu as <-.
  destruct (Hh eq_refl) as [Hhost _].
  split; [exact Hhost|]. exists ident. split; [exact Hi|exact Hl].
Defined.

Lemma decodeBase32_pads_witness :
  decodeBase32 decodeZeros "AAAA" = Some (inr (repeat x00 32))
  /\ decodeBase32 decodeZeros "AAAA" = Some (decodeZeros "AAAA====").
Proof.
  split; [reflexivity|].
  exact (proj1 (decodeBase32_pads decodeZeros "AAAA")).
Defined.

Lemma send_refused_witness :
  exists r,
    Toy.us = set_rand r Toy.us
    /\ queue Toy.us = queue Toy.us
    /\ outbox Toy.us = outbox Toy.us
    /\ events Toy.us = events Toy.us.
Proof.
  apply (@send_refused Toy.primitives Toy.us Toy.us Toy.alice Toy.longer
           "message too large").
  reflexivity.
Defined.

Lemma fetch_inbox_grows_witness :
  processFetch Toy.afterRevoke Toy.fetchedFromBob 60 = Ok Toy.afterFetch
  /\ map qmId (queue Toy.afterFetch) = map qmId (queue Toy.afterRevoke)
  /\ map contactId (contacts Toy.afterFetch)
     = map contactId (contacts Toy.afterRevoke)
  /\ (inbox Toy.afterFetch = inbox Toy.afterRevoke
      \/ exists im,
          inbox Toy.afterFetch = inbox Toy.afterRevoke ++ [im]
          /\ receivedTime im = 60%Z
          /\ read im = false
          /\ ((sealed im = Some (FetchedMessage Toy.fetchedFromBob)
               /\ inboxMessage im = None)
              \/ (sealed im = None /\ inboxMessage im <> None))).
Proof.
  split; [reflexivity|].
  apply (@fetch_inbox_grows Toy.primitives Toy.afterRevoke Toy.afterFetch
           Toy.fetchedFromBob 60%Z).
  reflexivity.
Defined.

Lemma handed_over_is_processed_witness :
  transaction Toy.us (Replied Toy.replyFetched) [] = Ok Toy.afterFetchReply
  /\ queue Toy.us = []
  /\ ((exists f,
          Some Toy.fetchedFromBob = Some f
          /\ forall c2 now,
              processNewMessage c2 (Some Toy.fetchedFromBob) None now
              = processFetch c2 f now)
      \/ (exists a,
             Some Toy.fetchedFromBob = None /\ None = Some a
             /\ forall c2 now,
                 processNewMessage c2 (Some Toy.fetchedFromBob) None now
                 = processServerAnnounce c2 (Some a) now)).
Proof.
  split; [reflexivity|].
  apply (@handed_over_is_processed Toy.primitives Toy.us Toy.afterFetchReply
           (Replied Toy.replyFetched) [] (Some Toy.fetchedFromBob) None).
  - reflexivity.
  - right. left. reflexivity.
  - intros [].
Defined.

End ToyRuns.

(** * Runs on the instance with paired keys *)

Section PairedRuns.

#[local] Existing Instance Paired.primitives.

Lemma Paired_lengthLaws : @lengthLaws Paired.primitives.
Proof.
  split; [|split].
  - intros r n b r' H. injection H as <- _. apply repeat_length.
  - intros m n pk sk. change (length (Paired.seal m n pk sk) = length m + 16).
    unfold Paired.seal. cbn [length].
    rewrite !length_app, PutUint32_length, repeat_length. lia.
  - intros r pub private r' H. injection H as <- _ _. reflexivity.
Qed.

Lemma Paired_opensFor : opensFor Paired.bea Paired.ann.
Proof.
  intros pt n Hs. apply PairedFacts.open_seal; [exact Hs|].
  apply (PairedFacts.shared_comm x21 x11).
Qed.

Lemma Paired_opensEphemeral : opensEphemeral Paired.bea Paired.ann.
Proof.
  intros r pub private r' pt n H Hs. injection H as <- <- _.
  apply PairedFacts.open_seal; [exact Hs|].
  apply (PairedFacts.shared_comm x21).
Qed.

Lemma Paired_rejectsTrailing : @rejectsTrailing Paired.primitives.
Proof.
  intros m n pk sk extra n' pk' sk' He. apply PairedFacts.open_trailing.
  exact He.
Qed.

Lemma Paired_note_parses (messageBytes : bytes) :
  proto_Marshal_Message Paired.note = inr messageBytes ->
  proto_Unmarshal_Message messageBytes = inr Paired.note.
Proof. intros H. injection H as <-. reflexivity. Qed.

Lemma send_unseal_round_trip_witness :
  send Paired.annClient Paired.bea Paired.note = Ok (Paired.sentNote, None)
  /\ exists im' from' c',
      unsealMessage Paired.beaClient Paired.arrived Paired.ann 0
      = Ok (true, im', from', c')
      /\ inboxMessage im' = Some Paired.note
      /\ sealed im' = None
      /\ lastDHPrivate from' = Toy.key x21
      /\ currentDHPrivate from' = Toy.key x22
      /\ theirCurrentDHPublic from' = Toy.key x13.
Proof.
  split; [reflexivity|].
  apply (@send_unseal_round_trip Paired.primitives Paired.annClient
           Paired.sentNote Paired.bea Paired.note Paired.queuedNote
           Paired.deliveryOfNote Paired.beaClient Paired.ann Paired.arrived
           0%Z Paired_lengthLaws).
  - apply Z.ltb_lt. reflexivity.
  - exact Paired_opensFor.
  - intros _. split; [exact Paired_opensEphemeral|exact Paired_rejectsTrailing].
  - exact Paired_note_parses.
  - reflexivity.
  - reflexivity.
  - reflexivity.
  - reflexivity.
  - reflexivity.
  - reflexivity.
  - reflexivity.
Defined.

Lemma send_then_fetch_witness :
  send Paired.annClient Paired.bea Paired.note = Ok (Paired.sentNote, None)
  /\ exists c' im' from',
      processFetch Paired.beaClient
        (mkFetched (Signature Paired.deliveryOfNote)
           (DeliveryMessage Paired.deliveryOfNote)) 90
      = Ok c'
      /\ inbox c' = inbox Paired.beaClient ++ [im']
      /\ inboxId im' = fst Paired.drawnId
      /\ from im' = 9%Z
      /\ inboxMessage im' = Some Paired.note
      /\ sealed im' = None
      /\ lookupContact (contacts c') 9 = Some from'
      /\ theirCurrentDHPublic from' = Toy.key x13.
Proof.
  split; [reflexivity|].
  apply (@send_then_fetch Paired.primitives Paired.annClient Paired.sentNote
           Paired.bea Paired.note Paired.queuedNote Paired.deliveryOfNote
           Paired.beaClient (snd Paired.drawnId) Paired.ann [x04]
           (fst Paired.drawnId) 90%Z Paired_lengthLaws).
  - apply Z.ltb_lt. reflexivity.
  - exact Paired_opensFor.
  - intros _. split; [exact Paired_opensEphemeral|exact Paired_rejectsTrailing].
  - exact Paired_note_parses.
  - reflexivity.
  - reflexivity.
  - reflexivity.
  - reflexivity.
  - reflexivity.
  - reflexivity.
  - reflexivity.
  - reflexivity.
  - reflexivity.
  - reflexivity.
  - reflexivity.
Defined.


Lemma unseal_ladder_and_ratchet_witness :
  unsealMessage Paired.beaClient
    (Paired.delivered Paired.beaLater Paired.note) Paired.ann 0
  = Ok Paired.unsealedNote
  /\ fst (fst (fst Paired.unsealedNote))
     = true
  /\ snd (ladder
            (skipn 24
               (sealedBytes (Paired.delivered Paired.beaLater Paired.note)))
            (firstn 24
               (sealedBytes (Paired.delivered Paired.beaLater Paired.note)))
            (combinations Paired.ann))
     = None
  /\ lastDHPrivate
       (snd (fst Paired.unsealedNote))
     = currentDHPrivate Paired.ann
  /\ currentDHPrivate
       (snd (fst Paired.unsealedNote))
     = Toy.key x96.
Proof.
  split; [reflexivity|]. split; [reflexivity|]. split; [reflexivity|].
  pose proof (@unseal_ladder_and_ratchet Paired.primitives Paired.beaClient
                (Paired.delivered Paired.beaLater Paired.note)
                Paired.ann 0%Z eq_refl
                (proj1 (Nat.leb_le 24
                          (length
                             (sealedBytes
                                (Paired.delivered Paired.beaLater
                                   Paired.note))))
                   eq_refl)) as H.
  cbv zeta in H. destruct H as (_ & _ & H).
  specialize (H true
                (snd (fst (fst Paired.unsealedNote)))
                (snd (fst Paired.unsealedNote))
                (snd Paired.unsealedNote)
                eq_refl).
  destruct H as (_ & _ & from1 & from2 & from3 & rd1 & rd2 & rd3 & rest
                 & S1 & S2 & S3 & Hl & Hc & _).
  unfold stepped in S1, S2, S3.
  assert (E1 : usedCurrent
                 (snd (ladder
                         (skipn 24
                            (sealedBytes
                               (Paired.delivered Paired.beaLater Paired.note)))
                         (firstn 24
                            (sealedBytes
                               (Paired.delivered Paired.beaLater Paired.note)))
                         (combinations Paired.ann)))
               = false) by reflexivity.
  rewrite E1 in S1. destruct S1 as [-> ->].
  assert (E2 : usedCurrent
                 (snd (headerLadder
                         (skipn 24
                            (sealedBytes
                               (Paired.delivered Paired.beaLater Paired.note)))
                         (firstn 24
                            (sealedBytes
                               (Paired.delivered Paired.beaLater Paired.note)))
                         Paired.ann))
               = true) by reflexivity.
  rewrite E2 in S2. destruct S2 as (fresh & Hr & ->).
  change (Some (Toy.key x96, 151) = Some (fresh, rd2)) in Hr.
  injection Hr as <- <-.
  assert (E3 : usedCurrent
                 (snd (innerLadder
                         (skipn 24
                            (sealedBytes
                               (Paired.delivered Paired.beaLater Paired.note)))
                         (firstn 24
                            (sealedBytes
                               (Paired.delivered Paired.beaLater Paired.note)))
                         Paired.ann (ratchet (Toy.key x96) Paired.ann)))
               = false) by reflexivity.
  rewrite E3 in S3. destruct S3 as [-> _].
  split; [exact Hl|exact Hc].
Defined.

Lemma unseal_bad_dh_length_witness :
  unsealMessage Paired.beaClient
    (Paired.delivered Paired.beaLater Paired.shortDh) Paired.ann 0
  = Ok (false, Paired.delivered Paired.beaLater Paired.shortDh,
        snd (fst Paired.decryptedShortDh),
        emit (LogErrorf "Message from %s with bad DH length %d")
          (snd Paired.decryptedShortDh))
  /\ privatesOnly Paired.ann
       (snd (fst Paired.decryptedShortDh))
  /\ snd (fst Paired.decryptedShortDh)
     = ratchet (Toy.key x96) Paired.ann.
Proof.
  assert (W : wellFramed
                (fst (fst Paired.decryptedShortDh))).
  { split; [apply Nat.leb_le; reflexivity|apply Z.leb_le; reflexivity]. }
  pose proof (@unseal_bad_dh_length Paired.primitives Paired.beaClient
                (snd Paired.decryptedShortDh)
                (Paired.delivered Paired.beaLater Paired.shortDh)
                Paired.ann
                (snd (fst Paired.decryptedShortDh))
                0%Z
                (fst (fst Paired.decryptedShortDh))
                Paired.parsedShortDh
                eq_refl
                (proj1 (Nat.leb_le 24
                          (length
                             (sealedBytes
                                (Paired.delivered Paired.beaLater
                                   Paired.shortDh))))
                   eq_refl)
                eq_refl W eq_refl
                (proj1 (Nat.eqb_neq
                          (length
                             (MyNextDh
                                Paired.parsedShortDh))
                          32)
                   eq_refl)) as H.
  cbv zeta in H. destruct H as (H1 & H2 & _ & _ & H5 & _).
  split; [exact H1|]. split; [exact H2|].
  destruct H5 as (fromA & fromB & rd1 & rd2 & S1 & S2 & S3).
  unfold stepped in S1, S2, S3.
  assert (E1 : usedCurrent
                 (snd (ladder
                         (skipn 24
                            (sealedBytes
                               (Paired.delivered Paired.beaLater
                                  Paired.shortDh)))
                         (firstn 24
                            (sealedBytes
                               (Paired.delivered Paired.beaLater
                                  Paired.shortDh)))
                         (combinations Paired.ann)))
               = false) by reflexivity.
  rewrite E1 in S1. destruct S1 as [-> ->].
  assert (E2 : usedCurrent
                 (snd (headerLadder
                         (skipn 24
                            (sealedBytes
                               (Paired.delivered Paired.beaLater
                                  Paired.shortDh)))
                         (firstn 24
                            (sealedBytes
                               (Paired.delivered Paired.beaLater
                                  Paired.shortDh)))
                         Paired.ann))
               = true) by reflexivity.
  rewrite E2 in S2. destruct S2 as (fresh & Hr & ->).
  change (Some (Toy.key x96, 151) = Some (fresh, rd2)) in Hr.
  injection Hr as <- <-.
  assert (E3 : usedCurrent
                 (snd (innerLadder
                         (skipn 24
                            (sealedBytes
                               (Paired.delivered Paired.beaLater
                                  Paired.shortDh)))
                         (firstn 24
                            (sealedBytes
                               (Paired.delivered Paired.beaLater
                                  Paired.shortDh)))
                         Paired.ann (ratchet (Toy.key x96) Paired.ann)))
               = false) by reflexivity.
  rewrite E3 in S3. destruct S3 as [S3 _]. symmetry. exact S3.
Defined.

End PairedRuns.
